(** * LeafWiki file-history tracker: a shallow embedding of
      [internal/search/history.go] and the properties of its reconciliation
      pass ([CaptureFileHistory]) and of its history resolver
      ([GetHistoryForPath]).

    Go strings are byte sequences and are modelled by [string] (a list of
    8-bit [ascii]); Go maps are [gmap]s, ranged over in an order that is an
    explicit argument, since Go leaves the iteration order of a map
    unspecified; the [file_history] table is the list of its rows in
    insertion order. *)

From Stdlib Require Import ZArith Ascii String Lia.
From stdpp Require Import gmap strings list fin_maps sorting.

(** ** Bytes and strings *)

Definition bytes (s : string) : list ascii := list_ascii_of_string s.
Definition str (l : list ascii) : string := string_of_list_ascii l.
Definition byteZ (c : ascii) : Z := Z.of_N (N_of_ascii c).
Definition byteOf (z : Z) : ascii := ascii_of_N (Z.to_N z).
Definition isByte (z : Z) (c : ascii) : bool := (byteZ c =? z)%Z.

(** ** Package [strings] (Go standard library) *)

Module Strings.

(** [asciiSpace]: the bytes '\t', '\n', '\v', '\f', '\r' and ' '. *)
Definition asciiSpace (c : ascii) : bool :=
  ((9 <=? byteZ c) && (byteZ c <=? 13) || (byteZ c =? 32))%Z.

(** The two-byte UTF-8 encodings of the white-space runes U+0085 and
    U+00A0 ([unicode.IsSpace] in Latin-1, above ASCII). *)
Definition space2 (c1 c2 : ascii) : bool :=
  isByte 0xC2 c1 && (isByte 0x85 c2 || isByte 0xA0 c2).

(** The three-byte UTF-8 encodings of the remaining runes of Unicode's
    White_Space property: U+1680, U+2000..U+200A, U+2028, U+2029, U+202F,
    U+205F and U+3000. *)
Definition space3 (c1 c2 c3 : ascii) : bool :=
  (isByte 0xE1 c1 && isByte 0x9A c2 && isByte 0x80 c3)
  || (isByte 0xE2 c1 && isByte 0x80 c2 &&
      ((0x80 <=? byteZ c3) && (byteZ c3 <=? 0x8A)
       || isByte 0xA8 c3 || isByte 0xA9 c3 || isByte 0xAF c3))%Z
  || (isByte 0xE2 c1 && isByte 0x81 c2 && isByte 0x9F c3)
  || (isByte 0xE3 c1 && isByte 0x80 c2 && isByte 0x80 c3).

(** [TrimLeftFunc(s, unicode.IsSpace)]: runes are decoded from the front;
    a byte sequence that is not the encoding of a white-space rune stops
    the scan. *)
Fixpoint trimLeftSpace (l : list ascii) : list ascii :=
  match l with
  | [] => []
  | c1 :: l1 =>
      if asciiSpace c1 then trimLeftSpace l1 else
      match l1 with
      | [] => l
      | c2 :: l2 =>
          if space2 c1 c2 then trimLeftSpace l2 else
          match l2 with
          | [] => l
          | c3 :: l3 => if space3 c1 c2 c3 then trimLeftSpace l3 else l
          end
      end
  end.

(** [TrimRightFunc(s, unicode.IsSpace)], on the reversed byte sequence:
    [utf8.DecodeLastRuneInString] accepts a rune exactly when the string
    ends with its encoding. *)
Fixpoint trimLeftSpaceRev (l : list ascii) : list ascii :=
  match l with
  | [] => []
  | c1 :: l1 =>
      if asciiSpace c1 then trimLeftSpaceRev l1 else
      match l1 with
      | [] => l
      | c2 :: l2 =>
          if space2 c2 c1 then trimLeftSpaceRev l2 else
          match l2 with
          | [] => l
          | c3 :: l3 => if space3 c3 c2 c1 then trimLeftSpaceRev l3 else l
          end
      end
  end.

Definition trimRightSpace (l : list ascii) : list ascii :=
  rev (trimLeftSpaceRev (rev l)).

(** [strings.TrimSpace]: all leading and trailing white space, as defined
    by Unicode, removed. *)
Definition TrimSpace (s : string) : string :=
  str (trimRightSpace (trimLeftSpace (bytes s))).

Fixpoint trimLeftByte (b : ascii) (l : list ascii) : list ascii :=
  match l with
  | [] => []
  | c :: l' => if bool_decide (c = b) then trimLeftByte b l' else l
  end.

(** [strings.TrimLeft(s, cutset)] for a cutset of one ASCII byte. *)
Definition TrimLeft (s : string) (cut : ascii) : string :=
  str (trimLeftByte cut (bytes s)).

(** [strings.Join]. *)
Fixpoint Join (elems : list string) (sep : string) : string :=
  match elems with
  | [] => ""
  | [e] => e
  | e :: es => e +:+ sep +:+ Join es sep
  end.

End Strings.

(** ** Package [path/filepath] (Go standard library, Unix: the separator is
    the slash and there are no volume names) *)

Module Filepath.

Definition Separator : ascii := "/"%char.
Definition IsPathSeparator (c : ascii) : bool := bool_decide (c = Separator).

(** On Unix [ToSlash] is the identity. *)
Definition ToSlash (s : string) : string := s.

(** The backward scan of [Ext]: [acc] is the part of the path to the right
    of the byte under inspection. *)
Fixpoint extScan (rl acc : list ascii) : list ascii :=
  match rl with
  | [] => []
  | c :: rl' =>
      if IsPathSeparator c then []
      else if bool_decide (c = "."%char) then c :: acc
      else extScan rl' (c :: acc)
  end.

(** [filepath.Ext]: the suffix beginning at the final dot in the final
    element of the path; empty if there is no dot. *)
Definition Ext (path : string) : string :=
  str (extScan (rev (bytes path)) []).

Fixpoint lastElem (rl acc : list ascii) : list ascii :=
  match rl with
  | [] => acc
  | c :: rl' => if IsPathSeparator c then acc else lastElem rl' (c :: acc)
  end.

(** [filepath.Base]: the last element of the path, trailing separators
    removed first. *)
Definition Base (path : string) : string :=
  match path with
  | "" => "."
  | _ =>
      match lastElem (Strings.trimLeftByte Separator (rev (bytes path))) [] with
      | [] => "/"
      | l => str l
      end
  end.

(** The elements of a path between its separators. *)
Fixpoint splitElems (l cur : list ascii) : list (list ascii) :=
  match l with
  | [] => [rev cur]
  | c :: l' =>
      if IsPathSeparator c then rev cur :: splitElems l' []
      else splitElems l' (c :: cur)
  end.

(** One step of [Clean]'s loop. [out] holds the elements written so far,
    last first; [dd] counts the leading ".." elements of the output, past
    which a ".." may not backtrack. *)
Definition cleanStep (rooted : bool) (st : nat * list (list ascii))
    (e : list ascii) : nat * list (list ascii) :=
  let '(dd, out) := st in
  if bool_decide (e = []) then st
  else if bool_decide (e = ["."%char]) then st
  else if bool_decide (e = ["."%char; "."%char]) then
    match out with
    | _ :: out' => (dd, out')
    | [] => if rooted then st else (S dd, [])
    end
  else (dd, e :: out).

Fixpoint joinElems (es : list (list ascii)) : list ascii :=
  match es with
  | [] => []
  | [e] => e
  | e :: es' => e ++ Separator :: joinElems es'
  end.

(** [filepath.Clean]: the shortest path name equivalent to [path] by purely
    lexical processing. *)
Definition Clean (path : string) : string :=
  match bytes path with
  | [] => "."
  | (c :: _) as l =>
      let rooted := IsPathSeparator c in
      let '(dd, out) := foldl (cleanStep rooted) (0%nat, []) (splitElems l []) in
      let body := joinElems (replicate dd ["."%char; "."%char] ++ rev out) in
      if rooted then str (Separator :: body)
      else match body with [] => "." | _ => str body end
  end.

(** [filepath.Join]: the non-empty elements joined by the separator, then
    cleaned; empty when every element is empty. *)
Definition Join (elems : list string) : string :=
  match filter (λ e, e ≠ "") elems with
  | [] => ""
  | es => Clean (Strings.Join es "/")
  end.

End Filepath.

(** ** Package [crypto/sha256] and [encoding/hex] (Go standard library) *)

Module Sha256.
Local Open Scope Z_scope.

Definition w32 (x : Z) : Z := x mod 2 ^ 32.
Definition add32 (x y : Z) : Z := w32 (x + y).
Definition rotr (n x : Z) : Z :=
  Z.lor (Z.shiftr x n) (w32 (Z.shiftl x (32 - n))).
Definition not32 (x : Z) : Z := Z.lxor x 0xFFFFFFFF.

Definition Ch (x y z : Z) : Z := Z.lxor (Z.land x y) (Z.land (not32 x) z).
Definition Maj (x y z : Z) : Z :=
  Z.lxor (Z.lxor (Z.land x y) (Z.land x z)) (Z.land y z).
Definition bigSigma0 (x : Z) : Z :=
  Z.lxor (Z.lxor (rotr 2 x) (rotr 13 x)) (rotr 22 x).
Definition bigSigma1 (x : Z) : Z :=
  Z.lxor (Z.lxor (rotr 6 x) (rotr 11 x)) (rotr 25 x).
Definition sigma0 (x : Z) : Z :=
  Z.lxor (Z.lxor (rotr 7 x) (rotr 18 x)) (Z.shiftr x 3).
Definition sigma1 (x : Z) : Z :=
  Z.lxor (Z.lxor (rotr 17 x) (rotr 19 x)) (Z.shiftr x 10).

(** The primes among the numbers from [n] on, [fuel] of them inspected;
    [ps] holds the primes below [n], largest first. *)
Fixpoint primesFrom (fuel : nat) (n : Z) (ps : list Z) : list Z :=
  match fuel with
  | O => rev ps
  | S fuel' =>
      if forallb (λ p, negb (n mod p =? 0)) ps
      then primesFrom fuel' (n + 1) (n :: ps)
      else primesFrom fuel' (n + 1) ps
  end.

(** The first sixty-four primes: the primes up to 311. *)
Definition primes64 : list Z := primesFrom 310 2 [].

(** The largest [r] below [2 ^ bits] with [r ^ 3 <= x], bit by bit. *)
Fixpoint cubeRoot (bits : nat) (x r : Z) : Z :=
  match bits with
  | O => r
  | S bits' =>
      let r' := r + 2 ^ Z.of_nat bits' in
      cubeRoot bits' x (if r' * r' * r' <=? x then r' else r)
  end.

(** The round constants: the first thirty-two bits of the fractional parts
    of the cube roots of the first sixty-four primes. *)
Definition K : list Z :=
  map (λ p, w32 (cubeRoot 36 (p * 2 ^ 96) 0)) primes64.

(** Big-endian encoding of [x] on [n] bytes. *)
Fixpoint bigEndian (n : nat) (x : Z) : list Z :=
  match n with
  | O => []
  | S n' => (Z.shiftr x (8 * Z.of_nat n')) mod 256 :: bigEndian n' x
  end.

(** The message followed by the byte 0x80, zero bytes up to 56 modulo 64,
    and the length of the message in bits on eight bytes. *)
Definition pad (msg : list Z) : list Z :=
  let len := Z.of_nat (length msg) in
  let zeros := Z.to_nat ((55 - len) mod 64) in
  msg ++ 0x80 :: replicate zeros 0 ++ bigEndian 8 (8 * len).

Fixpoint words (n : nat) (bs : list Z) : list Z :=
  match n, bs with
  | S n', b0 :: b1 :: b2 :: b3 :: bs' =>
      (b0 * 2 ^ 24 + b1 * 2 ^ 16 + b2 * 2 ^ 8 + b3) :: words n' bs'
  | _, _ => []
  end.

Definition nthZ (l : list Z) (i : nat) : Z := nth i l 0.

(** The message schedule: [w] holds the words computed so far, latest
    first. *)
Fixpoint schedule (n : nat) (w : list Z) : list Z :=
  match n with
  | O => w
  | S n' =>
      let x := add32 (add32 (sigma1 (nthZ w 1)) (nthZ w 6))
                     (add32 (sigma0 (nthZ w 14)) (nthZ w 15)) in
      schedule n' (x :: w)
  end.

Definition state : Type := Z * Z * Z * Z * Z * Z * Z * Z.

(** The initial hash value: the first thirty-two bits of the fractional
    parts of the square roots of the first eight primes. *)
Definition H0 : state :=
  let h (p : Z) := w32 (Z.sqrt (p * 2 ^ 64)) in
  (h 2, h 3, h 5, h 7, h 11, h 13, h 17, h 19).

Definition round (s : state) (kw : Z * Z) : state :=
  let '(a, b, c, d, e, f, g, h) := s in
  let t1 := add32 (add32 (add32 h (bigSigma1 e)) (add32 (Ch e f g) kw.1)) kw.2 in
  let t2 := add32 (bigSigma0 a) (Maj a b c) in
  (add32 t1 t2, a, b, c, add32 d t1, e, f, g).

Definition block (s : state) (blk : list Z) : state :=
  let w := rev (schedule 48 (rev (words 16 blk))) in
  let '(a, b, c, d, e, f, g, h) := foldl round s (zip K w) in
  let '(a0, b0, c0, d0, e0, f0, g0, h0) := s in
  (add32 a0 a, add32 b0 b, add32 c0 c, add32 d0 d,
   add32 e0 e, add32 f0 f, add32 g0 g, add32 h0 h).

Fixpoint blocks (n : nat) (s : state) (bs : list Z) : state :=
  match n with
  | O => s
  | S n' => blocks n' (block s (take 64 bs)) (drop 64 bs)
  end.

(** [sha256.Sum256]: the 32 bytes of the digest. *)
Definition Sum256 (data : list Z) : list Z :=
  let p := pad data in
  let '(a, b, c, d, e, f, g, h) :=
    blocks (Nat.div (length p) 64) H0 p in
  concat (map (bigEndian 4) [a; b; c; d; e; f; g; h]).

Definition hexDigit (d : Z) : ascii :=
  if d <? 10 then byteOf (48 + d) else byteOf (87 + d).

(** [hex.EncodeToString]: two lower-case hexadecimal digits per byte. *)
Definition EncodeToString (bs : list Z) : string :=
  str (concat (map (λ b, [hexDigit (b / 16); hexDigit (b mod 16)]) bs)).

End Sha256.

(** [hashBytes] (history.go, line 304). *)
Definition hashBytes (data : string) : string :=
  Sha256.EncodeToString (Sha256.Sum256 (map byteZ (bytes data))).

(** [HashString] (history.go, line 337). *)
Definition HashString (content : string) : string := hashBytes content.

(** ** Package [time] (Go standard library): the part of [time.Parse] and
    [Time.Format] that the three layouts of [parseSQLiteTimestamp] use *)

Module Time.
Local Open Scope Z_scope.

(** A [time.Time]: the civil date and time of day in the time's own zone,
    and the offset of that zone in seconds east of UTC. *)
Record Time : Type := mkTime {
  year : Z; month : Z; day : Z;
  hour : Z; minute : Z; second : Z; nsec : Z;
  offset : Z
}.

Global Instance Time_eq_dec : EqDecision Time.
Proof. solve_decision. Defined.

(** The zero value [time.Time{}]: January 1, year 1, 00:00:00 UTC. *)
Definition zero : Time := mkTime 1 1 1 0 0 0 0 0.

Definition isLeap (y : Z) : bool :=
  (y mod 4 =? 0) && (negb (y mod 100 =? 0) || (y mod 400 =? 0)).

Definition daysBefore : list Z :=
  [0; 31; 59; 90; 120; 151; 181; 212; 243; 273; 304; 334; 365].

Definition daysBeforeMonth (m : Z) : Z := nth (Z.to_nat m) daysBefore 0.

Definition daysIn (m y : Z) : Z :=
  if (m =? 2) && isLeap y then 29
  else daysBeforeMonth m - daysBeforeMonth (m - 1).

(** Days from January 1 of year 1 to January 1 of year [y]. *)
Definition daysSinceEpoch (y : Z) : Z :=
  365 * (y - 1) + (y - 1) / 4 - (y - 1) / 100 + (y - 1) / 400.

(** The instant of [t], in seconds since January 1, year 1, 00:00:00 UTC
    (what [time.Date] computes from the civil fields and the zone). *)
Definition absSec (t : Time) : Z :=
  let d := daysSinceEpoch (year t) + daysBeforeMonth (month t - 1)
           + (if isLeap (year t) && (3 <=? month t) then 1 else 0)
           + (day t - 1) in
  d * 86400 + hour t * 3600 + minute t * 60 + second t - offset t.

(** [Time.Equal] and [Time.After] compare instants. *)
Definition Equal (t u : Time) : bool :=
  (absSec t =? absSec u) && (nsec t =? nsec u).
Definition After (t u : Time) : bool :=
  (absSec u <? absSec t) || ((absSec t =? absSec u) && (nsec u <? nsec t)).

(** *** Layouts *)

(** The pieces [nextStdChunk] cuts a layout into: literal text and the
    reference-time elements. *)
Inductive chunk : Type :=
| lit (text : string)
| stdLongYear          (* 2006 *)
| stdZeroMonth         (* 01 *)
| stdZeroDay           (* 02 *)
| stdHour              (* 15 *)
| stdZeroMinute        (* 04 *)
| stdZeroSecond        (* 05 *)
| stdFracSecond9       (* .999999999 *)
| stdISO8601ColonTZ.   (* Z07:00 *)

Definition dateChunks (sep : string) : list chunk :=
  [stdLongYear; lit "-"; stdZeroMonth; lit "-"; stdZeroDay; lit sep;
   stdHour; lit ":"; stdZeroMinute; lit ":"; stdZeroSecond].

(** [time.RFC3339Nano], "2006-01-02T15:04:05.999999999Z07:00". *)
Definition RFC3339Nano : list chunk :=
  dateChunks "T" ++ [stdFracSecond9; stdISO8601ColonTZ].
(** "2006-01-02 15:04:05Z07:00". *)
Definition layoutSpaceZone : list chunk :=
  dateChunks " " ++ [stdISO8601ColonTZ].
(** "2006-01-02 15:04:05". *)
Definition layoutSpace : list chunk := dateChunks " ".

(** *** Parsing *)

Definition isDigitB (c : ascii) : bool := (48 <=? byteZ c) && (byteZ c <=? 57).
Definition digitVal (c : ascii) : Z := byteZ c - 48.
Definition isSpaceB (c : ascii) : bool := bool_decide (c = " "%char).
Definition commaOrPeriod (c : ascii) : bool :=
  bool_decide (c = "."%char) || bool_decide (c = ","%char).

Definition cutspace (l : list ascii) : list ascii :=
  Strings.trimLeftByte " "%char l.

(** [skip]: the literal text of the layout must lead the value; a run of
    spaces in the layout matches any run of spaces in the value.
    [inSpaces] tells that the layout byte before was a space. *)
Fixpoint skip (inSpaces : bool) (prefix value : list ascii) : option (list ascii) :=
  match prefix with
  | [] => Some value
  | c :: prefix' =>
      if isSpaceB c then
        if inSpaces then skip true prefix' value
        else match value with
             | v :: _ => if isSpaceB v then skip true prefix' (cutspace value) else None
             | [] => skip true prefix' []
             end
      else match value with
           | v :: value' => if bool_decide (v = c) then skip false prefix' value' else None
           | [] => None
           end
  end.

(** [getnum]: one or two digits; two when [fixed]. *)
Definition getnum (s : list ascii) (fixed : bool) : option (Z * list ascii) :=
  match s with
  | c0 :: s1 =>
      if isDigitB c0 then
        match s1 with
        | c1 :: s2 =>
            if isDigitB c1 then Some (digitVal c0 * 10 + digitVal c1, s2)
            else if fixed then None else Some (digitVal c0, s1)
        | [] => if fixed then None else Some (digitVal c0, s1)
        end
      else None
  | [] => None
  end.

(** [leadingInt]: the leading digits as a number, and what follows them;
    fails when the number overflows 63 bits. *)
Fixpoint leadingInt (x : Z) (s : list ascii) : option (Z * list ascii) :=
  match s with
  | c :: s' =>
      if isDigitB c then
        if 2 ^ 63 / 10 <? x then None
        else let x' := x * 10 + digitVal c in
             if 2 ^ 63 <? x' then None else leadingInt x' s'
      else Some (x, s)
  | [] => Some (x, s)
  end.

(** [atoi]: an optional sign and digits, nothing else. *)
Definition atoi (s : list ascii) : option Z :=
  let '(neg, s1) :=
    match s with
    | c :: s' =>
        if bool_decide (c = "-"%char) then (true, s')
        else if bool_decide (c = "+"%char) then (false, s')
        else (false, s)
    | [] => (false, s)
    end in
  match leadingInt 0 s1 with
  | Some (q, []) => Some (if neg then - q else q)
  | _ => None
  end.

(** [parseNanoseconds]: [value] starts with the separator; the first
    [nbytes] bytes are the separator and the digits. *)
Definition parseNanoseconds (value : list ascii) (nbytes : nat) : option Z :=
  match value with
  | c :: _ =>
      if commaOrPeriod c then
        let nbytes := Nat.min nbytes 10 in
        match atoi (drop 1 (take nbytes value)) with
        | Some ns => if ns <? 0 then None else Some (ns * 10 ^ Z.of_nat (10 - nbytes))
        | None => None
        end
      else None
  | [] => None
  end.

(** The number of leading digits of [l]. *)
Fixpoint digitRun (l : list ascii) : nat :=
  match l with
  | c :: l' => if isDigitB c then S (digitRun l') else O
  | [] => O
  end.

(** The fields [parse] collects; [pzone] is the zone offset when the value
    carried one ("Z" is offset zero). *)
Record fields : Type := mkFields {
  pyear : Z; pmonth : Z; pday : Z;
  phour : Z; pmin : Z; psec : Z; pnsec : Z;
  pzone : option Z
}.

Definition fields0 : fields := mkFields 0 1 1 0 0 0 0 None.

Definition setYear (v : Z) (f : fields) : fields :=
  mkFields v (pmonth f) (pday f) (phour f) (pmin f) (psec f) (pnsec f) (pzone f).
Definition setMonth (v : Z) (f : fields) : fields :=
  mkFields (pyear f) v (pday f) (phour f) (pmin f) (psec f) (pnsec f) (pzone f).
Definition setDay (v : Z) (f : fields) : fields :=
  mkFields (pyear f) (pmonth f) v (phour f) (pmin f) (psec f) (pnsec f) (pzone f).
Definition setHour (v : Z) (f : fields) : fields :=
  mkFields (pyear f) (pmonth f) (pday f) v (pmin f) (psec f) (pnsec f) (pzone f).
Definition setMin (v : Z) (f : fields) : fields :=
  mkFields (pyear f) (pmonth f) (pday f) (phour f) v (psec f) (pnsec f) (pzone f).
Definition setSec (v : Z) (f : fields) : fields :=
  mkFields (pyear f) (pmonth f) (pday f) (phour f) (pmin f) v (pnsec f) (pzone f).
Definition setNsec (v : Z) (f : fields) : fields :=
  mkFields (pyear f) (pmonth f) (pday f) (phour f) (pmin f) (psec f) v (pzone f).
Definition setZone (v : Z) (f : fields) : fields :=
  mkFields (pyear f) (pmonth f) (pday f) (phour f) (pmin f) (psec f) (pnsec f) (Some v).

Definition inRange (lo x hi : Z) : bool := (lo <=? x) && (x <? hi).

(** A fraction starts the value: a separator followed by a digit. *)
Definition startsFraction (value : list ascii) : bool :=
  match value with
  | c0 :: c1 :: _ => commaOrPeriod c0 && isDigitB c1
  | _ => false
  end.

(** The next reference-time element of the rest of the layout. *)
Fixpoint nextStd (layout : list chunk) : option chunk :=
  match layout with
  | [] => None
  | lit _ :: layout' => nextStd layout'
  | c :: _ => Some c
  end.

(** One case of the [switch std & stdMask] of [parse]. [rest] is the
    layout after this element. *)
Definition parseStd (c : chunk) (rest : list chunk) (f : fields)
    (value : list ascii) : option (fields * list ascii) :=
  match c with
  | lit _ => None
  | stdLongYear =>
      match value with
      | c0 :: _ =>
          if (4 <=? length value)%nat && isDigitB c0 then
            y ← atoi (take 4 value);
            Some (setYear y f, drop 4 value)
          else None
      | [] => None
      end
  | stdZeroMonth =>
      '(m, v) ← getnum value true;
      if inRange 1 m 13 then Some (setMonth m f, v) else None
  | stdZeroDay =>
      '(d, v) ← getnum value true;
      Some (setDay d f, v)
  | stdHour =>
      '(h, v) ← getnum value false;
      if inRange 0 h 24 then Some (setHour h f, v) else None
  | stdZeroMinute =>
      '(m, v) ← getnum value true;
      if inRange 0 m 60 then Some (setMin m f, v) else None
  | stdZeroSecond =>
      '(s, v) ← getnum value true;
      if inRange 0 s 60 then
        let f := setSec s f in
        if startsFraction v then
          match nextStd rest with
          | Some stdFracSecond9 => Some (f, v)
          | _ =>
              let n := S (digitRun (drop 1 v)) in
              ns ← parseNanoseconds v n;
              Some (setNsec ns f, drop n v)
          end
        else Some (f, v)
      else None
  | stdFracSecond9 =>
      if startsFraction value then
        let n := S (digitRun (drop 1 value)) in
        ns ← parseNanoseconds value n;
        Some (setNsec ns f, drop n value)
      else Some (f, value)
  | stdISO8601ColonTZ =>
      match value with
      | c0 :: v1 =>
          if bool_decide (c0 = "Z"%char) then Some (setZone 0 f, v1)
          else
            if (length value <? 6)%nat then None
            else if negb (bool_decide (value !! 3%nat = Some ":"%char)) then None
            else
              '(hr, _) ← getnum (take 2 v1) true;
              '(mm, _) ← getnum (take 2 (drop 4 value)) true;
              if (24 <? hr) || (60 <? mm) then None
              else
                let off := (hr * 60 + mm) * 60 in
                if bool_decide (c0 = "+"%char) then
                  Some (setZone off f, drop 6 value)
                else if bool_decide (c0 = "-"%char) then
                  Some (setZone (- off) f, drop 6 value)
                else None
      | [] => None
      end
  end.

(** The loop of [parse]: literal text is skipped, each element is read,
    and no text may remain when the layout is exhausted. *)
Fixpoint parseLoop (layout : list chunk) (f : fields) (value : list ascii)
    : option fields :=
  match layout with
  | [] => match value with [] => Some f | _ => None end
  | lit p :: layout' =>
      v ← skip false (bytes p) value;
      parseLoop layout' f v
  | c :: layout' =>
      '(f', v) ← parseStd c layout' f value;
      parseLoop layout' f' v
  end.

(** [time.Parse]: [None] stands for a parse error. Without a zone in the
    value the time is in UTC. *)
Definition Parse (layout : list chunk) (value : string) : option Time :=
  f ← parseLoop layout fields0 (bytes value);
  if (pday f <? 1) || (daysIn (pmonth f) (pyear f) <? pday f) then None
  else Some (mkTime (pyear f) (pmonth f) (pday f) (phour f) (pmin f) (psec f)
                    (pnsec f) (default 0 (pzone f))).

(** *** Formatting *)

Definition digitChar (d : Z) : ascii := byteOf (48 + d).

(** The decimal digits of [x], least significant first. *)
Fixpoint decimalRev (fuel : nat) (x : Z) : list ascii :=
  match fuel with
  | O => []
  | S fuel' =>
      digitChar (x mod 10) ::
      (if x <? 10 then [] else decimalRev fuel' (x / 10))
  end.

(** [appendInt] for a non-negative [x]: its decimal digits, padded with
    zeros on the left to [width]. *)
Definition appendInt (x : Z) (width : nat) : list ascii :=
  let ds := rev (decimalRev 20 x) in
  replicate (width - length ds) "0"%char ++ ds.

Definition trimZerosRight (l : list ascii) : list ascii :=
  rev (Strings.trimLeftByte "0"%char (rev l)).

(** [appendNano] for the element ".999999999": nothing when there are no
    nanoseconds, otherwise nine digits without their trailing zeros. *)
Definition appendNano (ns : Z) : list ascii :=
  if ns =? 0 then []
  else trimZerosRight ("."%char :: appendInt ns 9).

Definition formatStd (c : chunk) (t : Time) : list ascii :=
  match c with
  | lit s => bytes s
  | stdLongYear => appendInt (year t) 4
  | stdZeroMonth => appendInt (month t) 2
  | stdZeroDay => appendInt (day t) 2
  | stdHour => appendInt (hour t) 2
  | stdZeroMinute => appendInt (minute t) 2
  | stdZeroSecond => appendInt (second t) 2
  | stdFracSecond9 => appendNano (nsec t)
  | stdISO8601ColonTZ =>
      if offset t =? 0 then ["Z"%char]
      else
        let zone := Z.quot (offset t) 60 in
        let '(sign, zone) :=
          if zone <? 0 then ("-"%char, - zone) else ("+"%char, zone) in
        sign :: appendInt (Z.quot zone 60) 2 ++ ":"%char :: appendInt (Z.rem zone 60) 2
  end.

(** [Time.Format]. *)
Definition Format (t : Time) (layout : list chunk) : string :=
  str (concat (map (λ c, formatStd c t) layout)).

End Time.

(** [parseSQLiteTimestamp] (history.go, line 341): the first layout that
    parses the stored text gives the time; the zero time otherwise. *)
Definition timestampLayouts : list (list Time.chunk) :=
  [Time.RFC3339Nano; Time.layoutSpaceZone; Time.layoutSpace].

Fixpoint firstParse (layouts : list (list Time.chunk)) (value : string) : Time.Time :=
  match layouts with
  | [] => Time.zero
  | layout :: layouts' =>
      match Time.Parse layout value with
      | Some ts => ts
      | None => firstParse layouts' value
      end
  end.

Definition parseSQLiteTimestamp (value : string) : Time.Time :=
  if bool_decide (value = "") then Time.zero
  else firstParse timestampLayouts value.

(** ** The data model (history.go, lines 16-41) *)

Inductive FileHistoryStatus : Type :=
| FileStatusCreated
| FileStatusModified
| FileStatusDeleted
| FileStatusMoved.

Global Instance FileHistoryStatus_eq_dec : EqDecision FileHistoryStatus.
Proof. solve_decision. Defined.

Record FileHistorySnapshot : Type := mkSnapshot {
  Path : string;
  Hash : string;
  Content : string;
  Status : FileHistoryStatus;
  PreviousPath : option string
}.

Global Instance FileHistorySnapshot_eq_dec : EqDecision FileHistorySnapshot.
Proof. solve_decision. Defined.

Record FileHistoryEntry : Type := mkEntry {
  ID : Z;
  EntryPath : string;
  EntryHash : string;
  EntryContent : string;
  EntryStatus : FileHistoryStatus;
  EntryPreviousPath : option string;
  RecordedAt : Time.Time
}.

Global Instance FileHistoryEntry_eq_dec : EqDecision FileHistoryEntry.
Proof. solve_decision. Defined.

Record fileRecord : Type := mkFileRecord {
  FileHash : string;
  FileContent : string
}.

(** ** The store: the [file_history] table *)

(** One row of [file_history], with the columns of the INSERT and SELECT
    statements of history.go; [previous_path] is nullable. *)
Record Row : Type := mkRow {
  id : Z;
  path : string;
  hash : string;
  content : string;
  status : FileHistoryStatus;
  previous_path : option string;
  recorded_at : string
}.

Global Instance Row_eq_dec : EqDecision Row.
Proof. solve_decision. Defined.

(** An index whose [db] is [None] has a nil connection. A connection that
    is open is taken to serve every statement. *)
Record SQLiteIndex : Type := mkIndex { db : option (list Row) }.

Inductive error : Type :=
| ErrConnDone
| ErrNotExist
| ErrPermission
| ErrIO
| ErrNoProgress.

Global Instance error_eq_dec : EqDecision error.
Proof. solve_decision. Defined.

(** Modelled from the spec: the table's schema is not part of the sources.
    [id] is an autoincrement key, "monotonic sequence number, assigned by the
    store": one more than the largest id of the table, rows being never
    deleted. *)
Definition nextID (rows : list Row) : Z := (1 + foldr Z.max 0 (id <$> rows))%Z.

(** [insertHistoryEntry] (history.go, line 168). Modelled from the spec:
    [recorded_at] is "store-assigned"; [clock i] is the text the store's
    clock gives to the row of id [i]. *)
Definition insertHistoryEntry (clock : Z → string) (rows : list Row)
    (path hash content : string) (status : FileHistoryStatus)
    (previousPath : option string) : list Row :=
  let i := nextID rows in
  rows ++ [mkRow i path hash content status previousPath (clock i)].

(** The common table expression of [latestFileSnapshots]:
    SELECT MAX(id) AS id, path FROM file_history GROUP BY path. *)
Definition maxIdPerPath (rows : list Row) : list (Z * string) :=
  (λ p, let ids := id <$> filter (λ r, path r = p) rows in
        (foldr Z.max (hd 0%Z ids) ids, p)) <$> remove_dups (path <$> rows).

(** SELECT ... FROM file_history fh JOIN latest l ON fh.id = l.id. *)
Definition joinLatest (rows : list Row) : list Row :=
  r ← rows; l ← maxIdPerPath rows;
  if bool_decide (id r = l.1) then [r] else [].

Definition snapshotOfRow (r : Row) : FileHistorySnapshot :=
  mkSnapshot (path r) (hash r) (content r) (status r) (previous_path r).

(** [latestFileSnapshots] (history.go, line 134). *)
Definition latestFileSnapshots (rows : list Row) : gmap string FileHistorySnapshot :=
  foldl (λ snapshots r, <[path r := snapshotOfRow r]> snapshots) ∅ (joinLatest rows).

(** ** The content scanner *)

(** What lies under a name of the file system: a file whose read gives
    [data] or fails, or a directory with the entries [os.ReadDir] returns,
    in name order, and whether it reports an error with them. *)
#[local] Unset Elimination Schemes.
Inductive node : Type :=
| File (data : option string)
| Dir (entries : list (string * node)) (readErr : bool).
#[local] Set Elimination Schemes.

(** The root as [os.Lstat] sees it. *)
Inductive fsRoot : Type :=
| Missing (e : error)
| Present (name : string) (n : node).

Inductive walkResult : Type :=
| SkipDir
| SkipAll
| Failed (e : error).

Section WalkDir.
Context {St : Type}.
(** The callback: the path relative to the root, as its elements; the
    entry, [None] when [os.Lstat] of the root failed; whether an error is
    reported; the state. It returns [None] for a nil error. *)
Variable fn : list string → option (string * node) → bool → St → St * option walkResult.

Definition endDir (r : option walkResult) : option walkResult :=
  match r with
  | Some SkipDir => None
  | _ => r
  end.

(** [walkDir] of path/filepath. *)
Fixpoint walkDir (rel : list string) (name : string) (n : node) (st : St)
    {struct n} : St * option walkResult :=
  let '(st1, r1) := fn rel (Some (name, n)) false st in
  match n with
  | File _ => (st1, r1)
  | Dir entries readErr =>
      match r1 with
      | Some _ => (st1, endDir r1)
      | None =>
          let '(st2, r2) :=
            if readErr then fn rel (Some (name, n)) true st1 else (st1, None) in
          match r2 with
          | Some _ => (st2, endDir r2)
          | None =>
              (fix children (es : list (string * node)) (st : St)
                 : St * option walkResult :=
                 match es with
                 | [] => (st, None)
                 | (name1, n1) :: es' =>
                     let '(st', r) := walkDir (rel ++ [name1]) name1 n1 st in
                     match r with
                     | None => children es' st'
                     | Some SkipDir => (st', None)
                     | Some _ => (st', r)
                     end
                 end) entries st2
          end
      end
  end.

(** [filepath.WalkDir]. *)
Definition WalkDir (root : fsRoot) (st : St) : St * option error :=
  let '(st', r) :=
    match root with
    | Missing _ => fn [] None true st
    | Present name n => walkDir [] name n st
    end in
  (st', match r with Some (Failed e) => Some e | _ => None end).
End WalkDir.

(** [filepath.ToSlash(rel)] for the path [rel] of [filepath.Rel(dataDir, p)],
    [p] being the root joined with the elements [elems]. *)
Definition relPathOf (elems : list string) : string :=
  match elems with
  | [] => "."
  | _ => Filepath.ToSlash (Strings.Join elems "/")
  end.

(** The callback of [scanMarkdownFiles] (history.go, lines 264-291). *)
Definition scanEntry (rel : list string) (d : option (string * node)) (err : bool)
    (current : gmap string fileRecord) : gmap string fileRecord * option walkResult :=
  if err then (current, None)
  else match d with
       | Some (name, File data) =>
           if bool_decide (Filepath.Ext name ≠ ".md") then (current, None)
           else match data with
                | None => (current, None)
                | Some content =>
                    (<[relPathOf rel := mkFileRecord (hashBytes content) content]> current,
                     None)
                end
       | _ => (current, None)
       end.

(** [scanMarkdownFiles] (history.go, line 261). *)
Definition scanMarkdownFiles (dataDir : fsRoot) : gmap string fileRecord * option error :=
  let '(current, err) := WalkDir scanEntry dataDir ∅ in
  if bool_decide (err = Some ErrNotExist) then (current, None)
  else (current, err).

(** [movementKey] (history.go, line 300). *)
Definition movementKey (hash relPath : string) : string :=
  hash +:+ "|" +:+ Filepath.Base relPath.

(** ** The reconciler *)

(** Go does not specify the order in which [range] visits a map. The orders
    of the three order-sensitive loops of [CaptureFileHistory] are
    arguments of the model: each lists the keys in visiting order. *)
Record rangeOrders : Type := mkOrders {
  ordLatest : list string;
  ordCurrent : list string;
  ordMissing : list string
}.

(** [for k, v := range m { body }], visiting the keys in the order [ord]. *)
Definition rangeMap {V St : Type} (ord : list string) (m : gmap string V)
    (body : string → V → St → St) (st : St) : St :=
  foldl (λ st k, match m !! k with Some v => body k v st | None => st end) st ord.

(** [ord] is an order in which [range] can visit [m]: every key, once.
    (Names that are not keys are passed over by [rangeMap].) *)
Definition rangeOrder {V : Type} (ord : list string) (m : gmap string V) : Prop :=
  NoDup ord ∧ ∀ k, is_Some (m !! k) → k ∈ ord.

(** The first loop (lines 60-65): a set is built, whatever the order. *)
Definition aliasPathsOf (latest : gmap string FileHistorySnapshot) : gset string :=
  list_to_set (omap (λ kv, PreviousPath kv.2) (map_to_list latest)).

Record passState : Type := mkPass {
  moveCandidates : gmap string (list FileHistorySnapshot);
  missing : gmap string FileHistorySnapshot;
  rows : list Row
}.

(** The body of the second loop (lines 69-80). *)
Definition collectMissing (aliasPaths : gset string)
    (currentFiles : gmap string fileRecord)
    (path : string) (snap : FileHistorySnapshot) (st : passState) : passState :=
  if bool_decide (path ∈ aliasPaths) then st
  else match currentFiles !! path with
       | Some _ => st
       | None =>
           let missing' := <[path := snap]> (missing st) in
           if bool_decide (Status snap ≠ FileStatusDeleted) then
             let key := movementKey (Hash snap) path in
             mkPass (<[key := default [] (moveCandidates st !! key) ++ [snap]]>
                       (moveCandidates st))
                    missing' (rows st)
           else mkPass (moveCandidates st) missing' (rows st)
       end.

(** The body of the third loop (lines 82-119). *)
Definition classifyCurrent (clock : Z → string)
    (latest : gmap string FileHistorySnapshot)
    (relPath : string) (file : fileRecord) (st : passState) : passState :=
  let hash := FileHash file in
  let content := FileContent file in
  let insert status prev :=
    insertHistoryEntry clock (rows st) relPath hash content status prev in
  match latest !! relPath with
  | Some snap =>
      if bool_decide (Status snap = FileStatusDeleted) then
        mkPass (moveCandidates st) (missing st) (insert FileStatusCreated None)
      else if bool_decide (Hash snap ≠ hash) then
        mkPass (moveCandidates st) (missing st) (insert FileStatusModified None)
      else st
  | None =>
      let key := movementKey hash relPath in
      match default [] (moveCandidates st !! key) with
      | prev :: snaps =>
          mkPass (<[key := snaps]> (moveCandidates st))
                 (delete (Path prev) (missing st))
                 (insert FileStatusMoved (Some (Path prev)))
      | [] =>
          mkPass (moveCandidates st) (missing st) (insert FileStatusCreated None)
      end
  end.

(** The body of the fourth loop (lines 121-129). *)
Definition recordDeleted (clock : Z → string)
    (_ : string) (snap : FileHistorySnapshot) (rows : list Row) : list Row :=
  if bool_decide (Status snap = FileStatusDeleted) then rows
  else insertHistoryEntry clock rows (Path snap) (Hash snap) (Content snap)
         FileStatusDeleted None.

(** The pass on the snapshot [currentFiles] and the table [rows0]: the table
    after the pass. *)
Definition reconcile (clock : Z → string) (ord : rangeOrders)
    (currentFiles : gmap string fileRecord) (rows0 : list Row) : list Row :=
  let latest := latestFileSnapshots rows0 in
  let aliasPaths := aliasPathsOf latest in
  let st1 := rangeMap (ordLatest ord) latest (collectMissing aliasPaths currentFiles)
               (mkPass ∅ ∅ rows0) in
  let st2 := rangeMap (ordCurrent ord) currentFiles (classifyCurrent clock latest) st1 in
  rangeMap (ordMissing ord) (missing st2) (recordDeleted clock) (rows st2).

(** [CaptureFileHistory] (history.go, line 45). *)
Definition CaptureFileHistory (clock : Z → string) (ord : rangeOrders)
    (s : SQLiteIndex) (dataDir : fsRoot) : error + SQLiteIndex :=
  match db s with
  | None => inl ErrConnDone
  | Some rows0 =>
      match scanMarkdownFiles dataDir with
      | (_, Some err) => inl err
      | (currentFiles, None) =>
          inr (mkIndex (Some (reconcile clock ord currentFiles rows0)))
      end
  end.

(** The orders in which the loops of a pass on [rows0] and [currentFiles]
    can run. *)
Definition passOrders (ord : rangeOrders) (currentFiles : gmap string fileRecord)
    (rows0 : list Row) : Prop :=
  rangeOrder (ordLatest ord) (latestFileSnapshots rows0)
  ∧ rangeOrder (ordCurrent ord) currentFiles
  ∧ rangeOrder (ordMissing ord) (latestFileSnapshots rows0).

(** ** The history resolver *)

(** [normalizeHistoryPath] (history.go, line 358). *)
Definition normalizeHistoryPath (p : string) : string :=
  let normalized := Strings.TrimSpace p in
  let normalized := Strings.TrimLeft normalized "/"%char in
  Filepath.ToSlash normalized.

(** The loop of [seedHistoryPaths] that drops empty and repeated
    candidates (lines 323-331). *)
Fixpoint uniquePaths (seen : gset string) (paths : list string) : list string :=
  match paths with
  | [] => []
  | candidate :: paths' =>
      if bool_decide (candidate = "") || bool_decide (candidate ∈ seen)
      then uniquePaths seen paths'
      else candidate :: uniquePaths ({[candidate]} ∪ seen) paths'
  end.

(** [seedHistoryPaths] (history.go, line 309). *)
Definition seedHistoryPaths (p : string) : list string :=
  let normalized := normalizeHistoryPath p in
  if bool_decide (normalized = "") then []
  else
    let paths :=
      if bool_decide (Filepath.Ext normalized = "")
      then [normalized; normalized +:+ ".md";
            Filepath.ToSlash (Filepath.Join [normalized; "index.md"])]
      else [normalized] in
    uniquePaths ∅ paths.

(** [sort.Slice]: the slice sorted by [less]. Where [less] is a strict
    total order on the elements of the slice, as in both uses below, the
    sorted slice is the same for every sorting algorithm
    ([sorted_permutation_unique]); this one inserts each element after the
    elements that are less than it. *)
Fixpoint insertBy {A : Type} (less : A → A → bool) (x : A) (l : list A) : list A :=
  match l with
  | [] => [x]
  | y :: l' => if less x y then x :: l else y :: insertBy less x l'
  end.

Definition sortSlice {A : Type} (less : A → A → bool) (l : list A) : list A :=
  foldr (insertBy less) [] l.

(** ORDER BY recorded_at DESC, id DESC: the stored text is compared byte by
    byte. *)
Definition rowLess (r1 r2 : Row) : bool :=
  match String.compare (recorded_at r1) (recorded_at r2) with
  | Gt => true
  | Eq => (id r2 <? id r1)%Z
  | Lt => false
  end.

(** The query of [GetHistoryForPath] (lines 207-212):
    WHERE path = ? OR previous_path = ? ORDER BY recorded_at DESC, id DESC. *)
Definition queryHistory (rows : list Row) (current : string) : list Row :=
  sortSlice rowLess
    (filter (λ r, path r = current ∨ previous_path r = Some current) rows).

Record walkState : Type := mkWalk {
  visited : gset string;
  queue : list string;
  seenIDs : gset Z;
  entries : list FileHistoryEntry
}.

(** The body of [for rows.Next()] (lines 217-239). *)
Definition scanRow (st : walkState) (r : Row) : walkState :=
  let queue' :=
    match previous_path r with
    | Some prev => if bool_decide (prev ∈ visited st) then queue st else queue st ++ [prev]
    | None => queue st
    end in
  let entry := mkEntry (id r) (path r) (hash r) (content r) (status r)
                 (previous_path r) (parseSQLiteTimestamp (recorded_at r)) in
  if bool_decide (id r ∈ seenIDs st) then
    mkWalk (visited st) queue' (seenIDs st) (entries st)
  else
    mkWalk (visited st) queue' ({[id r]} ∪ seenIDs st) (entries st ++ [entry]).

(** One iteration of [for len(queue) > 0] (lines 200-243): [current] is
    the head of the queue and [queue'] the rest. *)
Definition visitPath (rows : list Row) (st : walkState) (current : string)
    (queue' : list string) : walkState :=
  if bool_decide (current ∈ visited st) then
    mkWalk (visited st) queue' (seenIDs st) (entries st)
  else
    foldl scanRow
      (mkWalk ({[current]} ∪ visited st) queue' (seenIDs st) (entries st))
      (queryHistory rows current).

(** [for len(queue) > 0] (lines 199-244); [None] when [fuel] iterations do
    not empty the queue. *)
Fixpoint historyLoop (fuel : nat) (rows : list Row) (st : walkState) : option walkState :=
  match queue st with
  | [] => Some st
  | current :: queue' =>
      match fuel with
      | O => None
      | S fuel' => historyLoop fuel' rows (visitPath rows st current queue')
      end
  end.

(** The comparison of the final [sort.Slice] (lines 246-251). *)
Definition entryLess (e1 e2 : FileHistoryEntry) : bool :=
  if Time.Equal (RecordedAt e1) (RecordedAt e2) then (ID e2 <? ID e1)%Z
  else Time.After (RecordedAt e1) (RecordedAt e2).

(** A number of iterations that empties the queue ([historyLoop_terminates]):
    each path is expanded once, and an expansion queues at most one path
    per row. *)
Definition historyFuel (rows : list Row) (seeds : list string) : nat :=
  S (length seeds + S (length rows) * (length rows + length seeds)).

(** [GetHistoryForPath] (history.go, line 186). *)
Definition GetHistoryForPath (s : SQLiteIndex) (path : string)
    : error + list FileHistoryEntry :=
  match db s with
  | None => inl ErrConnDone
  | Some rows =>
      let seeds := seedHistoryPaths path in
      match historyLoop (historyFuel rows seeds) rows (mkWalk ∅ seeds ∅ []) with
      | Some st => inr (sortSlice entryLess (entries st))
      | None => inl ErrNoProgress
      end
  end.

(** The rows a pass appends to the table [rows0], given the table after
    it. *)
Definition newRows (rows0 rows1 : list Row) : list Row :=
  drop (length rows0) rows1.

(** *** The vocabulary of the pass

    [latest] is the latest-state index, [aliasPaths] the previous paths of
    its entries and [currentFiles] the snapshot. *)

(** The movement key under which the second loop files the path [p], when
    [p] is a deletion candidate: a key of [latest] that is no alias path, is
    absent from the snapshot and whose latest entry is not a deletion. *)
Definition candidateKey (latest : gmap string FileHistorySnapshot)
    (aliasPaths : gset string) (currentFiles : gmap string fileRecord)
    (p : string) : option string :=
  match latest !! p with
  | Some snap =>
      if bool_decide (p ∈ aliasPaths) then None
      else match currentFiles !! p with
           | Some _ => None
           | None =>
               if bool_decide (Status snap ≠ FileStatusDeleted)
               then Some (movementKey (Hash snap) p) else None
           end
  | None => None
  end.

(** The movement key the third loop looks up for the path [q], when [q] is
    in the snapshot and has no entry in [latest]. *)
Definition arrivalKey (latest : gmap string FileHistorySnapshot)
    (currentFiles : gmap string fileRecord) (q : string) : option string :=
  match currentFiles !! q, latest !! q with
  | Some file, None => Some (movementKey (FileHash file) q)
  | _, _ => None
  end.

(** The deletion candidates of key [key] in the order [ord] in which the
    second loop visits them, and the new paths of key [key] in the order
    [ord] in which the third loop does. *)
Definition candidatesOf (latest : gmap string FileHistorySnapshot)
    (aliasPaths : gset string) (currentFiles : gmap string fileRecord)
    (ord : list string) (key : string) : list string :=
  filter (λ p, candidateKey latest aliasPaths currentFiles p = Some key) ord.

Definition arrivalsOf (latest : gmap string FileHistorySnapshot)
    (currentFiles : gmap string fileRecord)
    (ord : list string) (key : string) : list string :=
  filter (λ q, arrivalKey latest currentFiles q = Some key) ord.

(** The state of the pass after its second loop and after its third. *)
Definition afterCollect (ord : list string) (currentFiles : gmap string fileRecord)
    (rows0 : list Row) : passState :=
  let latest := latestFileSnapshots rows0 in
  rangeMap ord latest (collectMissing (aliasPathsOf latest) currentFiles)
    (mkPass ∅ ∅ rows0).

Definition afterClassify (clock : Z → string) (ordL ordC : list string)
    (currentFiles : gmap string fileRecord) (rows0 : list Row) : passState :=
  rangeMap ordC currentFiles (classifyCurrent clock (latestFileSnapshots rows0))
    (afterCollect ordL currentFiles rows0).


(** The row the third loop inserts for the file [file] at [q] into the table
    [rs]. *)
Definition rowFor (clock : Z → string) (rs : list Row) (q : string) (file : fileRecord)
    (s : FileHistoryStatus) (prev : option string) : Row :=
  mkRow (nextID rs) q (FileHash file) (FileContent file) s prev (clock (nextID rs)).

(** *** Statements about a pass *)

(** The pass on the table [rows0] appends the rows [added] and reports no
    error. *)
Definition appends (clock : Z → string) (ord : rangeOrders) (rows0 : list Row)
    (dataDir : fsRoot) (added : list Row) : Prop :=
  CaptureFileHistory clock ord (mkIndex (Some rows0)) dataDir
  = inr (mkIndex (Some (rows0 ++ added))).

(** The snapshots of the rows of [added] whose path is [q]. *)
Definition entriesFor (q : string) (added : list Row) : list FileHistorySnapshot :=
  snapshotOfRow <$> filter (λ r, path r = q) added.

(** [added] holds no deletion of the path [p]. *)
Definition noDeletionOf (p : string) (added : list Row) : Prop :=
  Forall (λ r, ¬ (path r = p ∧ status r = FileStatusDeleted)) added.

(** [added] holds exactly one row for [q], a move from [p], and no deletion
    of [p]. *)
Definition moveRecorded (p q : string) (added : list Row) : Prop :=
  status <$> filter (λ r, path r = q) added = [FileStatusMoved]
  ∧ previous_path <$> filter (λ r, path r = q) added = [Some p]
  ∧ noDeletionOf p added.

(** *** The outcomes of a pass *)

Definition keysOf {V : Type} (m : gmap string V) : list string := (map_to_list m).*1.

(** The tables a pass on [rows0] and the snapshot [currentFiles] can
    produce: one for every order in which its loops can visit their maps. *)
Definition passOutcomes (clock : Z → string) (currentFiles : gmap string fileRecord)
    (rows0 : list Row) : list (list Row) :=
  ordL ← permutations (keysOf (latestFileSnapshots rows0));
  ordC ← permutations (keysOf currentFiles);
  let st2 := afterClassify clock ordL ordC currentFiles rows0 in
  ordM ← permutations (keysOf (missing st2));
  [rangeMap ordM (missing st2) (recordDeleted clock) (rows st2)].

(** [p] is a deletion candidate and [q] a path of the snapshot never seen
    before, with the hash of the latest entry of [p] and its base name. *)
Definition movePremises (currentFiles : gmap string fileRecord) (rows0 : list Row)
    (p q : string) : Prop :=
  ∃ snap file,
    latestFileSnapshots rows0 !! p = Some snap
    ∧ Status snap ≠ FileStatusDeleted
    ∧ currentFiles !! p = None
    ∧ (p ∉ aliasPathsOf (latestFileSnapshots rows0))
    ∧ latestFileSnapshots rows0 !! q = None
    ∧ currentFiles !! q = Some file
    ∧ FileHash file = Hash snap
    ∧ Filepath.Base q = Filepath.Base p.

(** *** Statements about the resolver *)

(** The entry [GetHistoryForPath] builds from a row. *)
Definition entryOfRow (r : Row) : FileHistoryEntry :=
  mkEntry (id r) (path r) (hash r) (content r) (status r) (previous_path r)
    (parseSQLiteTimestamp (recorded_at r)).

(** [e1] comes before [e2] in the order of the final sort: it was recorded
    later, or at the same instant with a larger id. *)
Definition entryBefore (e1 e2 : FileHistoryEntry) : Prop := entryLess e1 e2 = true.


(** The previous paths of the table. *)
Definition prevPaths (rows : list Row) : gset string :=
  list_to_set (omap previous_path rows).

(** What bounds the iterations left to the loop of [GetHistoryForPath]:
    the paths it may still expand, and the length of its queue. *)
Definition loopMeasure (rows : list Row) (st : walkState) : nat :=
  length (queue st)
  + S (length rows) * size ((prevPaths rows ∪ list_to_set (queue st)) ∖ visited st).

(** What the loop of [GetHistoryForPath] keeps true between iterations, for
    the table [rows] and the seeds [seeds]: the entries are entries of rows,
    with distinct ids, and [seenIDs] holds their ids; every row at a visited
    path, or moved from one, is collected; the previous path of every
    collected entry, and every seed, is visited or queued. *)
Record loopInv (rows : list Row) (seeds : list string) (st : walkState) : Prop := {
  inv_sound : ∀ e, e ∈ entries st → ∃ r, r ∈ rows ∧ e = entryOfRow r;
  inv_nodup : NoDup (ID <$> entries st);
  inv_seen : seenIDs st = list_to_set (ID <$> entries st);
  inv_complete : ∀ c r, c ∈ visited st → r ∈ rows →
                   path r = c ∨ previous_path r = Some c → id r ∈ seenIDs st;
  inv_chain : ∀ e q, e ∈ entries st → EntryPreviousPath e = Some q →
                q ∈ visited st ∨ q ∈ queue st;
  inv_seeds : ∀ c, c ∈ seeds → c ∈ visited st ∨ c ∈ queue st
}.

(** The paths of [dead] occur in no row, neither as path nor as previous
    path. *)
Definition deadPaths (rows : list Row) (dead : gset string) : Prop :=
  ∀ r, r ∈ rows → (path r ∉ dead) ∧ ∀ q, previous_path r = Some q → q ∉ dead.

(** Two states of the loop that differ by dead paths only: the queue of the
    second is the queue of the first without its dead paths, and both have
    visited the same live paths. *)
Definition sameButDead (dead : gset string) (st st' : walkState) : Prop :=
  queue st' = filter (λ c, c ∉ dead) (queue st)
  ∧ (∀ c, c ∉ dead → c ∈ visited st ↔ c ∈ visited st')
  ∧ seenIDs st = seenIDs st'
  ∧ entries st = entries st'.

(** A row is the latest of its path: no row of the path has a larger id. *)
Definition latestRow (rows : list Row) (r : Row) : Prop :=
  r ∈ rows ∧ ∀ r', r' ∈ rows → path r' = path r → (id r' ≤ id r)%Z.

(** *** Statements about stored timestamps *)

(** The times [Time.Format] writes in the layouts of [parseSQLiteTimestamp]
    with four digits of year and a zone offset of whole minutes, less than
    a day. *)
Definition validTime (t : Time.Time) : Prop :=
  (0 ≤ Time.year t < 10000 ∧ 1 ≤ Time.month t ≤ 12
   ∧ 1 ≤ Time.day t ≤ Time.daysIn (Time.month t) (Time.year t)
   ∧ 0 ≤ Time.hour t < 24 ∧ 0 ≤ Time.minute t < 60 ∧ 0 ≤ Time.second t < 60
   ∧ 0 ≤ Time.nsec t < 10 ^ 9
   ∧ -86400 < Time.offset t < 86400 ∧ Time.offset t mod 60 = 0)%Z.

(** What a layout keeps of a time: the layouts without fraction drop the
    nanoseconds, the layout without zone gives the civil time in UTC. *)
Definition withoutNsec (t : Time.Time) : Time.Time :=
  Time.mkTime (Time.year t) (Time.month t) (Time.day t)
    (Time.hour t) (Time.minute t) (Time.second t) 0 (Time.offset t).
Definition withoutZone (t : Time.Time) : Time.Time :=
  Time.mkTime (Time.year t) (Time.month t) (Time.day t)
    (Time.hour t) (Time.minute t) (Time.second t) 0 0.

(** The value of a run of digits, most significant first, from [acc]. *)
Definition digitsValue (acc : Z) (l : list ascii) : Z :=
  foldl (λ a c, a * 10 + Time.digitVal c)%Z acc l.

(** The head of what is written after a field is no digit. *)
Definition noDigitAhead (v : list ascii) : Prop :=
  match v with
  | c :: _ => Time.isDigitB c = false
  | [] => True
  end.

(** The fields read from the date and the time of day of [t]. *)
Definition fieldsOf (t : Time.Time) (ns : Z) (zone : option Z) : Time.fields :=
  Time.mkFields (Time.year t) (Time.month t) (Time.day t)
    (Time.hour t) (Time.minute t) (Time.second t) ns zone.

(** March 9, 2025, 14:05:07.12, two hours east of UTC. *)
Definition exampleTime : Time.Time :=
  Time.mkTime 2025 3 9 14 5 7 120000000 7200.

(** *** Statements of the further properties *)

(** A lower-case hexadecimal digit. *)
Definition isLowerHex (c : ascii) : bool :=
  ((48 <=? byteZ c) && (byteZ c <=? 57) || (97 <=? byteZ c) && (byteZ c <=? 102))%Z.

(** A name of a directory entry: not empty, without separator. *)
Definition entryName (name : string) : Prop :=
  name ≠ "" ∧ "/"%char ∉ bytes name.

(** The file system holds a readable file of name [nm] and content [data]
    at the path [elems] below the entry [n] of name [name]. *)
Inductive fileAt : string → node → list string → string → string → Prop :=
| fileAt_here name data : fileAt name (File (Some data)) [] name data
| fileAt_below name entries readErr name1 n1 elems nm data :
    (name1, n1) ∈ entries → fileAt name1 n1 elems nm data →
    fileAt name (Dir entries readErr) (name1 :: elems) nm data.

(** The readable Markdown files below the entry [n] of name [name], itself
    at the path [rel], in the order of the walk: path and content. *)
Fixpoint markdownFiles (rel : list string) (name : string) (n : node)
    {struct n} : list (list string * string) :=
  match n with
  | File (Some data) =>
      if bool_decide (Filepath.Ext name = ".md") then [(rel, data)] else []
  | File None => []
  | Dir entries _ =>
      (fix children (es : list (string * node)) : list (list string * string) :=
         match es with
         | [] => []
         | (name1, n1) :: es' =>
             markdownFiles (rel ++ [name1]) name1 n1 ++ children es'
         end) entries
  end.

(** The record the scanner keeps of a file. *)
Definition recordFile (current : gmap string fileRecord)
    (f : list string * string) : gmap string fileRecord :=
  <[relPathOf f.1 := mkFileRecord (hashBytes f.2) f.2]> current.

(** A printable ASCII byte other than the space. *)
Definition plainByte (c : ascii) : bool := ((32 <? byteZ c) && (byteZ c <? 127))%Z.

(** The paths the resolver reaches from the seeds: a seed, and the previous
    path of a row at a path it reaches. *)
Inductive linked (rows : list Row) (seeds : list string) : string → Prop :=
| linked_seed c : c ∈ seeds → linked rows seeds c
| linked_prev c r q :
    linked rows seeds c → r ∈ rows → path r = c → previous_path r = Some q →
    linked rows seeds q.

(** What the loop keeps true besides [loopInv]: it visits and queues paths
    reached from the seeds only, and every entry is of a row at a visited
    path or moved from one. *)
Definition loopLinked (rows : list Row) (seeds : list string) (st : walkState) : Prop :=
  (∀ c, c ∈ visited st ∨ c ∈ queue st → linked rows seeds c)
  ∧ (∀ e, e ∈ entries st →
       ∃ r c, r ∈ rows ∧ e = entryOfRow r ∧ c ∈ visited st
              ∧ (path r = c ∨ previous_path r = Some c)).

(** The deletion candidate [p] is consumed by a new path: of the candidates
    of its movement key, in the visiting order [ordL] of the second loop, it
    is among the first ones, as many as the third loop, visiting in the order
    [ordC], meets new paths of that key. *)
Definition consumed (latest : gmap string FileHistorySnapshot)
    (aliasPaths : gset string) (currentFiles : gmap string fileRecord)
    (ordL ordC : list string) (p : string) : Prop :=
  match candidateKey latest aliasPaths currentFiles p with
  | Some key =>
      p ∈ take (length (arrivalsOf latest currentFiles ordC key))
             (candidatesOf latest aliasPaths currentFiles ordL key)
  | None => False
  end.

(** What justifies a row appended by a pass on the snapshot [currentFiles]
    and the table [rows0]. A row that is no deletion carries the hash and the
    content of a file of the snapshot: a creation for a path without latest
    entry or with a deleted one, a modification for a path whose latest
    entry has another hash, a move from a deletion candidate of the same
    movement key for a path without latest entry. A deletion carries the hash
    and the content of the latest entry of a deletion candidate. *)
Definition justified (currentFiles : gmap string fileRecord) (rows0 : list Row)
    (r : Row) : Prop :=
  let latest := latestFileSnapshots rows0 in
  let candKey := candidateKey latest (aliasPathsOf latest) currentFiles in
  match status r with
  | FileStatusDeleted =>
      previous_path r = None
      ∧ candKey (path r) = Some (movementKey (hash r) (path r))
      ∧ ∃ snap, latest !! path r = Some snap
                ∧ hash r = Hash snap ∧ content r = Content snap
  | s =>
      ∃ file, currentFiles !! path r = Some file
        ∧ hash r = FileHash file ∧ content r = FileContent file
        ∧ match s with
          | FileStatusCreated =>
              previous_path r = None
              ∧ (latest !! path r = None
                 ∨ ∃ snap, latest !! path r = Some snap
                           ∧ Status snap = FileStatusDeleted)
          | FileStatusModified =>
              previous_path r = None
              ∧ ∃ snap, latest !! path r = Some snap
                        ∧ Status snap ≠ FileStatusDeleted
                        ∧ Hash snap ≠ FileHash file
          | _ =>
              latest !! path r = None
              ∧ ∃ p, previous_path r = Some p
                     ∧ candKey p = Some (movementKey (FileHash file) (path r))
          end
  end.

(** The table [rows0] agrees with the snapshot [currentFiles]: every file
    of the snapshot has a latest entry that is no deletion and has its
    hash, and every path with a latest entry that is absent from the
    snapshot is an alias path or has its deletion recorded. *)
Definition synced (currentFiles : gmap string fileRecord) (rows0 : list Row) : Prop :=
  let latest := latestFileSnapshots rows0 in
  (∀ q file, currentFiles !! q = Some file →
     ∃ snap, latest !! q = Some snap ∧ Status snap ≠ FileStatusDeleted
             ∧ Hash snap = FileHash file)
  ∧ (∀ p snap, latest !! p = Some snap → currentFiles !! p = None →
       p ∈ aliasPathsOf latest ∨ Status snap = FileStatusDeleted).

(** The latest-state index after the rows [added] are appended, in order,
    to a table whose index is [m]. *)
Definition latestAfter (m : gmap string FileHistorySnapshot) (added : list Row)
    : gmap string FileHistorySnapshot :=
  foldl (λ m r, <[path r := snapshotOfRow r]> m) m added.

(** The tables a pass goes through: rows are appended to [rows0], the ids
    stay distinct, and the index follows. *)
Definition grown (rows0 rows1 : list Row) : Prop :=
  NoDup (id <$> rows1)
  ∧ ∃ added, rows1 = rows0 ++ added
             ∧ latestFileSnapshots rows1
               = latestAfter (latestFileSnapshots rows0) added.

(** The text can start with a year of four digits: it has four bytes at
    least and the first is a digit. *)
Definition startsWithYear (value : string) : bool :=
  match bytes value with
  | c :: _ => (4 <=? length (bytes value))%nat && Time.isDigitB c
  | [] => false
  end.

(** The layouts "2006-01-02 15:04:05.999999999Z07:00" and
    "2006-01-02 15:04:05.999999999": the forms with a space and a
    fraction. *)
Definition layoutSpaceFracZone : list Time.chunk :=
  Time.dateChunks " " ++ [Time.stdFracSecond9; Time.stdISO8601ColonTZ].
Definition layoutSpaceFrac : list Time.chunk :=
  Time.dateChunks " " ++ [Time.stdFracSecond9].

(** The civil time of [t], read in UTC. *)
Definition inUTC (t : Time.Time) : Time.Time :=
  Time.mkTime (Time.year t) (Time.month t) (Time.day t)
    (Time.hour t) (Time.minute t) (Time.second t) (Time.nsec t) 0.

(** ** The earlier version of the tracker (history.go, lines 364-569)

    The table had no content column, the scanner kept hashes only, and the
    pass knew no alias paths. *)

Module Previous.

Record FileHistorySnapshot : Type := mkSnapshot {
  Path : string;
  Hash : string;
  Status : FileHistoryStatus;
  PreviousPath : option string
}.

Record Row : Type := mkRow {
  id : Z;
  path : string;
  hash : string;
  status : FileHistoryStatus;
  previous_path : option string;
  recorded_at : string
}.

Record SQLiteIndex : Type := mkIndex { db : option (list Row) }.

(** Modelled from the spec: as for the later version, the schema is not
    part of the sources; the id is one more than the largest id of the
    table. *)
Definition nextID (rows : list Row) : Z := (1 + foldr Z.max 0 (id <$> rows))%Z.

(** [insertHistoryEntry] (history.go, line 505). Modelled from the spec:
    [recorded_at] is the text the store's clock gives to the row. *)
Definition insertHistoryEntry (clock : Z → string) (rows : list Row)
    (path hash : string) (status : FileHistoryStatus)
    (previousPath : option string) : list Row :=
  let i := nextID rows in
  rows ++ [mkRow i path hash status previousPath (clock i)].

Definition maxIdPerPath (rows : list Row) : list (Z * string) :=
  (λ p, let ids := id <$> filter (λ r, path r = p) rows in
        (foldr Z.max (hd 0%Z ids) ids, p)) <$> remove_dups (path <$> rows).

Definition joinLatest (rows : list Row) : list Row :=
  r ← rows; l ← maxIdPerPath rows;
  if bool_decide (id r = l.1) then [r] else [].

Definition snapshotOfRow (r : Row) : FileHistorySnapshot :=
  mkSnapshot (path r) (hash r) (status r) (previous_path r).

(** [latestFileSnapshots] (history.go, line 471). *)
Definition latestFileSnapshots (rows : list Row) : gmap string FileHistorySnapshot :=
  foldl (λ snapshots r, <[path r := snapshotOfRow r]> snapshots) ∅ (joinLatest rows).

(** [hashFile] (history.go, line 558): the file is read, then hashed. *)
Definition hashFile (data : option string) : error + string :=
  match data with
  | Some content => inr (hashBytes content)
  | None => inl ErrIO
  end.

(** The callback of [scanMarkdownHashes] (history.go, lines 525-548). *)
Definition scanHashEntry (rel : list string) (d : option (string * node)) (err : bool)
    (current : gmap string string) : gmap string string * option walkResult :=
  if err then (current, None)
  else match d with
       | Some (name, File data) =>
           if bool_decide (Filepath.Ext name ≠ ".md") then (current, None)
           else match hashFile data with
                | inl _ => (current, None)
                | inr hash => (<[relPathOf rel := hash]> current, None)
                end
       | _ => (current, None)
       end.

(** [scanMarkdownHashes] (history.go, line 522). *)
Definition scanMarkdownHashes (dataDir : fsRoot) : gmap string string * option error :=
  let '(current, err) := WalkDir scanHashEntry dataDir ∅ in
  if bool_decide (err = Some ErrNotExist) then (current, None)
  else (current, err).

Record passState : Type := mkPass {
  moveCandidates : gmap string (list FileHistorySnapshot);
  missing : gmap string FileHistorySnapshot;
  rows : list Row
}.

(** The body of the first loop (lines 409-417). *)
Definition collectMissing (currentFiles : gmap string string)
    (path : string) (snap : FileHistorySnapshot) (st : passState) : passState :=
  match currentFiles !! path with
  | Some _ => st
  | None =>
      let missing' := <[path := snap]> (missing st) in
      if bool_decide (Status snap ≠ FileStatusDeleted) then
        let key := movementKey (Hash snap) path in
        mkPass (<[key := default [] (moveCandidates st !! key) ++ [snap]]>
                  (moveCandidates st))
               missing' (rows st)
      else mkPass (moveCandidates st) missing' (rows st)
  end.

(** The body of the second loop (lines 419-454). *)
Definition classifyCurrent (clock : Z → string)
    (latest : gmap string FileHistorySnapshot)
    (relPath : string) (hash : string) (st : passState) : passState :=
  let insert status prev :=
    insertHistoryEntry clock (rows st) relPath hash status prev in
  match latest !! relPath with
  | Some snap =>
      if bool_decide (Status snap = FileStatusDeleted) then
        mkPass (moveCandidates st) (missing st) (insert FileStatusCreated None)
      else if bool_decide (Hash snap ≠ hash) then
        mkPass (moveCandidates st) (missing st) (insert FileStatusModified None)
      else st
  | None =>
      let key := movementKey hash relPath in
      match default [] (moveCandidates st !! key) with
      | prev :: snaps =>
          mkPass (<[key := snaps]> (moveCandidates st))
                 (delete (Path prev) (missing st))
                 (insert FileStatusMoved (Some (Path prev)))
      | [] =>
          mkPass (moveCandidates st) (missing st) (insert FileStatusCreated None)
      end
  end.

(** The body of the third loop (lines 456-464). *)
Definition recordDeleted (clock : Z → string)
    (_ : string) (snap : FileHistorySnapshot) (rows : list Row) : list Row :=
  if bool_decide (Status snap = FileStatusDeleted) then rows
  else insertHistoryEntry clock rows (Path snap) (Hash snap) FileStatusDeleted None.

Definition reconcile (clock : Z → string) (ord : rangeOrders)
    (currentFiles : gmap string string) (rows0 : list Row) : list Row :=
  let latest := latestFileSnapshots rows0 in
  let st1 := rangeMap (ordLatest ord) latest (collectMissing currentFiles)
               (mkPass ∅ ∅ rows0) in
  let st2 := rangeMap (ordCurrent ord) currentFiles (classifyCurrent clock latest) st1 in
  rangeMap (ordMissing ord) (missing st2) (recordDeleted clock) (rows st2).

(** [CaptureFileHistory] (history.go, line 394). *)
Definition CaptureFileHistory (clock : Z → string) (ord : rangeOrders)
    (s : SQLiteIndex) (dataDir : fsRoot) : error + SQLiteIndex :=
  match db s with
  | None => inl ErrConnDone
  | Some rows0 =>
      match scanMarkdownHashes dataDir with
      | (_, Some err) => inl err
      | (currentFiles, None) =>
          inr (mkIndex (Some (reconcile clock ord currentFiles rows0)))
      end
  end.

End Previous.

(** A row and a snapshot of the later version without their content, as the
    earlier version holds them. *)
Definition withoutContent (r : Row) : Previous.Row :=
  Previous.mkRow (id r) (path r) (hash r) (status r) (previous_path r) (recorded_at r).

Definition snapshotWithoutContent (snap : FileHistorySnapshot)
    : Previous.FileHistorySnapshot :=
  Previous.mkSnapshot (Path snap) (Hash snap) (Status snap) (PreviousPath snap).

(** The states of the passes of the two versions hold the same, content
    apart. *)
Definition sameState (st : passState) (st' : Previous.passState) : Prop :=
  Previous.moveCandidates st'
    = (λ l : list FileHistorySnapshot, snapshotWithoutContent <$> l) <$> moveCandidates st
  ∧ Previous.missing st' = snapshotWithoutContent <$> missing st
  ∧ Previous.rows st' = withoutContent <$> rows st.

(** No alias path is pending: every alias path with a latest entry is in
    the snapshot. *)
Definition noPendingAlias (currentFiles : gmap string fileRecord) (rows0 : list Row)
    : Prop :=
  ∀ p, p ∈ aliasPathsOf (latestFileSnapshots rows0) →
       is_Some (latestFileSnapshots rows0 !! p) → is_Some (currentFiles !! p).

(** ** Concrete file systems and tables *)

Definition exampleClock : Z → string := λ _, "2025-01-01 00:00:00".

Definition note1 : string := "# note".
Definition note2 : string := "# note, updated".

Definition fileOf (content : string) : fileRecord :=
  mkFileRecord (hashBytes content) content.

(** The life of a page: created at a.md, modified, moved to b/a.md,
    deleted. *)
Definition fsCreated : fsRoot :=
  Present "data" (Dir [("a.md", File (Some note1))] false).
Definition fsModified : fsRoot :=
  Present "data" (Dir [("a.md", File (Some note2))] false).
Definition fsMoved : fsRoot :=
  Present "data" (Dir [("b", Dir [("a.md", File (Some note2))] false)] false).
Definition fsDeleted : fsRoot :=
  Present "data" (Dir [("b", Dir [] false)] false).
(** The page is back at a.md while b/a.md is still there. *)
Definition fsBoth : fsRoot :=
  Present "data" (Dir [("a.md", File (Some note1));
                       ("b", Dir [("a.md", File (Some note2))] false)] false).

Definition curCreated : gmap string fileRecord := {["a.md" := fileOf note1]}.
Definition curModified : gmap string fileRecord := {["a.md" := fileOf note2]}.
Definition curMoved : gmap string fileRecord := {["b/a.md" := fileOf note2]}.
Definition curBoth : gmap string fileRecord :=
  {["a.md" := fileOf note1; "b/a.md" := fileOf note2]}.

(** The tables after each step of that life, for the clock [clock]. *)
Definition rowCreated (clock : Z → string) : Row :=
  mkRow 1 "a.md" (hashBytes note1) note1 FileStatusCreated None (clock 1%Z).
Definition rowModified (clock : Z → string) : Row :=
  mkRow 2 "a.md" (hashBytes note2) note2 FileStatusModified None (clock 2%Z).
Definition rowMoved (clock : Z → string) : Row :=
  mkRow 3 "b/a.md" (hashBytes note2) note2 FileStatusMoved (Some "a.md") (clock 3%Z).
Definition rowDeleted (clock : Z → string) : Row :=
  mkRow 4 "b/a.md" (hashBytes note2) note2 FileStatusDeleted None (clock 4%Z).

Definition rowsCreated (clock : Z → string) : list Row := [rowCreated clock].
Definition rowsModified (clock : Z → string) : list Row :=
  [rowCreated clock; rowModified clock].
Definition rowsMoved (clock : Z → string) : list Row :=
  [rowCreated clock; rowModified clock; rowMoved clock].
Definition rowsDeleted (clock : Z → string) : list Row :=
  [rowCreated clock; rowModified clock; rowMoved clock; rowDeleted clock].

(** The row a further pass on [fsDeleted] appends. *)
Definition rowSourceDeleted (clock : Z → string) : Row :=
  mkRow 5 "a.md" (hashBytes note2) note2 FileStatusDeleted None (clock 5%Z).

Definition lifeOrders : rangeOrders :=
  mkOrders ["a.md"; "b/a.md"] ["a.md"; "b/a.md"] ["a.md"; "b/a.md"].

(** Two pages of the same name and content, x/a.md recorded before y/a.md,
    both gone while z/a.md appears with that content. *)
Definition rowsTwins : list Row :=
  [mkRow 1 "x/a.md" (hashBytes note1) note1 FileStatusCreated None "2025-01-01 00:00:00";
   mkRow 2 "y/a.md" (hashBytes note1) note1 FileStatusCreated None "2025-01-01 00:00:05"].
Definition fsThird : fsRoot :=
  Present "data" (Dir [("z", Dir [("a.md", File (Some note1))] false)] false).
Definition curThird : gmap string fileRecord := {["z/a.md" := fileOf note1]}.
Definition twinOrdersXY : rangeOrders :=
  mkOrders ["x/a.md"; "y/a.md"] ["z/a.md"] ["x/a.md"; "y/a.md"].
Definition twinOrdersYX : rangeOrders :=
  mkOrders ["y/a.md"; "x/a.md"] ["z/a.md"] ["x/a.md"; "y/a.md"].

(** The page a.md is gone while two copies of it appear, b/a.md and
    c/a.md. *)
Definition fsCopies : fsRoot :=
  Present "data" (Dir [("b", Dir [("a.md", File (Some note1))] false);
                       ("c", Dir [("a.md", File (Some note1))] false)] false).
Definition curCopies : gmap string fileRecord :=
  {["b/a.md" := fileOf note1; "c/a.md" := fileOf note1]}.
Definition copyOrders : rangeOrders :=
  mkOrders ["a.md"] ["b/a.md"; "c/a.md"] ["a.md"].

(** The page b/a.md becomes the folder b/a with the page index.md in it:
    the file is renamed, its content unchanged. *)
Definition fsPage : fsRoot :=
  Present "data" (Dir [("b", Dir [("a.md", File (Some note1))] false)] false).
Definition fsFolder : fsRoot :=
  Present "data"
    (Dir [("b", Dir [("a", Dir [("index.md", File (Some note1))] false)] false)] false).
Definition curPage : gmap string fileRecord := {["b/a.md" := fileOf note1]}.
Definition curFolder : gmap string fileRecord := {["b/a/index.md" := fileOf note1]}.
Definition pageOrders : rangeOrders := mkOrders [] ["b/a.md"] [].
Definition folderOrders : rangeOrders :=
  mkOrders ["b/a.md"] ["b/a/index.md"] ["b/a.md"].

(** The rows of the two passes: the base names a.md and index.md differ,
    so the second pass sees no move. *)
Definition rowPage (clock : Z → string) : Row :=
  mkRow 1 "b/a.md" (hashBytes note1) note1 FileStatusCreated None (clock 1%Z).
Definition rowFolder (clock : Z → string) : Row :=
  mkRow 2 "b/a/index.md" (hashBytes note1) note1 FileStatusCreated None (clock 2%Z).
Definition rowPageDeleted (clock : Z → string) : Row :=
  mkRow 3 "b/a.md" (hashBytes note1) note1 FileStatusDeleted None (clock 3%Z).
Definition rowsPage (clock : Z → string) : list Row := [rowPage clock].
Definition rowsFolder (clock : Z → string) : list Row :=
  [rowPage clock; rowFolder clock; rowPageDeleted clock].

(** * Properties *)

(** ** The latest-state index *)

Lemma foldr_max_ge (d : Z) (ids : list Z) :
  (d ≤ foldr Z.max d ids)%Z ∧ ∀ j, j ∈ ids → (j ≤ foldr Z.max d ids)%Z.
Proof.
  induction ids as [|a ids [IH1 IH2]]; simpl.
  - split; [lia|]. by intros j ?%elem_of_nil.
  - split; [lia|]. intros j [-> | Hj]%elem_of_cons; [lia|].
    specialize (IH2 j Hj). lia.
Qed.

Lemma foldr_max_in (d : Z) (ids : list Z) :
  foldr Z.max d ids = d ∨ foldr Z.max d ids ∈ ids.
Proof.
  induction ids as [|a ids IH]; simpl; [by left|].
  destruct (Z.max_spec a (foldr Z.max d ids)) as [[_ ->] | [_ ->]].
  - destruct IH as [IH | IH]; [by left | right; by right].
  - right. by left.
Qed.

Lemma maxId_spec (ids : list Z) (i : Z) :
  i ∈ ids → foldr Z.max (hd 0%Z ids) ids ∈ ids ∧ (i ≤ foldr Z.max (hd 0%Z ids) ids)%Z.
Proof.
  intros Hi. split; [|by apply foldr_max_ge].
  destruct (foldr_max_in (hd 0%Z ids) ids) as [-> | H]; [|done].
  destruct ids; [by apply elem_of_nil in Hi | by left].
Qed.

Lemma rows_same_id (rows : list Row) (r r' : Row) :
  NoDup (id <$> rows) → r ∈ rows → r' ∈ rows → id r = id r' → r = r'.
Proof.
  induction rows as [|a rows IH]; intros Hnd Hr Hr' Heq; [by apply elem_of_nil in Hr|].
  rewrite fmap_cons in Hnd. apply NoDup_cons in Hnd as [Hnot Hnd].
  apply elem_of_cons in Hr as [-> | Hr]; apply elem_of_cons in Hr' as [-> | Hr'].
  - done.
  - exfalso. apply Hnot. rewrite Heq. by apply list_elem_of_fmap_2.
  - exfalso. apply Hnot. rewrite <- Heq. by apply list_elem_of_fmap_2.
  - by apply IH.
Qed.

Lemma elem_of_maxIdPerPath (rows : list Row) (i : Z) (p : string) :
  (i, p) ∈ maxIdPerPath rows ↔
  (∃ r, r ∈ rows ∧ path r = p)
  ∧ i = (let ids := id <$> filter (λ r, path r = p) rows in foldr Z.max (hd 0%Z ids) ids).
Proof.
  unfold maxIdPerPath. rewrite list_elem_of_fmap. split.
  - intros (p' & [= -> ->] & Hp). split; [|done].
    apply elem_of_remove_dups, list_elem_of_fmap in Hp as (r & -> & Hr). eauto.
  - intros [(r & Hr & <-) ->]. exists (path r). split; [done|].
    apply elem_of_remove_dups, list_elem_of_fmap. eauto.
Qed.

Lemma maxIdPerPath_latest (rows : list Row) (i : Z) (p : string) :
  (i, p) ∈ maxIdPerPath rows → ∃ r, latestRow rows r ∧ path r = p ∧ id r = i.
Proof.
  rewrite elem_of_maxIdPerPath. intros [(r0 & Hr0 & Hp0) ->]. cbn zeta.
  destruct (maxId_spec (id <$> filter (λ r, path r = p) rows) (id r0)) as [Hin Hle].
  { apply list_elem_of_fmap_2. by apply list_elem_of_filter. }
  apply list_elem_of_fmap in Hin as (r & Hid & Hr).
  apply list_elem_of_filter in Hr as [Hp Hr].
  exists r. split; [|done]. split; [done|].
  intros r' Hr' Hp'. rewrite <- Hid.
  apply (maxId_spec (id <$> filter (λ r, path r = p) rows) (id r')).
  apply list_elem_of_fmap_2. apply list_elem_of_filter. split; [congruence | done].
Qed.

Lemma elem_of_joinLatest (rows : list Row) (r : Row) :
  r ∈ joinLatest rows ↔ r ∈ rows ∧ ∃ p, (id r, p) ∈ maxIdPerPath rows.
Proof.
  unfold joinLatest. rewrite list_elem_of_bind. split.
  - intros (r0 & Hin & Hr0). apply list_elem_of_bind in Hin as ([i p] & Hin & Hl).
    simpl in Hin. case_bool_decide; [|by apply elem_of_nil in Hin].
    apply list_elem_of_singleton in Hin as ->. split; [done|]. exists p. congruence.
  - intros [Hr [p Hp]]. exists r. split; [|done].
    apply list_elem_of_bind. exists (id r, p). split; [|done].
    simpl. rewrite bool_decide_eq_true_2 by done. by apply list_elem_of_singleton.
Qed.

Lemma latestRow_joinLatest (rows : list Row) (r : Row) :
  latestRow rows r → r ∈ joinLatest rows.
Proof.
  intros [Hr Hmax]. apply elem_of_joinLatest. split; [done|]. exists (path r).
  apply elem_of_maxIdPerPath. split; [eauto|]. cbn zeta.
  set (ids := id <$> filter (λ r0, path r0 = path r) rows).
  assert (Hin : id r ∈ ids).
  { apply list_elem_of_fmap_2. by apply list_elem_of_filter. }
  destruct (maxId_spec ids (id r) Hin) as [Hm Hle].
  apply list_elem_of_fmap in Hm as (r' & Hid & Hr').
  apply list_elem_of_filter in Hr' as [Hp' Hr'].
  specialize (Hmax r' Hr' Hp'). lia.
Qed.

Lemma joinLatest_latest (rows : list Row) (r : Row) :
  NoDup (id <$> rows) → r ∈ joinLatest rows → latestRow rows r.
Proof.
  intros Hnd [Hr [p Hp]]%elem_of_joinLatest.
  apply maxIdPerPath_latest in Hp as (r' & Hlat & _ & Hid).
  assert (r' = r) as ->; [|done].
  apply (rows_same_id rows); [done | apply Hlat | done | done].
Qed.

Lemma latestRow_unique (rows : list Row) (r r' : Row) :
  NoDup (id <$> rows) → latestRow rows r → latestRow rows r' → path r = path r' → r = r'.
Proof.
  intros Hnd [Hr Hm] [Hr' Hm'] Hp.
  apply (rows_same_id rows); [done..|].
  specialize (Hm r' Hr' (eq_sym Hp)). specialize (Hm' r Hr Hp). lia.
Qed.

Lemma latest_exists (rows : list Row) (r : Row) :
  r ∈ rows → ∃ r', latestRow rows r' ∧ path r' = path r.
Proof.
  intros Hr.
  destruct (maxIdPerPath_latest rows
              (let ids := id <$> filter (λ r0, path r0 = path r) rows in
               foldr Z.max (hd 0%Z ids) ids) (path r)) as (r' & Hlat & Hp & _).
  { apply elem_of_maxIdPerPath. eauto. }
  eauto.
Qed.

(** The map a loop of [snapshots[snap.Path] = snap] builds. *)
Lemma foldl_snapshots_lookup (l : list Row) (m : gmap string FileHistorySnapshot)
    (p : string) (snap : FileHistorySnapshot) :
  foldl (λ snapshots r, <[path r := snapshotOfRow r]> snapshots) m l !! p = Some snap →
  (∃ r, r ∈ l ∧ path r = p ∧ snapshotOfRow r = snap) ∨ m !! p = Some snap.
Proof.
  revert m. induction l as [|a l IH]; intros m; simpl; [by right|].
  intros H. apply IH in H as [(r & Hr & Hp & Hs) | H].
  - left. exists r. split; [by right | done].
  - destruct (decide (path a = p)) as [Heq | Hne].
    + rewrite Heq, lookup_insert_eq in H. injection H as <-.
      left. exists a. split; [by left | done].
    + rewrite lookup_insert_ne in H by done. by right.
Qed.

Lemma foldl_snapshots_mono (l : list Row) (m : gmap string FileHistorySnapshot)
    (p : string) :
  is_Some (m !! p) →
  is_Some (foldl (λ snapshots r, <[path r := snapshotOfRow r]> snapshots) m l !! p).
Proof.
  revert m. induction l as [|a l IH]; intros m Hm; simpl; [done|].
  apply IH. destruct (decide (path a = p)) as [<- | Hne].
  - rewrite lookup_insert_eq. by eexists.
  - by rewrite lookup_insert_ne.
Qed.

Lemma foldl_snapshots_is_Some (l : list Row) (m : gmap string FileHistorySnapshot)
    (r : Row) :
  r ∈ l →
  is_Some (foldl (λ snapshots r, <[path r := snapshotOfRow r]> snapshots) m l !! path r).
Proof.
  revert m. induction l as [|a l IH]; intros m Hr; [by apply elem_of_nil in Hr|].
  simpl. apply elem_of_cons in Hr as [-> | Hr]; [|by apply IH].
  apply foldl_snapshots_mono. rewrite lookup_insert_eq. by eexists.
Qed.

(** What [latestFileSnapshots] holds for a path is the snapshot of a row of
    that path. *)
Lemma latest_lookup_row (rows : list Row) (p : string) (snap : FileHistorySnapshot) :
  latestFileSnapshots rows !! p = Some snap →
  ∃ r, r ∈ rows ∧ path r = p ∧ snapshotOfRow r = snap.
Proof.
  intros H. apply foldl_snapshots_lookup in H as [(r & Hr & Hp & Hs) | H].
  - apply elem_of_joinLatest in Hr as [Hr _]. eauto.
  - by rewrite lookup_empty in H.
Qed.

Lemma latest_Path (rows : list Row) (p : string) (snap : FileHistorySnapshot) :
  latestFileSnapshots rows !! p = Some snap → Path snap = p.
Proof. intros (r & _ & <- & <-)%latest_lookup_row. done. Qed.

Lemma latest_lookup_latestRow (rows : list Row) (r : Row) :
  NoDup (id <$> rows) → latestRow rows r →
  latestFileSnapshots rows !! path r = Some (snapshotOfRow r).
Proof.
  intros Hnd Hlat.
  destruct (foldl_snapshots_is_Some (joinLatest rows) ∅ r) as [snap Hsnap];
    [by apply latestRow_joinLatest|].
  fold (latestFileSnapshots rows) in Hsnap. rewrite Hsnap. f_equal.
  apply foldl_snapshots_lookup in Hsnap as [(r' & Hr' & Hp & <-) | H];
    [|by rewrite lookup_empty in H].
  f_equal. apply (latestRow_unique rows); [done | by apply joinLatest_latest | done | done].
Qed.

(** C6. For every table whose ids are distinct, as the ids of a primary key
    are, the keys of [latestFileSnapshots] are exactly the paths that occur
    in a row, and each is mapped to the columns (path, hash, content,
    status, previous_path) of the row of that path with the largest id. *)
Theorem C6_latestFileSnapshots_max_id_per_path (rows : list Row) :
  NoDup (id <$> rows) →
  (∀ p, is_Some (latestFileSnapshots rows !! p) ↔ ∃ r, r ∈ rows ∧ path r = p)
  ∧ (∀ p snap, latestFileSnapshots rows !! p = Some snap ↔
       ∃ r, r ∈ rows ∧ path r = p ∧ snapshotOfRow r = snap
            ∧ ∀ r', r' ∈ rows → path r' = p → (id r' ≤ id r)%Z).
Proof.
  intros Hnd.
  assert (Hfwd : ∀ p snap, latestFileSnapshots rows !! p = Some snap →
            ∃ r, r ∈ rows ∧ path r = p ∧ snapshotOfRow r = snap
                 ∧ ∀ r', r' ∈ rows → path r' = p → (id r' ≤ id r)%Z).
  { intros p snap H. pose proof H as H0.
    apply foldl_snapshots_lookup in H as [(r & Hr & Hp & Hs) | H];
      [|by rewrite lookup_empty in H].
    apply joinLatest_latest in Hr as [Hr Hmax]; [|done].
    exists r. repeat split; [done..|]. intros r' Hr' Hp'. apply Hmax; congruence. }
  assert (Hbwd : ∀ r, r ∈ rows → (∀ r', r' ∈ rows → path r' = path r → (id r' ≤ id r)%Z) →
            latestFileSnapshots rows !! path r = Some (snapshotOfRow r)).
  { intros r Hr Hmax. by apply latest_lookup_latestRow. }
  split.
  - intros p. split.
    + intros [snap (r & Hr & Hp & _)%Hfwd]. eauto.
    + intros (r & Hr & <-). destruct (latest_exists rows r Hr) as (r' & Hlat & <-).
      rewrite latest_lookup_latestRow; [by eexists | done | done].
  - intros p snap. split; [apply Hfwd|].
    intros (r & Hr & <- & <- & Hmax). by apply Hbwd.
Qed.

(** ** Ranging over a map *)

Lemma rangeMap_nil {V St : Type} (m : gmap string V) (body : string → V → St → St) st :
  rangeMap [] m body st = st.
Proof. done. Qed.

Lemma rangeMap_cons {V St : Type} k ord (m : gmap string V) (body : string → V → St → St) st :
  rangeMap (k :: ord) m body st =
  rangeMap ord m body (match m !! k with Some v => body k v st | None => st end).
Proof. done. Qed.

Lemma rangeMap_app {V St : Type} o1 o2 (m : gmap string V) (body : string → V → St → St) st :
  rangeMap (o1 ++ o2) m body st = rangeMap o2 m body (rangeMap o1 m body st).
Proof. unfold rangeMap. by rewrite foldl_app. Qed.

Lemma rangeMap_snoc {V St : Type} k ord (m : gmap string V) (body : string → V → St → St) st :
  rangeMap (ord ++ [k]) m body st =
  match m !! k with
  | Some v => body k v (rangeMap ord m body st)
  | None => rangeMap ord m body st
  end.
Proof. by rewrite rangeMap_app. Qed.

(** An invariant of the loop that every iteration keeps holds at its end. *)
Lemma rangeMap_invariant {V St : Type} (I : St → Prop) ord (m : gmap string V)
    (body : string → V → St → St) st :
  I st → (∀ k v st, k ∈ ord → m !! k = Some v → I st → I (body k v st)) →
  I (rangeMap ord m body st).
Proof.
  revert st. induction ord as [|k ord IH]; intros st H0 Hstep; [done|].
  rewrite rangeMap_cons. apply IH.
  - destruct (m !! k) eqn:E; [|done]. apply Hstep; [by left | done | done].
  - intros k' v st' Hk'. apply Hstep. by right.
Qed.

(** ** The reconciliation pass *)

Lemma tail_drop {A : Type} (n : nat) (l : list A) : tail (drop n l) = drop (S n) l.
Proof.
  revert l. induction n as [|n IH]; intros [|x l]; simpl; done.
Qed.

Lemma lookup_omap_total {A B : Type} (f : A → option B) (l : list A) (i : nat) :
  (∀ x, x ∈ l → is_Some (f x)) → omap f l !! i = l !! i ≫= f.
Proof.
  revert i. induction l as [|x l IH]; intros i Hl; [done|].
  destruct (Hl x) as [y Hy]; [by left|]. simpl. rewrite Hy.
  destruct i as [|i]; simpl; [done|]. apply IH. intros x' Hx'. apply Hl. by right.
Qed.

Lemma filter_none {A : Type} (P : A → Prop) `{!∀ x, Decision (P x)} (l : list A) :
  (∀ x, x ∈ l → ¬ P x) → filter P l = [].
Proof.
  induction l as [|x l IH]; intros Hall; [done|].
  rewrite filter_cons_False; [|apply Hall; by left].
  apply IH. intros y Hy. apply Hall. by right.
Qed.

Lemma insertHistoryEntry_eq clock rows p h c s prev :
  insertHistoryEntry clock rows p h c s prev =
  rows ++ [mkRow (nextID rows) p h c s prev (clock (nextID rows))].
Proof. done. Qed.

Lemma reconcile_eq clock ord currentFiles rows0 :
  reconcile clock ord currentFiles rows0 =
  let st2 := afterClassify clock (ordLatest ord) (ordCurrent ord) currentFiles rows0 in
  rangeMap (ordMissing ord) (missing st2) (recordDeleted clock) (rows st2).
Proof. done. Qed.

Section pass.
Variable clock : Z → string.
Variable currentFiles : gmap string fileRecord.
Variable rows0 : list Row.

#[local] Abbreviation latest := (latestFileSnapshots rows0).
#[local] Abbreviation aliasPaths := (aliasPathsOf (latestFileSnapshots rows0)).
#[local] Abbreviation candKey := (candidateKey latest aliasPaths currentFiles).
#[local] Abbreviation arrKey := (arrivalKey latest currentFiles).

Lemma collectMissing_eq p snap st :
  latest !! p = Some snap →
  collectMissing aliasPaths currentFiles p snap st =
  mkPass
    (match candKey p with
     | Some key => <[key := default [] (moveCandidates st !! key) ++ [snap]]> (moveCandidates st)
     | None => moveCandidates st
     end)
    (if bool_decide (p ∈ aliasPaths) then missing st
     else match currentFiles !! p with
          | Some _ => missing st
          | None => <[p := snap]> (missing st)
          end)
    (rows st).
Proof.
  intros Hp. unfold collectMissing, candidateKey. rewrite Hp. destruct st as [mc mi rs].
  case_bool_decide; [done|]. destruct (currentFiles !! p); [done|].
  by case_bool_decide.
Qed.

(** After the second loop: the table is untouched; [missing] holds the
    latest snapshot of every visited key of [latest] that is no alias path
    and is absent from the snapshot; [moveCandidates] lists under each key
    the snapshots of its candidates, in visiting order. *)
Lemma afterCollect_spec ord :
  rows (afterCollect ord currentFiles rows0) = rows0
  ∧ (∀ p, missing (afterCollect ord currentFiles rows0) !! p =
          if bool_decide (p ∈ ord ∧ (p ∉ aliasPaths) ∧ currentFiles !! p = None)
          then latest !! p else None)
  ∧ (∀ key, default [] (moveCandidates (afterCollect ord currentFiles rows0) !! key)
            = omap (λ p, latest !! p) (candidatesOf latest aliasPaths currentFiles ord key)).
Proof.
  unfold afterCollect, candidatesOf. cbn zeta.
  induction ord as [|p ord IH] using rev_ind.
  - rewrite rangeMap_nil. simpl. split; [done|]. split.
    + intros p. by rewrite lookup_empty.
    + intros key. by rewrite lookup_empty.
  - destruct IH as (IH1 & IH2 & IH3). rewrite rangeMap_snoc.
    destruct (latest !! p) as [snap|] eqn:Hp.
    + rewrite (collectMissing_eq p snap _ Hp). simpl. split; [done|]. split.
      * intros p'. destruct (decide (p' = p)) as [-> | Hne].
        -- case_bool_decide as Ha.
           { rewrite IH2. repeat case_bool_decide; [naive_solver..|done]. }
           destruct (currentFiles !! p) eqn:Hcur.
           { rewrite IH2. repeat case_bool_decide; [naive_solver..|done]. }
           rewrite lookup_insert_eq. rewrite bool_decide_eq_true_2; [done|].
           split; [|done]. apply elem_of_app. right. by left.
        -- assert (Hm : (if bool_decide (p ∈ aliasPaths)
                         then missing (rangeMap ord latest
                                (collectMissing aliasPaths currentFiles) (mkPass ∅ ∅ rows0))
                         else match currentFiles !! p with
                              | Some _ => missing (rangeMap ord latest
                                (collectMissing aliasPaths currentFiles) (mkPass ∅ ∅ rows0))
                              | None => <[p:=snap]> (missing (rangeMap ord latest
                                (collectMissing aliasPaths currentFiles) (mkPass ∅ ∅ rows0)))
                              end) !! p'
                        = missing (rangeMap ord latest
                            (collectMissing aliasPaths currentFiles) (mkPass ∅ ∅ rows0)) !! p').
           { case_bool_decide; [done|]. destruct (currentFiles !! p); [done|].
             by rewrite lookup_insert_ne. }
           rewrite Hm, IH2. erewrite bool_decide_ext; [done|].
           rewrite elem_of_app, list_elem_of_singleton. naive_solver.
      * intros key. rewrite filter_app, omap_app.
        destruct (candKey p) as [key'|] eqn:Hkey.
        -- destruct (decide (key' = key)) as [-> | Hne].
           ++ rewrite lookup_insert_eq. simpl. rewrite IH3.
              rewrite filter_cons_True by done. simpl. by rewrite Hp.
           ++ rewrite lookup_insert_ne by done. rewrite IH3.
              rewrite filter_cons_False by congruence. simpl. by rewrite app_nil_r.
        -- rewrite IH3, filter_cons_False by congruence. simpl. by rewrite app_nil_r.
    + split; [done|]. split.
      * intros p'. rewrite IH2.
        destruct (decide (p' = p)) as [-> | Hne].
        -- rewrite Hp. by repeat case_bool_decide.
        -- erewrite bool_decide_ext; [done|].
           rewrite elem_of_app, list_elem_of_singleton. naive_solver.
      * intros key. rewrite filter_app, omap_app, IH3.
        rewrite filter_cons_False; [simpl; by rewrite app_nil_r|].
        unfold candidateKey. by rewrite Hp.
Qed.

(** An iteration of the third loop on a path that [latest] knows. *)
Lemma classifyCurrent_known q file st snap :
  latest !! q = Some snap →
  classifyCurrent clock latest q file st =
  mkPass (moveCandidates st) (missing st)
    (rows st ++
       if bool_decide (Status snap = FileStatusDeleted)
       then [rowFor clock (rows st) q file FileStatusCreated None]
       else if bool_decide (Hash snap ≠ FileHash file)
            then [rowFor clock (rows st) q file FileStatusModified None]
            else []).
Proof.
  intros Hq. unfold classifyCurrent. rewrite Hq. destruct st as [mc mi rs]. simpl.
  repeat case_bool_decide; rewrite ?app_nil_r; done.
Qed.

(** An iteration of the third loop on a path that [latest] does not
    know: the first candidate of its key, if any, is consumed. *)
Lemma classifyCurrent_new q file st :
  latest !! q = None →
  let key := movementKey (FileHash file) q in
  let cands := default [] (moveCandidates st !! key) in
  (∀ key', default [] (moveCandidates (classifyCurrent clock latest q file st) !! key')
           = if bool_decide (key' = key) then tail cands
             else default [] (moveCandidates st !! key'))
  ∧ missing (classifyCurrent clock latest q file st)
    = match cands with
      | prev :: _ => delete (Path prev) (missing st)
      | [] => missing st
      end
  ∧ rows (classifyCurrent clock latest q file st)
    = rows st ++ [rowFor clock (rows st) q file
                    (match cands with _ :: _ => FileStatusMoved | [] => FileStatusCreated end)
                    (Path <$> head cands)].
Proof.
  intros Hq key cands. unfold classifyCurrent. rewrite Hq. fold key. fold cands.
  destruct cands as [|prev snaps] eqn:Hc; simpl.
  - split; [|done]. intros key'. case_bool_decide as Hk; [|done].
    subst key'. fold cands. by rewrite Hc.
  - split; [|done]. intros key'. case_bool_decide as Hk.
    + subst key'. by rewrite lookup_insert_eq.
    + by rewrite lookup_insert_ne.
Qed.

#[local] Abbreviation classifyLoop ord st :=
  (rangeMap ord currentFiles (classifyCurrent clock latest) st).

(** The third loop appends rows for the paths it visits only, none of
    them a deletion. *)
Lemma classifyLoop_rows ord st :
  ∃ added, rows (classifyLoop ord st) = rows st ++ added
           ∧ ∀ r, r ∈ added →
               path r ∈ ord ∧ is_Some (currentFiles !! path r)
               ∧ status r ≠ FileStatusDeleted.
Proof.
  induction ord as [|q ord IH] using rev_ind.
  - exists []. rewrite rangeMap_nil, app_nil_r. split; [done|]. by intros r ?%elem_of_nil.
  - destruct IH as (added & Hrows & Hadded). rewrite rangeMap_snoc.
    assert (Hmono : ∀ r, r ∈ added → path r ∈ ord ++ [q] ∧ is_Some (currentFiles !! path r)
                                     ∧ status r ≠ FileStatusDeleted).
    { intros r Hr. destruct (Hadded r Hr) as (? & ? & ?).
      split; [apply elem_of_app; by left | done]. }
    destruct (currentFiles !! q) as [file|] eqn:Hcur; [|by exists added].
    assert (Hq : q ∈ ord ++ [q]) by (apply elem_of_app; right; by left).
    destruct (latest !! q) as [snap|] eqn:Hlat.
    + rewrite (classifyCurrent_known q file _ snap Hlat). simpl. rewrite Hrows.
      repeat case_bool_decide.
      * eexists (added ++ [_]). rewrite app_assoc. split; [done|].
        intros r [Hr | ->%list_elem_of_singleton]%elem_of_app; [by apply Hmono|].
        simpl. rewrite Hcur. by repeat split.
      * eexists (added ++ [_]). rewrite app_assoc. split; [done|].
        intros r [Hr | ->%list_elem_of_singleton]%elem_of_app; [by apply Hmono|].
        simpl. rewrite Hcur. by repeat split.
      * exists added. by rewrite app_nil_r.
    + destruct (classifyCurrent_new q file (classifyLoop ord st) Hlat) as (_ & _ & ->).
      rewrite Hrows. eexists (added ++ [_]). rewrite app_assoc. split; [done|].
      intros r [Hr | ->%list_elem_of_singleton]%elem_of_app; [by apply Hmono|].
      simpl. rewrite Hcur. repeat split; [done | by eexists |]. by case_match.
Qed.

(** The third loop only removes paths from [missing]. *)
Lemma classifyLoop_missing ord st p snap :
  missing (classifyLoop ord st) !! p = Some snap → missing st !! p = Some snap.
Proof.
  induction ord as [|q ord IH] using rev_ind; [done|].
  rewrite rangeMap_snoc. destruct (currentFiles !! q) as [file|] eqn:Hcur; [|done].
  destruct (latest !! q) as [snap'|] eqn:Hlat.
  - by rewrite (classifyCurrent_known q file _ snap' Hlat).
  - destruct (classifyCurrent_new q file (classifyLoop ord st) Hlat) as (_ & -> & _).
    case_match; [done|].
    intros Hd. apply IH. by apply lookup_delete_Some in Hd as [_ Hd].
Qed.

(** Each new path of a key takes one candidate off the list of that
    key. *)
Lemma classifyLoop_candidates ord st key :
  default [] (moveCandidates (classifyLoop ord st) !! key)
  = drop (length (arrivalsOf latest currentFiles ord key))
      (default [] (moveCandidates st !! key)).
Proof.
  unfold arrivalsOf. induction ord as [|q ord IH] using rev_ind; [done|].
  rewrite rangeMap_snoc, filter_app, length_app.
  destruct (currentFiles !! q) as [file|] eqn:Hcur.
  - destruct (latest !! q) as [snap'|] eqn:Hlat.
    + rewrite (classifyCurrent_known q file _ snap' Hlat). simpl. rewrite IH.
      rewrite filter_cons_False; [simpl; by rewrite Nat.add_0_r|].
      unfold arrivalKey. by rewrite Hcur, Hlat.
    + destruct (classifyCurrent_new q file (classifyLoop ord st) Hlat) as (-> & _ & _).
      case_bool_decide as Hk.
      * rewrite filter_cons_True; [|unfold arrivalKey; by rewrite Hcur, Hlat, Hk].
        simpl. rewrite <- Hk, IH. by rewrite Nat.add_1_r, tail_drop.
      * rewrite filter_cons_False; [simpl; by rewrite Nat.add_0_r, IH|].
        unfold arrivalKey. rewrite Hcur, Hlat. congruence.
  - rewrite filter_cons_False; [simpl; by rewrite Nat.add_0_r, IH|].
    unfold arrivalKey. by rewrite Hcur.
Qed.

(** The fourth loop appends a deletion for each path of [missing] whose
    snapshot is no deletion, and nothing else. *)
Lemma recordLoop_rows ord (mi : gmap string FileHistorySnapshot) rs :
  ∃ added, rangeMap ord mi (recordDeleted clock) rs = rs ++ added
           ∧ ∀ r, r ∈ added →
               status r = FileStatusDeleted
               ∧ ∃ p snap, p ∈ ord ∧ mi !! p = Some snap
                           ∧ Status snap ≠ FileStatusDeleted
                           ∧ snapshotOfRow r =
                             mkSnapshot (Path snap) (Hash snap) (Content snap)
                               FileStatusDeleted None.
Proof.
  induction ord as [|p ord IH] using rev_ind.
  - exists []. rewrite rangeMap_nil, app_nil_r. split; [done|]. by intros r ?%elem_of_nil.
  - destruct IH as (added & Hrows & Hadded). rewrite rangeMap_snoc.
    assert (Hmono : ∀ r, r ∈ added →
              status r = FileStatusDeleted
              ∧ ∃ p0 snap, p0 ∈ ord ++ [p] ∧ mi !! p0 = Some snap
                           ∧ Status snap ≠ FileStatusDeleted
                           ∧ snapshotOfRow r =
                             mkSnapshot (Path snap) (Hash snap) (Content snap)
                               FileStatusDeleted None).
    { intros r Hr. destruct (Hadded r Hr) as (? & p0 & snap & ? & ?).
      split; [done|]. exists p0, snap. split; [apply elem_of_app; by left | done]. }
    destruct (mi !! p) as [snap|] eqn:Hp; [|by exists added].
    rewrite Hrows. unfold recordDeleted. case_bool_decide as Hs; [by exists added|].
    rewrite insertHistoryEntry_eq. eexists (added ++ [_]).
    rewrite app_assoc. split; [done|].
    intros r [Hr | ->%list_elem_of_singleton]%elem_of_app; [by apply Hmono|].
    split; [done|]. exists p, snap. split; [apply elem_of_app; right; by left | done].
Qed.

Lemma classifyCurrent_missing q file st p snap :
  missing (classifyCurrent clock latest q file st) !! p = Some snap →
  missing st !! p = Some snap.
Proof.
  destruct (latest !! q) as [snap'|] eqn:Hlat.
  - by rewrite (classifyCurrent_known q file _ snap' Hlat).
  - destruct (classifyCurrent_new q file st Hlat) as (_ & -> & _).
    case_match; [done|]. intros Hd. by apply lookup_delete_Some in Hd as [_ Hd].
Qed.

(** The pass, seen from a path [q] of the snapshot: the rows appended
    before and after the iteration of the third loop on [q] are rows of
    other paths of the snapshot, and the deletions appended by the fourth
    loop are rows of paths that are absent from the snapshot and still in
    [missing] after that iteration. *)
Lemma pass_around ord q file :
  passOrders ord currentFiles rows0 →
  currentFiles !! q = Some file →
  ∃ pre post before after deleted,
    ordCurrent ord = pre ++ q :: post
    ∧ let st := classifyLoop pre (afterCollect (ordLatest ord) currentFiles rows0) in
      let st' := classifyCurrent clock latest q file st in
      rows st = rows0 ++ before
      ∧ reconcile clock ord currentFiles rows0 = rows st' ++ after ++ deleted
      ∧ (∀ r, r ∈ before ++ after →
           path r ≠ q ∧ is_Some (currentFiles !! path r))
      ∧ (∀ r, r ∈ deleted →
           status r = FileStatusDeleted ∧ currentFiles !! path r = None
           ∧ is_Some (missing st' !! path r)).
Proof.
  intros (HordL & [Hnd Hcov] & HordM) Hcur.
  destruct (list_elem_of_split (ordCurrent ord) q) as (pre & post & Hsplit);
    [apply Hcov; by eexists|].
  rewrite Hsplit in Hnd. apply NoDup_app in Hnd as (_ & Hpre & Hpost).
  apply NoDup_cons in Hpost as [Hpost _].
  assert (Hpre' : q ∉ pre) by (intros Hin; apply (Hpre q Hin); by left).
  set (st1 := afterCollect (ordLatest ord) currentFiles rows0).
  destruct (afterCollect_spec (ordLatest ord)) as (Hrows1 & Hmiss1 & _). fold st1 in Hrows1, Hmiss1.
  destruct (classifyLoop_rows pre st1) as (before & Hbefore & Hb).
  set (st := classifyLoop pre st1) in *.
  set (st' := classifyCurrent clock latest q file st).
  destruct (classifyLoop_rows post st') as (after & Hafter & Ha).
  destruct (recordLoop_rows (ordMissing ord) (missing (classifyLoop post st'))
              (rows (classifyLoop post st'))) as (deleted & Hdel & Hd).
  exists pre, post, before, after, deleted. split; [done|]. cbn zeta.
  fold st1. fold st. fold st'. split; [by rewrite Hbefore, Hrows1|]. split.
  { rewrite reconcile_eq. cbn zeta. unfold afterClassify. fold st1.
    rewrite Hsplit, rangeMap_app, rangeMap_cons, Hcur. fold st. fold st'.
    by rewrite Hdel, Hafter, <- app_assoc. }
  split.
  - intros r [Hr | Hr]%elem_of_app.
    + destruct (Hb r Hr) as (Hin & Hc & _). split; [|done]. by intros <-.
    + destruct (Ha r Hr) as (Hin & Hc & _). split; [|done]. by intros <-.
  - intros r Hr. destruct (Hd r Hr) as (Hs & p & snap & _ & Hp & _ & Hsnap).
    apply classifyLoop_missing in Hp. pose proof Hp as Hp'.
    apply classifyCurrent_missing, classifyLoop_missing in Hp'.
    fold st1 in Hp'. rewrite Hmiss1 in Hp'.
    case_bool_decide as Hc; [|done]. destruct Hc as (_ & _ & Hc).
    assert (path r = p) as ->.
    { apply latest_Path in Hp'. by injection Hsnap as -> _ _ _ _. }
    split; [done|]. split; [done|]. by eexists.
Qed.

(** The rows of the pass for a path of the snapshot that [latest] knows:
    a creation when the latest entry is a deletion, a modification when
    the hash differs, and nothing otherwise. *)
Lemma pass_known ord q file snap :
  passOrders ord currentFiles rows0 →
  currentFiles !! q = Some file →
  latest !! q = Some snap →
  ∃ added, reconcile clock ord currentFiles rows0 = rows0 ++ added
    ∧ snapshotOfRow <$> filter (λ r, path r = q) added =
      if bool_decide (Status snap = FileStatusDeleted)
      then [mkSnapshot q (FileHash file) (FileContent file) FileStatusCreated None]
      else if bool_decide (Hash snap ≠ FileHash file)
           then [mkSnapshot q (FileHash file) (FileContent file) FileStatusModified None]
           else [].
Proof.
  intros Hord Hcur Hlat.
  destruct (pass_around ord q file Hord Hcur)
    as (pre & post & before & after & deleted & _ & Hrows & Hrec & Hba & Hdel).
  cbn zeta in *. rewrite (classifyCurrent_known q file _ snap Hlat) in Hrec.
  simpl in Hrec. rewrite Hrows in Hrec.
  assert (Hb : filter (λ r, path r = q) before = []).
  { apply filter_none. intros r Hr. apply Hba, elem_of_app. by left. }
  assert (Ha : filter (λ r, path r = q) after = []).
  { apply filter_none. intros r Hr. apply Hba, elem_of_app. by right. }
  assert (Hd : filter (λ r, path r = q) deleted = []).
  { apply filter_none. intros r Hr Hp. destruct (Hdel r Hr) as (_ & Hnone & _).
    rewrite Hp, Hcur in Hnone. done. }
  eexists. split; [rewrite Hrec, <- !app_assoc; done|].
  rewrite !filter_app, Hb, Ha, Hd, app_nil_r. simpl.
  repeat case_bool_decide; simpl; try done;
    rewrite filter_cons_True by done; done.
Qed.

Lemma candidateKey_Some p key :
  candKey p = Some key →
  ∃ snap, latest !! p = Some snap ∧ (p ∉ aliasPaths) ∧ currentFiles !! p = None
          ∧ Status snap ≠ FileStatusDeleted ∧ key = movementKey (Hash snap) p.
Proof.
  unfold candidateKey. destruct (latest !! p) as [snap|]; [|done].
  case_bool_decide; [done|]. destruct (currentFiles !! p); [done|].
  case_bool_decide; [|done]. intros [= <-]. by exists snap.
Qed.

Lemma candidateKey_intro p snap :
  latest !! p = Some snap → p ∉ aliasPaths → currentFiles !! p = None →
  Status snap ≠ FileStatusDeleted →
  candKey p = Some (movementKey (Hash snap) p).
Proof.
  intros Hp Ha Hc Hs. unfold candidateKey. rewrite Hp, Hc.
  by rewrite bool_decide_eq_false_2, bool_decide_eq_true_2.
Qed.

(** The snapshot at the head of the candidates of [key] once [i] of them
    are consumed is the latest snapshot of the [i]-th candidate. *)
Lemma head_candidates ordL key i :
  head (drop i (omap (λ p, latest !! p)
                  (candidatesOf latest aliasPaths currentFiles ordL key)))
  = candidatesOf latest aliasPaths currentFiles ordL key !! i ≫= (λ p, latest !! p).
Proof.
  rewrite head_lookup, lookup_drop, Nat.add_0_r. apply lookup_omap_total.
  intros p [Hk _]%list_elem_of_filter.
  apply candidateKey_Some in Hk as (snap & -> & _). by eexists.
Qed.

(** The rows of the pass for a path [q] of the snapshot that [latest]
    does not know, the [i]-th new path of its movement key in the order of
    the third loop: a move from the [i]-th deletion candidate of that key
    in the order of the second loop, when there is one, and a creation
    otherwise. The candidate it is moved from gets no row. *)
Lemma pass_new ord q file i :
  passOrders ord currentFiles rows0 →
  currentFiles !! q = Some file →
  latest !! q = None →
  let key := movementKey (FileHash file) q in
  arrivalsOf latest currentFiles (ordCurrent ord) key !! i = Some q →
  let prev := candidatesOf latest aliasPaths currentFiles (ordLatest ord) key !! i in
  ∃ added, reconcile clock ord currentFiles rows0 = rows0 ++ added
    ∧ snapshotOfRow <$> filter (λ r, path r = q) added =
      [mkSnapshot q (FileHash file) (FileContent file)
         (if prev is Some _ then FileStatusMoved else FileStatusCreated) prev]
    ∧ ∀ p, prev = Some p → ∀ r, r ∈ added → path r ≠ p.
Proof.
  intros Hord Hcur Hlat key Harr prev.
  destruct (pass_around ord q file Hord Hcur)
    as (pre & post & before & after & deleted & Hsplit & Hrows & Hrec & Hba & Hdel).
  cbn zeta in *.
  set (st := classifyLoop pre (afterCollect (ordLatest ord) currentFiles rows0)) in *.
  destruct (classifyCurrent_new q file st Hlat) as (_ & Hmiss & Hq). fold key in Hmiss, Hq.
  (* the candidates left when the loop reaches [q] *)
  assert (Hi : length (arrivalsOf latest currentFiles pre key) = i).
  { destruct Hord as (_ & [Hnd _] & _).
    assert (Harr' : arrivalsOf latest currentFiles (ordCurrent ord) key
                    = arrivalsOf latest currentFiles pre key
                      ++ q :: arrivalsOf latest currentFiles post key).
    { unfold arrivalsOf. rewrite Hsplit, filter_app, filter_cons_True; [done|].
      unfold arrivalKey. by rewrite Hcur, Hlat. }
    eapply (NoDup_lookup (arrivalsOf latest currentFiles (ordCurrent ord) key));
      [by apply NoDup_filter | | exact Harr].
    rewrite Harr'. by rewrite list_lookup_middle. }
  assert (Hhead : head (default [] (moveCandidates st !! key))
                  = prev ≫= (λ p, latest !! p)).
  { unfold st. rewrite classifyLoop_candidates, Hi.
    destruct (afterCollect_spec (ordLatest ord)) as (_ & _ & ->).
    apply head_candidates. }
  assert (Hprev : Path <$> head (default [] (moveCandidates st !! key)) = prev).
  { rewrite Hhead. destruct prev as [p|] eqn:Hp; [|done]. simpl.
    apply list_elem_of_lookup_2, list_elem_of_filter in Hp as [Hk _].
    apply candidateKey_Some in Hk as (snap & Hsnap & _). rewrite Hsnap. simpl.
    f_equal. by apply latest_Path in Hsnap. }
  assert (Hstatus : match default [] (moveCandidates st !! key) with
                    | _ :: _ => FileStatusMoved
                    | [] => FileStatusCreated
                    end = if prev is Some _ then FileStatusMoved else FileStatusCreated).
  { rewrite <- Hprev. by destruct (default [] (moveCandidates st !! key)). }
  rewrite Hq, Hrows, Hprev, Hstatus in Hrec.
  assert (Hb : filter (λ r, path r = q) before = []).
  { apply filter_none. intros r Hr. apply Hba, elem_of_app. by left. }
  assert (Ha : filter (λ r, path r = q) after = []).
  { apply filter_none. intros r Hr. apply Hba, elem_of_app. by right. }
  assert (Hd : filter (λ r, path r = q) deleted = []).
  { apply filter_none. intros r Hr Hp. destruct (Hdel r Hr) as (_ & Hnone & _).
    rewrite Hp, Hcur in Hnone. done. }
  exists (before ++ rowFor clock (rows0 ++ before) q file
                      (if prev is Some _ then FileStatusMoved else FileStatusCreated) prev
                 :: after ++ deleted).
  split; [rewrite Hrec, <- !app_assoc; done|]. split.
  { rewrite filter_app, filter_cons_True, filter_app, Hb, Ha, Hd by done. done. }
  intros p Hp r Hr Hpath. subst p.
  assert (Hcand : candKey (path r) = Some key).
  { unfold prev in Hp. by apply list_elem_of_lookup_2, list_elem_of_filter in Hp as [Hk _]. }
  apply candidateKey_Some in Hcand as (snap & Hsnap & _ & Hnone & _).
  apply elem_of_app in Hr as [Hr | Hr].
  - destruct (Hba r) as [_ [? Hsome]]; [apply elem_of_app; by left|]. congruence.
  - apply elem_of_cons in Hr as [-> | Hr]; [|apply elem_of_app in Hr as [Hr | Hr]].
    + simpl in Hnone. congruence.
    + destruct (Hba r) as [_ [? Hsome]]; [apply elem_of_app; by right|]. congruence.
    + destruct (Hdel r Hr) as (_ & _ & [snap' Hm]).
      rewrite Hmiss in Hm.
      destruct (default [] (moveCandidates st !! key)) as [|prevSnap snaps] eqn:Hc.
      * rewrite Hp in Hprev. done.
      * simpl in Hprev. rewrite Hp in Hprev. injection Hprev as Hprev.
        rewrite Hprev in Hm. by rewrite lookup_delete_eq in Hm.
Qed.
End pass.

(** ** The scanner *)

Lemma node_induction (P : node → Prop) :
  (∀ data, P (File data)) →
  (∀ entries readErr, Forall (λ e, P e.2) entries → P (Dir entries readErr)) →
  ∀ n, P n.
Proof.
  intros HF HD. fix IH 1. intros [data | entries readErr]; [apply HF|].
  apply HD. induction entries as [|[name n] entries IHe]; constructor; [apply IH | apply IHe].
Qed.

(** A walk whose callback reports no error reports none. *)
Lemma walkDir_no_error {St : Type}
    (fn : list string → option (string * node) → bool → St → St * option walkResult) :
  (∀ rel d err st, (fn rel d err st).2 = None) →
  ∀ n rel name st, (walkDir fn rel name n st).2 = None.
Proof.
  intros Hfn. induction n as [data | entries readErr IH] using node_induction;
    intros rel name st; simpl.
  - specialize (Hfn rel (Some (name, File data)) false st).
    by destruct (fn rel (Some (name, File data)) false st).
  - pose proof (Hfn rel (Some (name, Dir entries readErr)) false st) as H1.
    destruct (fn rel (Some (name, Dir entries readErr)) false st) as [st1 r1].
    simpl in H1. subst r1.
    assert (H2 : ∀ st1, (if readErr then fn rel (Some (name, Dir entries readErr)) true st1
                         else (st1, None)).2 = None).
    { intros st'. destruct readErr; [apply Hfn | done]. }
    specialize (H2 st1).
    destruct (if readErr then _ else _) as [st2 r2]. simpl in H2. subst r2.
    clear Hfn. revert st2. induction IH as [|[name1 n1] es Hn1 _ IHes]; intros st2; [done|].
    specialize (Hn1 (rel ++ [name1]) name1 st2). simpl in Hn1.
    destruct (walkDir fn (rel ++ [name1]) name1 n1 st2) as [st' r]. simpl in Hn1. subst r.
    apply IHes.
Qed.

Lemma scanEntry_no_error rel d err current : (scanEntry rel d err current).2 = None.
Proof.
  unfold scanEntry. destruct err; [done|]. destruct d as [[name [data|]]|]; [|done..].
  case_bool_decide; [done|]. by destruct data.
Qed.

(** [scanMarkdownFiles] reports no error, whatever the file system. *)
Lemma scanMarkdownFiles_no_error dataDir : (scanMarkdownFiles dataDir).2 = None.
Proof.
  unfold scanMarkdownFiles, WalkDir.
  destruct dataDir as [e | name n].
  - pose proof (scanEntry_no_error [] None true ∅) as H.
    destruct (scanEntry [] None true ∅) as [st r]. simpl in H. by subst r.
  - pose proof (walkDir_no_error scanEntry scanEntry_no_error n [] name ∅) as H.
    destruct (walkDir scanEntry [] name n ∅) as [st r]. simpl in H. by subst r.
Qed.

Lemma CaptureFileHistory_reconcile clock ord rows0 dataDir :
  CaptureFileHistory clock ord (mkIndex (Some rows0)) dataDir
  = inr (mkIndex (Some (reconcile clock ord (scanMarkdownFiles dataDir).1 rows0))).
Proof.
  unfold CaptureFileHistory. simpl.
  pose proof (scanMarkdownFiles_no_error dataDir) as H.
  destruct (scanMarkdownFiles dataDir) as [current err]. simpl in H. by subst err.
Qed.

(** C8. [scanMarkdownFiles] on a root that does not exist returns the empty
    mapping and no error, and [CaptureFileHistory] on such a root returns no
    error: it returns the index after the pass on the empty snapshot. *)
Theorem C8_missing_root_is_empty_snapshot :
  scanMarkdownFiles (Missing ErrNotExist) = (∅, None)
  ∧ ∀ clock ord rows0,
      CaptureFileHistory clock ord (mkIndex (Some rows0)) (Missing ErrNotExist)
      = inr (mkIndex (Some (reconcile clock ord ∅ rows0))).
Proof. split; [done|]. intros clock ord rows0. by rewrite CaptureFileHistory_reconcile. Qed.

(** ** The claims on the classification of a pass *)

Lemma appends_reconcile clock ord rows0 dataDir currentFiles added :
  scanMarkdownFiles dataDir = (currentFiles, None) →
  reconcile clock ord currentFiles rows0 = rows0 ++ added →
  appends clock ord rows0 dataDir added.
Proof.
  intros Hscan Hrec. unfold appends. rewrite CaptureFileHistory_reconcile, Hscan. simpl.
  by rewrite Hrec.
Qed.

(** C7. A path of the snapshot whose latest entry is a deletion gets exactly
    one row in the pass: a creation without previous path, with the hash and
    content of the file, whatever they are. *)
Theorem C7_reappeared_path_is_created clock ord rows0 dataDir currentFiles q file snap :
  scanMarkdownFiles dataDir = (currentFiles, None) →
  passOrders ord currentFiles rows0 →
  currentFiles !! q = Some file →
  latestFileSnapshots rows0 !! q = Some snap →
  Status snap = FileStatusDeleted →
  ∃ added, appends clock ord rows0 dataDir added
    ∧ entriesFor q added
      = [mkSnapshot q (FileHash file) (FileContent file) FileStatusCreated None].
Proof.
  intros Hscan Hord Hcur Hlat Hdel.
  destruct (pass_known clock currentFiles rows0 ord q file snap Hord Hcur Hlat)
    as (added & Hrec & Hq).
  exists added. split; [by eapply appends_reconcile|].
  unfold entriesFor. by rewrite Hq, bool_decide_eq_true_2.
Qed.

(** C10. A path of the snapshot that is an alias path (the previous path of
    a latest entry) and whose own latest entry is no deletion gets no row in
    the pass when the hash of the file is the hash of that entry, and exactly
    one row, a modification, when it is not. *)
Theorem C10_reappearance_at_move_source clock ord rows0 dataDir currentFiles q file snap :
  scanMarkdownFiles dataDir = (currentFiles, None) →
  passOrders ord currentFiles rows0 →
  currentFiles !! q = Some file →
  q ∈ aliasPathsOf (latestFileSnapshots rows0) →
  latestFileSnapshots rows0 !! q = Some snap →
  Status snap ≠ FileStatusDeleted →
  ∃ added, appends clock ord rows0 dataDir added
    ∧ entriesFor q added
      = if bool_decide (FileHash file = Hash snap) then []
        else [mkSnapshot q (FileHash file) (FileContent file) FileStatusModified None].
Proof.
  intros Hscan Hord Hcur _ Hlat Hdel.
  destruct (pass_known clock currentFiles rows0 ord q file snap Hord Hcur Hlat)
    as (added & Hrec & Hq).
  exists added. split; [by eapply appends_reconcile|].
  unfold entriesFor. rewrite Hq, bool_decide_eq_false_2 by done.
  by repeat case_bool_decide.
Qed.

(** C3, as amended. When several deletion candidates share a movement key,
    the new paths of that key consume them first in, first out, in the order
    in which the second loop of the pass visited the candidates (an order Go
    leaves unspecified, not the order of their records): the [i]-th new path
    of the key, in the order of the third loop, is recorded as moved from
    the [i]-th candidate, and as created when there are not that many. *)
Theorem C3_candidates_consumed_in_visiting_order
    clock ord rows0 dataDir currentFiles q file i :
  scanMarkdownFiles dataDir = (currentFiles, None) →
  passOrders ord currentFiles rows0 →
  currentFiles !! q = Some file →
  latestFileSnapshots rows0 !! q = None →
  arrivalsOf (latestFileSnapshots rows0) currentFiles (ordCurrent ord)
    (movementKey (FileHash file) q) !! i = Some q →
  ∃ added, appends clock ord rows0 dataDir added
    ∧ entriesFor q added
      = match candidatesOf (latestFileSnapshots rows0)
                (aliasPathsOf (latestFileSnapshots rows0)) currentFiles
                (ordLatest ord) (movementKey (FileHash file) q) !! i with
        | Some p => [mkSnapshot q (FileHash file) (FileContent file) FileStatusMoved (Some p)]
        | None => [mkSnapshot q (FileHash file) (FileContent file) FileStatusCreated None]
        end.
Proof.
  intros Hscan Hord Hcur Hlat Hi.
  destruct (pass_new clock currentFiles rows0 ord q file i Hord Hcur Hlat Hi)
    as (added & Hrec & Hq & _).
  exists added. split; [by eapply appends_reconcile|].
  unfold entriesFor. rewrite Hq. by case_match.
Qed.

Lemma filter_unique {A : Type} (P : A → Prop) `{!∀ x, Decision (P x)} (l : list A) (x : A) :
  NoDup l → x ∈ l → P x → (∀ y, y ∈ l → P y → y = x) → filter P l = [x].
Proof.
  induction l as [|a l IH]; intros Hnd Hx HP Hall; [by apply elem_of_nil in Hx|].
  apply NoDup_cons in Hnd as [Ha Hnd].
  destruct (decide (P a)) as [HPa | HPa].
  - assert (a = x) as -> by (apply Hall; [by left | done]).
    rewrite filter_cons_True by done. f_equal. apply filter_none.
    intros y Hy HPy. apply Ha. rewrite <- (Hall y); [done | by right | done].
  - rewrite filter_cons_False by done.
    apply IH; [done | | done |].
    + apply elem_of_cons in Hx as [-> | Hx]; done.
    + intros y Hy. apply Hall. by right.
Qed.

(** C1, as amended. When [p] is a deletion candidate, [q] is a path of the
    snapshot never seen before with the hash of the latest entry of [p] and
    the base name of [p], [p] is the only deletion candidate of that movement
    key and [q] the only new path of that key, the pass appends exactly one
    row for [q], a move from [p], and no deletion of [p]. *)
Theorem C1_single_move_is_recorded clock ord rows0 dataDir currentFiles p q snap file :
  scanMarkdownFiles dataDir = (currentFiles, None) →
  passOrders ord currentFiles rows0 →
  latestFileSnapshots rows0 !! p = Some snap →
  Status snap ≠ FileStatusDeleted →
  currentFiles !! p = None →
  p ∉ aliasPathsOf (latestFileSnapshots rows0) →
  latestFileSnapshots rows0 !! q = None →
  currentFiles !! q = Some file →
  FileHash file = Hash snap →
  Filepath.Base q = Filepath.Base p →
  (∀ p', candidateKey (latestFileSnapshots rows0)
           (aliasPathsOf (latestFileSnapshots rows0)) currentFiles p'
         = Some (movementKey (Hash snap) p) → p' = p) →
  (∀ q', arrivalKey (latestFileSnapshots rows0) currentFiles q'
         = Some (movementKey (Hash snap) p) → q' = q) →
  ∃ added, appends clock ord rows0 dataDir added
    ∧ entriesFor q added
      = [mkSnapshot q (FileHash file) (FileContent file) FileStatusMoved (Some p)]
    ∧ moveRecorded p q added.
Proof.
  intros Hscan Hord Hp Hstatus Hgone Halias Hq Hcur Hhash Hbase Hp1 Hq1.
  assert (Hkey : movementKey (FileHash file) q = movementKey (Hash snap) p).
  { unfold movementKey. by rewrite Hhash, Hbase. }
  destruct Hord as (HordL & HordC & HordM).
  assert (Hcands : candidatesOf (latestFileSnapshots rows0)
                     (aliasPathsOf (latestFileSnapshots rows0)) currentFiles
                     (ordLatest ord) (movementKey (FileHash file) q) = [p]).
  { rewrite Hkey. apply filter_unique; [apply HordL | | |].
    - apply HordL. by eexists.
    - by apply candidateKey_intro.
    - intros p' _. apply Hp1. }
  assert (Harr : arrivalsOf (latestFileSnapshots rows0) currentFiles
                   (ordCurrent ord) (movementKey (FileHash file) q) = [q]).
  { rewrite Hkey. apply filter_unique; [apply HordC | | |].
    - apply HordC. by eexists.
    - unfold arrivalKey. by rewrite Hcur, Hq, <- Hkey.
    - intros q' _. apply Hq1. }
  destruct (pass_new clock currentFiles rows0 ord q file 0) as (added & Hrec & Hrows & Hno);
    [done | done | done | by rewrite Harr |].
  rewrite Hcands in Hrows, Hno. simpl in Hrows, Hno.
  exists added. split; [by eapply appends_reconcile|]. split; [done|].
  unfold moveRecorded. unfold entriesFor in Hrows.
  split; [|split].
  - destruct (filter _ added) as [|r [|??]]; try done. by injection Hrows as <- _ _ <- _.
  - destruct (filter _ added) as [|r [|??]]; try done. by injection Hrows as <- _ _ _ <-.
  - apply Forall_forall. intros r Hr [Hpath _]. by apply (Hno p eq_refl r Hr).
Qed.

(** ** Every order of a pass *)

Lemma elem_of_keysOf {V : Type} (m : gmap string V) (k : string) :
  k ∈ keysOf m ↔ is_Some (m !! k).
Proof.
  unfold keysOf. rewrite list_elem_of_fmap. split.
  - intros ([k' v] & -> & Hkv). apply elem_of_map_to_list in Hkv. by eexists.
  - intros [v Hv]. exists (k, v). split; [done|]. by apply elem_of_map_to_list.
Qed.

(** The keys that are not in the map do not count in a visiting order. *)
Lemma rangeMap_filter {V St : Type} ord (m : gmap string V)
    (body : string → V → St → St) st :
  rangeMap ord m body st = rangeMap (filter (λ k, is_Some (m !! k)) ord) m body st.
Proof.
  revert st. induction ord as [|k ord IH]; intros st; [done|].
  rewrite rangeMap_cons. destruct (m !! k) as [v|] eqn:Hk.
  - rewrite filter_cons_True by (by eexists). rewrite rangeMap_cons, Hk. apply IH.
  - rewrite filter_cons_False; [apply IH|]. rewrite Hk. by intros [??].
Qed.

Lemma rangeOrder_permutations {V : Type} ord (m : gmap string V) :
  rangeOrder ord m → filter (λ k, is_Some (m !! k)) ord ∈ permutations (keysOf m).
Proof.
  intros [Hnd Hcov]. apply permutations_Permutation. apply NoDup_Permutation.
  - apply NoDup_fst_map_to_list.
  - by apply NoDup_filter.
  - intros k. rewrite elem_of_keysOf, list_elem_of_filter. naive_solver.
Qed.

Lemma permutations_rangeOrder {V : Type} ord (m : gmap string V) :
  ord ∈ permutations (keysOf m) → rangeOrder ord m.
Proof.
  intros Hp%permutations_Permutation. split.
  - rewrite <- Hp. apply NoDup_fst_map_to_list.
  - intros k Hk. rewrite <- Hp. by apply elem_of_keysOf.
Qed.

Lemma afterClassify_missing_latest clock ordL ordC currentFiles rows0 k :
  is_Some (missing (afterClassify clock ordL ordC currentFiles rows0) !! k) →
  is_Some (latestFileSnapshots rows0 !! k).
Proof.
  intros [snap Hk]. unfold afterClassify in Hk. apply classifyLoop_missing in Hk.
  destruct (afterCollect_spec currentFiles rows0 ordL) as (_ & Hm & _).
  rewrite Hm in Hk. case_bool_decide; [by eexists | done].
Qed.

(** The table after a pass is one of [passOutcomes], and each of them is
    the table after the pass for some order of its loops. *)
Lemma passOutcomes_complete clock ord currentFiles rows0 :
  passOrders ord currentFiles rows0 →
  reconcile clock ord currentFiles rows0 ∈ passOutcomes clock currentFiles rows0.
Proof.
  intros (HL & HC & HM). unfold passOutcomes.
  apply list_elem_of_bind.
  exists (filter (λ k, is_Some (latestFileSnapshots rows0 !! k)) (ordLatest ord)).
  split; [|by apply rangeOrder_permutations].
  apply list_elem_of_bind.
  exists (filter (λ k, is_Some (currentFiles !! k)) (ordCurrent ord)).
  split; [|by apply rangeOrder_permutations].
  assert (Hst : afterClassify clock
                  (filter (λ k, is_Some (latestFileSnapshots rows0 !! k)) (ordLatest ord))
                  (filter (λ k, is_Some (currentFiles !! k)) (ordCurrent ord))
                  currentFiles rows0
                = afterClassify clock (ordLatest ord) (ordCurrent ord) currentFiles rows0).
  { unfold afterClassify, afterCollect. cbn zeta.
    by rewrite <- !rangeMap_filter. }
  cbn zeta. rewrite Hst.
  set (st2 := afterClassify clock (ordLatest ord) (ordCurrent ord) currentFiles rows0).
  apply list_elem_of_bind.
  exists (filter (λ k, is_Some (missing st2 !! k)) (ordMissing ord)). split.
  - apply list_elem_of_singleton. rewrite reconcile_eq. cbn zeta. fold st2.
    apply rangeMap_filter.
  - apply rangeOrder_permutations. split; [apply HM|].
    intros k Hk. apply HM. by eapply afterClassify_missing_latest.
Qed.

Lemma passOutcomes_sound clock currentFiles rows0 rows1 :
  rows1 ∈ passOutcomes clock currentFiles rows0 →
  ∃ ord, rangeOrder (ordLatest ord) (latestFileSnapshots rows0)
         ∧ rangeOrder (ordCurrent ord) currentFiles
         ∧ rangeOrder (ordMissing ord)
             (missing (afterClassify clock (ordLatest ord) (ordCurrent ord)
                         currentFiles rows0))
         ∧ rows1 = reconcile clock ord currentFiles rows0.
Proof.
  unfold passOutcomes.
  intros (ordL & H1 & HL)%list_elem_of_bind.
  apply list_elem_of_bind in H1 as (ordC & H1 & HC). cbn zeta in H1.
  apply list_elem_of_bind in H1 as (ordM & H1 & HM).
  apply list_elem_of_singleton in H1.
  exists (mkOrders ordL ordC ordM). simpl.
  split; [by apply permutations_rangeOrder|].
  split; [by apply permutations_rangeOrder|].
  split; [by apply permutations_rangeOrder|]. done.
Qed.

(** ** Deciding the orders of a pass *)

Lemma rangeOrder_alt {V : Type} ord (m : gmap string V) :
  rangeOrder ord m ↔ NoDup ord ∧ Forall (λ k, k ∈ ord) (keysOf m).
Proof.
  unfold rangeOrder. rewrite Forall_forall. split; intros [Hnd Hcov]; (split; [done|]).
  - intros k Hk. by apply Hcov, elem_of_keysOf.
  - intros k Hk. by apply Hcov, elem_of_keysOf.
Qed.

Global Instance rangeOrder_dec {V : Type} ord (m : gmap string V) :
  Decision (rangeOrder ord m).
Proof.
  refine (cast_if (decide (NoDup ord ∧ Forall (λ k, k ∈ ord) (keysOf m))));
    by rewrite rangeOrder_alt.
Defined.

Global Instance passOrders_dec ord currentFiles rows0 :
  Decision (passOrders ord currentFiles rows0).
Proof. unfold passOrders. apply _. Defined.

Global Instance noDeletionOf_dec p added : Decision (noDeletionOf p added).
Proof. unfold noDeletionOf. apply _. Defined.

Global Instance moveRecorded_dec p q added : Decision (moveRecorded p q added).
Proof. unfold moveRecorded. apply _. Defined.

(** ** The life of a page, pass by pass *)

Lemma scan_life :
  scanMarkdownFiles fsCreated = (curCreated, None)
  ∧ scanMarkdownFiles fsModified = (curModified, None)
  ∧ scanMarkdownFiles fsMoved = (curMoved, None)
  ∧ scanMarkdownFiles fsDeleted = (∅, None)
  ∧ scanMarkdownFiles fsBoth = (curBoth, None).
Proof. repeat split; vm_compute; reflexivity. Qed.

(** Whatever the clock and the orders of the loops, the four passes of the
    life of a page produce the four tables, and a fifth pass on the unchanged
    file system appends a deletion of a.md. *)
Lemma life_outcomes clock :
  Forall (λ rows1, rows1 = rowsCreated clock) (passOutcomes clock curCreated [])
  ∧ Forall (λ rows1, rows1 = rowsModified clock)
      (passOutcomes clock curModified (rowsCreated clock))
  ∧ Forall (λ rows1, rows1 = rowsMoved clock)
      (passOutcomes clock curMoved (rowsModified clock))
  ∧ Forall (λ rows1, rows1 = rowsDeleted clock)
      (passOutcomes clock ∅ (rowsMoved clock))
  ∧ Forall (λ rows1, rows1 = rowsDeleted clock ++ [rowSourceDeleted clock])
      (passOutcomes clock ∅ (rowsDeleted clock)).
Proof. repeat split; vm_compute; repeat constructor. Qed.

Lemma pass_outcome clock ord rows0 dataDir currentFiles rows1 :
  scanMarkdownFiles dataDir = (currentFiles, None) →
  passOrders ord currentFiles rows0 →
  Forall (λ rows, rows = rows1) (passOutcomes clock currentFiles rows0) →
  CaptureFileHistory clock ord (mkIndex (Some rows0)) dataDir = inr (mkIndex (Some rows1)).
Proof.
  intros Hscan Hord Hall. rewrite CaptureFileHistory_reconcile, Hscan. simpl.
  do 3 f_equal. rewrite Forall_forall in Hall. by apply Hall, passOutcomes_complete.
Qed.

(** C2, evaluated. On the table that records a page created at a.md,
    modified and moved to b/a.md, and the file system from which b/a.md is
    gone, the pass appends the deletion of b/a.md; run again with the file
    system unchanged, it appends one more row, the deletion of a.md. This
    holds for every clock and for every order of the loops. *)
Theorem C2_second_pass_appends_a_row clock ord1 ord2 :
  passOrders ord1 ∅ (rowsMoved clock) →
  passOrders ord2 ∅ (rowsDeleted clock) →
  appends clock ord1 (rowsMoved clock) fsDeleted [rowDeleted clock]
  ∧ appends clock ord2 (rowsMoved clock ++ [rowDeleted clock]) fsDeleted
      [rowSourceDeleted clock].
Proof.
  intros Hord1 Hord2. destruct scan_life as (_ & _ & _ & Hscan & _).
  destruct (life_outcomes clock) as (_ & _ & _ & H4 & H5).
  split; unfold appends.
  - by apply (pass_outcome clock ord1 _ _ ∅).
  - by apply (pass_outcome clock ord2 (rowsDeleted clock) _ ∅).
Qed.

Lemma C2_second_pass_appends_a_row_witness :
  passOrders lifeOrders ∅ (rowsMoved exampleClock)
  ∧ passOrders lifeOrders ∅ (rowsDeleted exampleClock)
  ∧ appends exampleClock lifeOrders (rowsMoved exampleClock) fsDeleted
      [rowDeleted exampleClock]
  ∧ appends exampleClock lifeOrders
      (rowsMoved exampleClock ++ [rowDeleted exampleClock]) fsDeleted
      [rowSourceDeleted exampleClock].
Proof.
  assert (H1 : passOrders lifeOrders ∅ (rowsMoved exampleClock)) by compute_done.
  assert (H2 : passOrders lifeOrders ∅ (rowsDeleted exampleClock)) by compute_done.
  split; [exact H1|]. split; [exact H2|].
  exact (C2_second_pass_appends_a_row exampleClock lifeOrders lifeOrders H1 H2).
Defined.

(** ** The claims at concrete inputs *)

(** Closed goals are settled by evaluation: equations by [vm_compute],
    decidable propositions through [bool_decide]. *)
Ltac evaluate :=
  repeat match goal with
         | |- _ ∧ _ => split
         | |- _ = _ => vm_compute; reflexivity
         | |- _ => compute_done
         end.

Lemma arrivalKey_Some latest currentFiles q key :
  arrivalKey latest currentFiles q = Some key →
  ∃ file, currentFiles !! q = Some file ∧ latest !! q = None
          ∧ key = movementKey (FileHash file) q.
Proof.
  unfold arrivalKey. destruct (currentFiles !! q) as [file|]; [|done].
  destruct (latest !! q); [done|]. intros [= <-]. by exists file.
Qed.

Lemma C6_latestFileSnapshots_max_id_per_path_witness :
  NoDup (id <$> rowsDeleted exampleClock)
  ∧ latestFileSnapshots (rowsDeleted exampleClock) !! "a.md"
    = Some (snapshotOfRow (rowModified exampleClock))
  ∧ latestFileSnapshots (rowsDeleted exampleClock) !! "b/a.md"
    = Some (snapshotOfRow (rowDeleted exampleClock)).
Proof.
  assert (Hnd : NoDup (id <$> rowsDeleted exampleClock)) by compute_done.
  split; [exact Hnd|].
  destruct (C6_latestFileSnapshots_max_id_per_path (rowsDeleted exampleClock) Hnd)
    as [_ Hrow].
  split; apply Hrow.
  - exists (rowModified exampleClock). split; [compute_done|].
    split; [done|]. split; [done|]. intros r' Hr' Hp.
    repeat (apply elem_of_cons in Hr' as [-> | Hr']; [by vm_compute|]).
    by apply elem_of_nil in Hr'.
  - exists (rowDeleted exampleClock). split; [compute_done|].
    split; [done|]. split; [done|]. intros r' Hr' Hp.
    repeat (apply elem_of_cons in Hr' as [-> | Hr']; [by vm_compute|]).
    by apply elem_of_nil in Hr'.
Defined.

Lemma C7_reappeared_path_is_created_witness :
  scanMarkdownFiles fsMoved = (curMoved, None)
  ∧ passOrders lifeOrders curMoved (rowsDeleted exampleClock)
  ∧ curMoved !! "b/a.md" = Some (fileOf note2)
  ∧ latestFileSnapshots (rowsDeleted exampleClock) !! "b/a.md"
    = Some (snapshotOfRow (rowDeleted exampleClock))
  ∧ Status (snapshotOfRow (rowDeleted exampleClock)) = FileStatusDeleted
  ∧ ∃ added, appends exampleClock lifeOrders (rowsDeleted exampleClock) fsMoved added
      ∧ entriesFor "b/a.md" added
        = [mkSnapshot "b/a.md" (FileHash (fileOf note2)) (FileContent (fileOf note2))
             FileStatusCreated None].
Proof.
  assert (H1 : scanMarkdownFiles fsMoved = (curMoved, None)) by (vm_compute; reflexivity).
  assert (H2 : passOrders lifeOrders curMoved (rowsDeleted exampleClock)) by compute_done.
  assert (H3 : curMoved !! "b/a.md" = Some (fileOf note2)) by (vm_compute; reflexivity).
  assert (H4 : latestFileSnapshots (rowsDeleted exampleClock) !! "b/a.md"
               = Some (snapshotOfRow (rowDeleted exampleClock)))
    by (vm_compute; reflexivity).
  assert (H5 : Status (snapshotOfRow (rowDeleted exampleClock)) = FileStatusDeleted)
    by reflexivity.
  repeat (split; [assumption|]).
  exact (C7_reappeared_path_is_created exampleClock lifeOrders _ _ _ _ _ _ H1 H2 H3 H4 H5).
Defined.

Lemma C10_reappearance_at_move_source_witness :
  scanMarkdownFiles fsBoth = (curBoth, None)
  ∧ passOrders lifeOrders curBoth (rowsMoved exampleClock)
  ∧ curBoth !! "a.md" = Some (fileOf note1)
  ∧ "a.md" ∈ aliasPathsOf (latestFileSnapshots (rowsMoved exampleClock))
  ∧ latestFileSnapshots (rowsMoved exampleClock) !! "a.md"
    = Some (snapshotOfRow (rowModified exampleClock))
  ∧ Status (snapshotOfRow (rowModified exampleClock)) ≠ FileStatusDeleted
  ∧ ∃ added, appends exampleClock lifeOrders (rowsMoved exampleClock) fsBoth added
      ∧ entriesFor "a.md" added
        = [mkSnapshot "a.md" (hashBytes note1) note1 FileStatusModified None].
Proof.
  assert (H1 : scanMarkdownFiles fsBoth = (curBoth, None)) by (vm_compute; reflexivity).
  assert (H2 : passOrders lifeOrders curBoth (rowsMoved exampleClock)) by compute_done.
  assert (H3 : curBoth !! "a.md" = Some (fileOf note1)) by (vm_compute; reflexivity).
  assert (H4 : "a.md" ∈ aliasPathsOf (latestFileSnapshots (rowsMoved exampleClock)))
    by compute_done.
  assert (H5 : latestFileSnapshots (rowsMoved exampleClock) !! "a.md"
               = Some (snapshotOfRow (rowModified exampleClock)))
    by (vm_compute; reflexivity).
  assert (H6 : Status (snapshotOfRow (rowModified exampleClock)) ≠ FileStatusDeleted)
    by discriminate.
  repeat (split; [assumption|]).
  destruct (C10_reappearance_at_move_source exampleClock lifeOrders _ _ _ _ _ _
              H1 H2 H3 H4 H5 H6) as (added & Happ & Hrows).
  exists added. split; [exact Happ|]. rewrite Hrows. vm_compute. reflexivity.
Defined.

Lemma C1_single_move_is_recorded_witness :
  scanMarkdownFiles fsMoved = (curMoved, None)
  ∧ passOrders lifeOrders curMoved (rowsModified exampleClock)
  ∧ movePremises curMoved (rowsModified exampleClock) "a.md" "b/a.md"
  ∧ ∃ added, appends exampleClock lifeOrders (rowsModified exampleClock) fsMoved added
      ∧ entriesFor "b/a.md" added
        = [mkSnapshot "b/a.md" (FileHash (fileOf note2)) (FileContent (fileOf note2))
             FileStatusMoved (Some "a.md")]
      ∧ moveRecorded "a.md" "b/a.md" added.
Proof.
  assert (H1 : scanMarkdownFiles fsMoved = (curMoved, None)) by (vm_compute; reflexivity).
  assert (H2 : passOrders lifeOrders curMoved (rowsModified exampleClock)) by compute_done.
  assert (H3 : latestFileSnapshots (rowsModified exampleClock) !! "a.md"
               = Some (snapshotOfRow (rowModified exampleClock)))
    by (vm_compute; reflexivity).
  assert (H4 : Status (snapshotOfRow (rowModified exampleClock)) ≠ FileStatusDeleted)
    by discriminate.
  assert (H5 : curMoved !! "a.md" = None) by (vm_compute; reflexivity).
  assert (H6 : "a.md" ∉ aliasPathsOf (latestFileSnapshots (rowsModified exampleClock)))
    by compute_done.
  assert (H7 : latestFileSnapshots (rowsModified exampleClock) !! "b/a.md" = None)
    by (vm_compute; reflexivity).
  assert (H8 : curMoved !! "b/a.md" = Some (fileOf note2)) by (vm_compute; reflexivity).
  assert (H9 : FileHash (fileOf note2) = Hash (snapshotOfRow (rowModified exampleClock)))
    by (vm_compute; reflexivity).
  assert (H10 : Filepath.Base "b/a.md" = Filepath.Base "a.md") by (vm_compute; reflexivity).
  assert (H11 : ∀ p', candidateKey (latestFileSnapshots (rowsModified exampleClock))
                        (aliasPathsOf (latestFileSnapshots (rowsModified exampleClock)))
                        curMoved p'
                      = Some (movementKey (Hash (snapshotOfRow (rowModified exampleClock)))
                                "a.md") → p' = "a.md").
  { intros p' (snap & Hsnap & _)%candidateKey_Some.
    assert (Hin : p' ∈ keysOf (latestFileSnapshots (rowsModified exampleClock)))
      by (apply elem_of_keysOf; by eexists).
    vm_compute in Hin. by apply list_elem_of_singleton in Hin. }
  assert (H12 : ∀ q', arrivalKey (latestFileSnapshots (rowsModified exampleClock)) curMoved q'
                      = Some (movementKey (Hash (snapshotOfRow (rowModified exampleClock)))
                                "a.md") → q' = "b/a.md").
  { intros q' (file & Hfile & _)%arrivalKey_Some.
    assert (Hin : q' ∈ keysOf curMoved) by (apply elem_of_keysOf; by eexists).
    vm_compute in Hin. by apply list_elem_of_singleton in Hin. }
  split; [exact H1|]. split; [exact H2|]. split.
  { exists (snapshotOfRow (rowModified exampleClock)), (fileOf note2).
    repeat (split; [assumption|]). assumption. }
  exact (C1_single_move_is_recorded exampleClock lifeOrders _ _ _ _ _ _ _
           H1 H2 H3 H4 H5 H6 H7 H8 H9 H10 H11 H12).
Defined.

Lemma C3_candidates_consumed_in_visiting_order_witness :
  scanMarkdownFiles fsThird = (curThird, None)
  ∧ passOrders twinOrdersYX curThird rowsTwins
  ∧ curThird !! "z/a.md" = Some (fileOf note1)
  ∧ latestFileSnapshots rowsTwins !! "z/a.md" = None
  ∧ arrivalsOf (latestFileSnapshots rowsTwins) curThird (ordCurrent twinOrdersYX)
      (movementKey (FileHash (fileOf note1)) "z/a.md") !! 0 = Some "z/a.md"
  ∧ candidatesOf (latestFileSnapshots rowsTwins) (aliasPathsOf (latestFileSnapshots rowsTwins))
      curThird (ordLatest twinOrdersYX) (movementKey (FileHash (fileOf note1)) "z/a.md")
    = ["y/a.md"; "x/a.md"]
  ∧ ∃ added, appends exampleClock twinOrdersYX rowsTwins fsThird added
      ∧ entriesFor "z/a.md" added
        = [mkSnapshot "z/a.md" (hashBytes note1) note1 FileStatusMoved (Some "y/a.md")].
Proof.
  assert (H1 : scanMarkdownFiles fsThird = (curThird, None)) by (vm_compute; reflexivity).
  assert (H2 : passOrders twinOrdersYX curThird rowsTwins) by compute_done.
  assert (H3 : curThird !! "z/a.md" = Some (fileOf note1)) by (vm_compute; reflexivity).
  assert (H4 : latestFileSnapshots rowsTwins !! "z/a.md" = None) by (vm_compute; reflexivity).
  assert (H5 : arrivalsOf (latestFileSnapshots rowsTwins) curThird (ordCurrent twinOrdersYX)
                 (movementKey (FileHash (fileOf note1)) "z/a.md") !! 0 = Some "z/a.md")
    by (vm_compute; reflexivity).
  assert (H6 : candidatesOf (latestFileSnapshots rowsTwins)
                 (aliasPathsOf (latestFileSnapshots rowsTwins))
                 curThird (ordLatest twinOrdersYX)
                 (movementKey (FileHash (fileOf note1)) "z/a.md")
               = ["y/a.md"; "x/a.md"])
    by (vm_compute; reflexivity).
  repeat (split; [assumption|]).
  destruct (C3_candidates_consumed_in_visiting_order exampleClock twinOrdersYX _ _ _ _ _ _
              H1 H2 H3 H4 H5) as (added & Happ & Hrows).
  exists added. split; [exact Happ|]. rewrite Hrows, H6. reflexivity.
Defined.

(** C1 fails as stated, twice over. With two deletion candidates of one
    movement key, x/a.md and y/a.md, and one new path z/a.md of that key, the
    premises of the claim hold for both candidates, but the row of z/a.md
    names only the candidate the second loop visited first, and the other is
    recorded as deleted: whichever order Go picks, the claim fails for one
    of the two. With one candidate a.md and two new paths b/a.md and c/a.md
    of its key, the path the third loop visits second is recorded as
    created. *)
Lemma C1_counterexample :
  (scanMarkdownFiles fsThird = (curThird, None)
   ∧ passOrders twinOrdersXY curThird rowsTwins
   ∧ movePremises curThird rowsTwins "y/a.md" "z/a.md"
   ∧ ∃ added, appends exampleClock twinOrdersXY rowsTwins fsThird added
       ∧ ¬ moveRecorded "y/a.md" "z/a.md" added)
  ∧ (passOrders twinOrdersYX curThird rowsTwins
     ∧ movePremises curThird rowsTwins "x/a.md" "z/a.md"
     ∧ ∃ added, appends exampleClock twinOrdersYX rowsTwins fsThird added
         ∧ ¬ moveRecorded "x/a.md" "z/a.md" added)
  ∧ (scanMarkdownFiles fsCopies = (curCopies, None)
     ∧ passOrders copyOrders curCopies (rowsCreated exampleClock)
     ∧ movePremises curCopies (rowsCreated exampleClock) "a.md" "c/a.md"
     ∧ ∃ added, appends exampleClock copyOrders (rowsCreated exampleClock) fsCopies added
         ∧ ¬ moveRecorded "a.md" "c/a.md" added).
Proof.
  split; [|split].
  - split; [vm_compute; reflexivity|]. split; [compute_done|]. split.
    + exists (snapshotOfRow (mkRow 2 "y/a.md" (hashBytes note1) note1 FileStatusCreated
                               None "2025-01-01 00:00:05")), (fileOf note1).
      evaluate.
    + exists (newRows rowsTwins (reconcile exampleClock twinOrdersXY curThird rowsTwins)).
      split; [vm_compute; reflexivity | compute_done].
  - split; [compute_done|]. split.
    + exists (snapshotOfRow (mkRow 1 "x/a.md" (hashBytes note1) note1 FileStatusCreated
                               None "2025-01-01 00:00:00")), (fileOf note1).
      evaluate.
    + exists (newRows rowsTwins (reconcile exampleClock twinOrdersYX curThird rowsTwins)).
      split; [vm_compute; reflexivity | compute_done].
  - split; [vm_compute; reflexivity|]. split; [compute_done|]. split.
    + exists (snapshotOfRow (rowCreated exampleClock)), (fileOf note1).
      evaluate.
    + exists (newRows (rowsCreated exampleClock)
                (reconcile exampleClock copyOrders curCopies (rowsCreated exampleClock))).
      split; [vm_compute; reflexivity | compute_done].
Qed.

(** C3 fails as stated. The entry of x/a.md (id 1) was recorded before the
    entry of y/a.md (id 2); both are deletion candidates of one movement
    key. When the second loop visits y/a.md first, the new path z/a.md of
    that key is recorded as moved from y/a.md. *)
Lemma C3_counterexample :
  scanMarkdownFiles fsThird = (curThird, None)
  ∧ passOrders twinOrdersYX curThird rowsTwins
  ∧ movePremises curThird rowsTwins "x/a.md" "z/a.md"
  ∧ movePremises curThird rowsTwins "y/a.md" "z/a.md"
  ∧ id <$> filter (λ r, path r = "x/a.md") rowsTwins = [1%Z]
  ∧ id <$> filter (λ r, path r = "y/a.md") rowsTwins = [2%Z]
  ∧ ∃ added, appends exampleClock twinOrdersYX rowsTwins fsThird added
      ∧ entriesFor "z/a.md" added
        = [mkSnapshot "z/a.md" (hashBytes note1) note1 FileStatusMoved (Some "y/a.md")].
Proof.
  split; [vm_compute; reflexivity|]. split; [compute_done|]. split; [|split].
  - exists (snapshotOfRow (mkRow 1 "x/a.md" (hashBytes note1) note1 FileStatusCreated
                             None "2025-01-01 00:00:00")), (fileOf note1).
    evaluate.
  - exists (snapshotOfRow (mkRow 2 "y/a.md" (hashBytes note1) note1 FileStatusCreated
                             None "2025-01-01 00:00:05")), (fileOf note1).
    evaluate.
  - split; [vm_compute; reflexivity|]. split; [vm_compute; reflexivity|].
    exists (newRows rowsTwins (reconcile exampleClock twinOrdersYX curThird rowsTwins)).
    split; vm_compute; reflexivity.
Qed.

(** ** Sorting a slice *)

Section sortSlice.
Context {A : Type} (less : A → A → bool).

Lemma insertBy_Permutation x l : insertBy less x l ≡ₚ x :: l.
Proof.
  induction l as [|y l IH]; simpl; [done|].
  destruct (less x y); [done|]. by rewrite IH, Permutation_swap.
Qed.

Lemma sortSlice_Permutation l : sortSlice less l ≡ₚ l.
Proof.
  induction l as [|x l IH]; simpl; [done|].
  by rewrite insertBy_Permutation, IH.
Qed.

Lemma sortSlice_length l : length (sortSlice less l) = length l.
Proof. by rewrite sortSlice_Permutation. Qed.

Hypothesis less_trans : ∀ x y z, less x y = true → less y z = true → less x z = true.

Lemma insertBy_sorted x l :
  (∀ y, y ∈ l → less x y = true ∨ less y x = true) →
  StronglySorted (λ a b, less a b = true) l →
  StronglySorted (λ a b, less a b = true) (insertBy less x l).
Proof.
  intros Htot Hl. induction Hl as [|y l Hl IH Hy]; simpl.
  - repeat constructor.
  - destruct (less x y) eqn:Hxy.
    + constructor; [by constructor|]. constructor; [done|].
      eapply Forall_impl; [exact Hy|]. intros z Hz. by eapply less_trans.
    + constructor.
      * apply IH. intros z Hz. apply Htot. by right.
      * rewrite insertBy_Permutation. constructor; [|done].
        destruct (Htot y) as [Hc | Hc]; [by left | congruence | done].
Qed.

(** The sorted slice is strictly ordered by [less] when [less] compares any
    two elements at different places of the slice. *)
Lemma sortSlice_sorted l :
  (∀ i j x y, l !! i = Some x → l !! j = Some y → i ≠ j →
     less x y = true ∨ less y x = true) →
  StronglySorted (λ a b, less a b = true) (sortSlice less l).
Proof.
  induction l as [|x l IH]; intros Htot; simpl; [constructor|].
  apply insertBy_sorted.
  - intros y Hy. rewrite sortSlice_Permutation in Hy.
    apply list_elem_of_lookup in Hy as [j Hj].
    by apply (Htot 0 (S j)).
  - apply IH. intros i j a b Hi Hj Hne. by apply (Htot (S i) (S j)); [..|lia].
Qed.

Hypothesis less_asym : ∀ x y, less x y = true → less y x = true → False.

(** A slice has one strictly sorted arrangement: whatever the sorting
    algorithm, [sort.Slice] returns it. *)
Lemma sorted_permutation_unique l l' :
  StronglySorted (λ a b, less a b = true) l' → l' ≡ₚ l →
  StronglySorted (λ a b, less a b = true) (sortSlice less l) →
  sortSlice less l = l'.
Proof.
  intros Hl' Hperm Hsorted.
  apply (StronglySorted_unique_strong (λ a b, less a b = true)); [|done..|].
  - intros x1 x2 _ _ H1 H2. by destruct (less_asym x1 x2).
  - by rewrite sortSlice_Permutation.
Qed.
End sortSlice.

(** ** The order of the entries *)

Lemma entryLess_spec e1 e2 :
  entryLess e1 e2 = true ↔
  (Time.absSec (RecordedAt e2) < Time.absSec (RecordedAt e1)
   ∨ Time.absSec (RecordedAt e2) = Time.absSec (RecordedAt e1)
     ∧ (Time.nsec (RecordedAt e2) < Time.nsec (RecordedAt e1)
        ∨ Time.nsec (RecordedAt e2) = Time.nsec (RecordedAt e1) ∧ ID e2 < ID e1))%Z.
Proof.
  unfold entryLess, Time.Equal, Time.After.
  destruct (Z.eqb_spec (Time.absSec (RecordedAt e1)) (Time.absSec (RecordedAt e2)));
    destruct (Z.eqb_spec (Time.nsec (RecordedAt e1)) (Time.nsec (RecordedAt e2)));
    destruct (Z.ltb_spec (Time.absSec (RecordedAt e2)) (Time.absSec (RecordedAt e1)));
    destruct (Z.ltb_spec (Time.nsec (RecordedAt e2)) (Time.nsec (RecordedAt e1)));
    destruct (Z.ltb_spec (ID e2) (ID e1)); simpl; split; try done; lia.
Qed.

Lemma entryLess_trans e1 e2 e3 :
  entryLess e1 e2 = true → entryLess e2 e3 = true → entryLess e1 e3 = true.
Proof. rewrite !entryLess_spec. lia. Qed.

Lemma entryLess_asym e1 e2 : entryLess e1 e2 = true → entryLess e2 e1 = true → False.
Proof. rewrite !entryLess_spec. lia. Qed.

Lemma entryLess_total e1 e2 :
  ID e1 ≠ ID e2 → entryLess e1 e2 = true ∨ entryLess e2 e1 = true.
Proof. rewrite !entryLess_spec. lia. Qed.

(** ** The loop of the resolver *)

Lemma elem_of_queryHistory rows current r :
  r ∈ queryHistory rows current ↔
  r ∈ rows ∧ (path r = current ∨ previous_path r = Some current).
Proof.
  unfold queryHistory. rewrite sortSlice_Permutation, list_elem_of_filter. tauto.
Qed.

Lemma queryHistory_length rows current :
  length (queryHistory rows current) ≤ length rows.
Proof. unfold queryHistory. rewrite sortSlice_length. apply length_filter. Qed.

Lemma scanRow_visited st r : visited (scanRow st r) = visited st.
Proof. unfold scanRow. by case_bool_decide. Qed.

Lemma scanRows_visited st l : visited (foldl scanRow st l) = visited st.
Proof.
  revert st. induction l as [|r l IH]; intros st; simpl; [done|].
  by rewrite IH, scanRow_visited.
Qed.

Lemma scanRow_queue st r :
  queue (scanRow st r) =
  queue st ++ match previous_path r with
              | Some prev => if bool_decide (prev ∈ visited st) then [] else [prev]
              | None => []
              end.
Proof.
  unfold scanRow. destruct (previous_path r) as [prev|];
    repeat case_bool_decide; simpl; by rewrite ?app_nil_r.
Qed.

(** What scanning the rows [l] adds to the queue: previous paths of rows of
    [l] that are not visited, at most one per row, and each of those that
    is not visited. *)
Lemma scanRows_queue st l :
  ∃ added, queue (foldl scanRow st l) = queue st ++ added
    ∧ length added ≤ length l
    ∧ (∀ q, q ∈ added → (q ∉ visited st) ∧ ∃ r, r ∈ l ∧ previous_path r = Some q)
    ∧ (∀ r q, r ∈ l → previous_path r = Some q → q ∈ visited st ∨ q ∈ added).
Proof.
  induction l as [|r l IH] using rev_ind.
  - exists []. simpl. rewrite app_nil_r. split; [done|]. split; [done|].
    split; [by intros q ?%elem_of_nil | by intros r q ?%elem_of_nil].
  - destruct IH as (added & Hq & Hlen & Hin & Hall).
    rewrite foldl_app. simpl. rewrite scanRow_queue, Hq, scanRows_visited.
    set (new := match previous_path r with
                | Some prev => if bool_decide (prev ∈ visited st) then [] else [prev]
                | None => []
                end).
    assert (Hnew : length new ≤ 1).
    { unfold new. destruct (previous_path r); [case_bool_decide|]; simpl; lia. }
    exists (added ++ new). rewrite app_assoc, !length_app. simpl.
    split; [done|]. split; [lia|]. split.
    + intros q [Hq' | Hq']%elem_of_app.
      * destruct (Hin q Hq') as (Hv & r' & Hr' & Hp). split; [done|].
        exists r'. split; [apply elem_of_app; by left | done].
      * unfold new in Hq'. destruct (previous_path r) as [prev|] eqn:Hp;
          [|by apply elem_of_nil in Hq'].
        case_bool_decide as Hv; [by apply elem_of_nil in Hq'|].
        apply list_elem_of_singleton in Hq' as ->. split; [done|].
        exists r. split; [apply elem_of_app; right; by left | done].
    + intros r' q [Hr' | ->%list_elem_of_singleton]%elem_of_app Hp.
      * destruct (Hall r' q Hr' Hp) as [? | ?]; [by left|].
        right. apply elem_of_app. by left.
      * unfold new. rewrite Hp. case_bool_decide; [by left|].
        right. apply elem_of_app. right. by left.
Qed.

Lemma scanRow_entries st r :
  seenIDs st = list_to_set (ID <$> entries st) →
  NoDup (ID <$> entries st) →
  seenIDs (scanRow st r) = list_to_set (ID <$> entries (scanRow st r))
  ∧ NoDup (ID <$> entries (scanRow st r))
  ∧ id r ∈ seenIDs (scanRow st r)
  ∧ seenIDs st ⊆ seenIDs (scanRow st r)
  ∧ ∃ es, entries (scanRow st r) = entries st ++ es ∧ ∀ e, e ∈ es → e = entryOfRow r.
Proof.
  intros Hseen Hnd. unfold scanRow. case_bool_decide as Hid; simpl.
  - split; [done|]. split; [done|]. split; [done|]. split; [done|].
    exists []. rewrite app_nil_r. split; [done|]. by intros e ?%elem_of_nil.
  - rewrite fmap_app, list_to_set_app_L. simpl. split; [set_solver|]. split.
    + apply NoDup_app. split; [done|]. split; [|apply NoDup_singleton].
      intros i Hi ->%list_elem_of_singleton. apply Hid. rewrite Hseen.
      by apply elem_of_list_to_set.
    + split; [set_solver|]. split; [set_solver|].
      eexists. split; [done|]. by intros e ->%list_elem_of_singleton.
Qed.

Lemma scanRows_entries st l :
  seenIDs st = list_to_set (ID <$> entries st) →
  NoDup (ID <$> entries st) →
  seenIDs (foldl scanRow st l) = list_to_set (ID <$> entries (foldl scanRow st l))
  ∧ NoDup (ID <$> entries (foldl scanRow st l))
  ∧ (∀ r, r ∈ l → id r ∈ seenIDs (foldl scanRow st l))
  ∧ seenIDs st ⊆ seenIDs (foldl scanRow st l)
  ∧ ∃ es, entries (foldl scanRow st l) = entries st ++ es
          ∧ ∀ e, e ∈ es → ∃ r, r ∈ l ∧ e = entryOfRow r.
Proof.
  intros Hseen Hnd. induction l as [|r l IH] using rev_ind.
  - simpl. split; [done|]. split; [done|]. split; [by intros r ?%elem_of_nil|].
    split; [done|]. exists []. rewrite app_nil_r. split; [done|].
    by intros e ?%elem_of_nil.
  - destruct IH as (IH1 & IH2 & IH3 & IH4 & es & IH5 & IH6).
    rewrite foldl_app. simpl.
    destruct (scanRow_entries (foldl scanRow st l) r IH1 IH2)
      as (H1 & H2 & H3 & H4 & es' & H5 & H6).
    split; [done|]. split; [done|]. split; [|split].
    + intros r' [Hr' | ->%list_elem_of_singleton]%elem_of_app; [|done].
      apply H4. by apply IH3.
    + set_solver.
    + exists (es ++ es'). rewrite H5, IH5, app_assoc. split; [done|].
      intros e [He | He]%elem_of_app.
      * destruct (IH6 e He) as (r' & Hr' & ->). exists r'.
        split; [apply elem_of_app; by left | done].
      * exists r. split; [apply elem_of_app; right; by left | by apply H6].
Qed.

Lemma elem_of_prevPaths rows r q :
  r ∈ rows → previous_path r = Some q → q ∈ prevPaths rows.
Proof.
  intros Hr Hq. unfold prevPaths. apply elem_of_list_to_set, list_elem_of_omap. eauto.
Qed.

Lemma visitPath_inv rows seeds st current queue' :
  loopInv rows seeds st → queue st = current :: queue' →
  loopInv rows seeds (visitPath rows st current queue').
Proof.
  intros [Hsound Hnd Hseen Hcomp Hchain Hseeds] Hq. unfold visitPath.
  rewrite Hq in Hchain, Hseeds.
  case_bool_decide as Hv.
  - constructor; simpl; try done.
    + intros e q He Hp. destruct (Hchain e q He Hp) as [? | [-> | ?]%elem_of_cons]; auto.
    + intros c Hc. destruct (Hseeds c Hc) as [? | [-> | ?]%elem_of_cons]; auto.
  - set (st1 := mkWalk ({[current]} ∪ visited st) queue' (seenIDs st) (entries st)).
    destruct (scanRows_queue st1 (queryHistory rows current))
      as (added & Hqueue & _ & _ & Hall).
    destruct (scanRows_entries st1 (queryHistory rows current) Hseen Hnd)
      as (Hseen' & Hnd' & Hids & Hsub & es & Hes & Hes').
    constructor.
    + intros e. rewrite Hes. intros [He | He]%elem_of_app; [by apply Hsound|].
      destruct (Hes' e He) as (r & [Hr _]%elem_of_queryHistory & ->). eauto.
    + done.
    + done.
    + intros c r. rewrite scanRows_visited. simpl.
      intros [->%elem_of_singleton | Hc]%elem_of_union Hr Hmatch.
      * apply Hids. by apply elem_of_queryHistory.
      * apply Hsub. simpl. by apply (Hcomp c r).
    + intros e q. rewrite Hes, scanRows_visited, Hqueue. simpl.
      intros [He | He]%elem_of_app Hp.
      * destruct (Hchain e q He Hp) as [? | [-> | ?]%elem_of_cons].
        -- left. set_solver.
        -- left. set_solver.
        -- right. apply elem_of_app. by left.
      * destruct (Hes' e He) as (r & Hr & ->). simpl in Hp.
        destruct (Hall r q Hr Hp) as [? | ?]; [by left|].
        right. apply elem_of_app. by right.
    + intros c Hc. rewrite scanRows_visited, Hqueue. simpl.
      destruct (Hseeds c Hc) as [? | [-> | ?]%elem_of_cons].
      * left. set_solver.
      * left. set_solver.
      * right. apply elem_of_app. by left.
Qed.

Lemma visitPath_measure rows st current queue' :
  queue st = current :: queue' →
  loopMeasure rows (visitPath rows st current queue') < loopMeasure rows st.
Proof.
  intros Hq. unfold loopMeasure, visitPath. rewrite Hq.
  case_bool_decide as Hv; simpl.
  - assert (size ((prevPaths rows ∪ list_to_set queue') ∖ visited st)
            ≤ size ((prevPaths rows ∪ ({[current]} ∪ list_to_set queue')) ∖ visited st))
      by (apply subseteq_size; set_solver).
    nia.
  - set (st1 := mkWalk ({[current]} ∪ visited st) queue' (seenIDs st) (entries st)).
    destruct (scanRows_queue st1 (queryHistory rows current))
      as (added & Hqueue & Hlen & Hin & _).
    rewrite scanRows_visited, Hqueue. simpl. rewrite length_app.
    pose proof (queryHistory_length rows current) as Hlen'.
    set (U := (prevPaths rows ∪ ({[current]} ∪ list_to_set queue')) ∖ visited st).
    assert (Hadded : (list_to_set added : gset string) ⊆ prevPaths rows).
    { intros q Hq'%elem_of_list_to_set. destruct (Hin q Hq') as (_ & r & Hr & Hp).
      apply elem_of_queryHistory in Hr as [Hr _]. by eapply elem_of_prevPaths. }
    assert (Hsub : (prevPaths rows ∪ list_to_set (queue' ++ added))
                     ∖ ({[current]} ∪ visited st) ⊆ U ∖ {[current]}).
    { rewrite list_to_set_app_L. unfold U. set_solver. }
    apply subseteq_size in Hsub.
    assert (Hc : {[current]} ⊆ U) by (unfold U; set_solver).
    rewrite (size_difference U {[current]} Hc), size_singleton in Hsub.
    assert (1 ≤ size U).
    { apply subseteq_size in Hc. by rewrite size_singleton in Hc. }
    nia.
Qed.

Lemma historyLoop_terminates rows fuel st :
  loopMeasure rows st < fuel → is_Some (historyLoop fuel rows st).
Proof.
  revert st. induction fuel as [|fuel IH]; intros st Hm; [lia|].
  simpl. destruct (queue st) as [|current queue'] eqn:Hq; [by eexists|].
  apply IH. pose proof (visitPath_measure rows st current queue' Hq). lia.
Qed.

Lemma historyLoop_inv rows seeds fuel st st' :
  loopInv rows seeds st → historyLoop fuel rows st = Some st' →
  loopInv rows seeds st' ∧ queue st' = [].
Proof.
  revert st. induction fuel as [|fuel IH]; intros st Hinv; simpl;
    destruct (queue st) as [|current queue'] eqn:Hq; try done.
  - by intros [= <-].
  - by intros [= <-].
  - apply IH. by apply visitPath_inv.
Qed.

Lemma historyLoop_mono rows fuel fuel' st st' :
  historyLoop fuel rows st = Some st' → fuel ≤ fuel' →
  historyLoop fuel' rows st = Some st'.
Proof.
  revert fuel' st. induction fuel as [|fuel IH]; intros fuel' st; simpl;
    destruct (queue st) as [|current queue'] eqn:Hq; try done.
  - intros [= <-] _. destruct fuel'; simpl; by rewrite Hq.
  - intros [= <-] _. destruct fuel'; simpl; by rewrite Hq.
  - intros H Hle. destruct fuel' as [|fuel']; [lia|]. simpl. rewrite Hq.
    apply IH; [done | lia].
Qed.

Lemma size_list_to_set_le (l : list string) : size (list_to_set l : gset string) ≤ length l.
Proof.
  induction l as [|x l IH]; [by rewrite list_to_set_nil, size_empty|].
  rewrite list_to_set_cons, size_union_alt, size_singleton. simpl.
  assert (size ((list_to_set l : gset string) ∖ {[x]}) ≤ size (list_to_set l : gset string))
    by (apply subseteq_size; set_solver).
  lia.
Qed.

Lemma historyFuel_enough rows seeds :
  loopMeasure rows (mkWalk ∅ seeds ∅ []) < historyFuel rows seeds.
Proof.
  unfold loopMeasure, historyFuel. simpl.
  assert (size ((prevPaths rows ∪ list_to_set seeds) ∖ (∅ : gset string))
          ≤ length rows + length seeds).
  { assert (H1 : size ((prevPaths rows ∪ list_to_set seeds) ∖ (∅ : gset string))
                 ≤ size (prevPaths rows ∪ list_to_set seeds))
      by (apply subseteq_size; set_solver).
    pose proof (size_union_alt (C:=gset string) (prevPaths rows) (list_to_set seeds)) as H0.
    assert (H2 : size ((list_to_set seeds : gset string) ∖ prevPaths rows)
                 ≤ size (list_to_set seeds : gset string))
      by (apply subseteq_size; set_solver).
    pose proof (size_list_to_set_le seeds) as H3.
    assert (H4 : size (prevPaths rows) ≤ length rows).
    { unfold prevPaths. pose proof (size_list_to_set_le (omap previous_path rows)) as H4.
      assert (length (omap previous_path rows) ≤ length rows); [|lia].
      clear. induction rows as [|r rows IH]; [done|].
      unfold omap in *. simpl. destruct (previous_path r); simpl; lia. }
    lia. }
  nia.
Qed.

Lemma loopInv_init rows seeds : loopInv rows seeds (mkWalk ∅ seeds ∅ []).
Proof.
  constructor; simpl.
  - intros e He. by apply elem_of_nil in He.
  - constructor.
  - done.
  - intros c r Hc. set_solver.
  - intros e q He. by apply elem_of_nil in He.
  - intros c Hc. by right.
Qed.

(** ** The resolver *)

(** [GetHistoryForPath] on an open index returns: the loop empties its
    queue within its fuel, and the entries it collected, which have distinct
    ids, are returned in the strict order of the final sort. *)
Lemma GetHistoryForPath_spec s rows p :
  db s = Some rows →
  ∃ st, historyLoop (historyFuel rows (seedHistoryPaths p)) rows
          (mkWalk ∅ (seedHistoryPaths p) ∅ []) = Some st
    ∧ loopInv rows (seedHistoryPaths p) st
    ∧ queue st = []
    ∧ GetHistoryForPath s p = inr (sortSlice entryLess (entries st))
    ∧ StronglySorted entryBefore (sortSlice entryLess (entries st)).
Proof.
  intros Hdb. unfold GetHistoryForPath. rewrite Hdb. cbn zeta.
  destruct (historyLoop_terminates rows (historyFuel rows (seedHistoryPaths p))
              (mkWalk ∅ (seedHistoryPaths p) ∅ [])) as [st Hst];
    [apply historyFuel_enough|].
  destruct (historyLoop_inv rows (seedHistoryPaths p) _ _ st
              (loopInv_init rows (seedHistoryPaths p)) Hst) as [Hinv Hq].
  exists st. rewrite Hst. split; [done|]. split; [done|]. split; [done|].
  split; [done|].
  apply sortSlice_sorted; [apply entryLess_trans|].
  intros i j x y Hi Hj Hne. apply entryLess_total. intros Hid. apply Hne.
  eapply (NoDup_lookup (ID <$> entries st)); [apply Hinv | |].
  - rewrite list_lookup_fmap, Hi. done.
  - rewrite list_lookup_fmap, Hj. simpl. by rewrite Hid.
Qed.






(** ** Queries in route form *)

Section dead.
Variable rows : list Row.
Variable dead : gset string.
Hypothesis Hdead : deadPaths rows dead.

Lemma queryHistory_dead c : c ∈ dead → queryHistory rows c = [].
Proof.
  intros Hc. unfold queryHistory. rewrite filter_none; [done|].
  intros r Hr [Hp | Hp]; destruct (Hdead r Hr) as [H1 H2].
  - by rewrite Hp in H1.
  - by apply (H2 c).
Qed.

Lemma scanRow_sameButDead st st' r :
  r ∈ rows → sameButDead dead st st' → sameButDead dead (scanRow st r) (scanRow st' r).
Proof.
  intros Hr (Hq & Hv & Hs & He). destruct (Hdead r Hr) as [_ Hprev].
  unfold sameButDead. rewrite !scanRow_visited, !scanRow_queue.
  split; [|split; [done|]].
  - rewrite filter_app, Hq. f_equal.
    destruct (previous_path r) as [prev|]; [|done].
    specialize (Hprev prev eq_refl).
    destruct (decide (prev ∈ visited st)) as [Hin | Hin].
    + assert (Hin' : prev ∈ visited st') by (by apply Hv).
      by rewrite !bool_decide_eq_true_2.
    + assert (Hin' : prev ∉ visited st') by (by rewrite <- Hv).
      rewrite !bool_decide_eq_false_2 by done. by rewrite filter_cons_True.
  - unfold scanRow. rewrite Hs, He. by case_bool_decide.
Qed.

Lemma scanRows_sameButDead st st' l :
  (∀ r, r ∈ l → r ∈ rows) → sameButDead dead st st' →
  sameButDead dead (foldl scanRow st l) (foldl scanRow st' l).
Proof.
  revert st st'. induction l as [|r l IH]; intros st st' Hl Hsim; [done|].
  simpl. apply IH; [intros r' Hr'; apply Hl; by right|].
  apply scanRow_sameButDead; [apply Hl; by left | done].
Qed.

(** The loop reaches the same entries from both states, in as many
    iterations or fewer from the second. *)
Lemma historyLoop_sameButDead fuel st st' res :
  sameButDead dead st st' → historyLoop fuel rows st = Some res →
  ∃ res', historyLoop fuel rows st' = Some res' ∧ sameButDead dead res res'.
Proof.
  revert st st'. induction fuel as [|fuel IH]; intros st st' Hsim; simpl.
  - destruct Hsim as (Hq & Hrest). destruct (queue st) as [|c q] eqn:Hqueue; [|done].
    intros [= <-]. simpl in Hq. rewrite Hq. exists st'. split; [done|].
    unfold sameButDead. by rewrite Hq, Hqueue.
  - pose proof Hsim as (Hq & Hv & Hs & He).
    destruct (queue st) as [|c q] eqn:Hqueue.
    { intros [= <-]. simpl in Hq. rewrite Hq. exists st'. split; [done|].
      unfold sameButDead. by rewrite Hq, Hqueue. }
    intros Hres. destruct (decide (c ∈ dead)) as [Hc | Hc].
    + rewrite filter_cons_False in Hq by (by intros ?).
      assert (Hsim' : sameButDead dead (visitPath rows st c q) st').
      { unfold visitPath. case_bool_decide.
        - by split.
        - rewrite queryHistory_dead by done. simpl. split; [done|]. split; [|done].
          simpl. intros c' Hc'. rewrite <- Hv by done. set_solver. }
      destruct (IH _ _ Hsim' Hres) as (res' & Hres' & Hfinal).
      exists res'. split; [|done].
      apply (historyLoop_mono rows fuel (S fuel)); [done | lia].
    + rewrite filter_cons_True in Hq by done. rewrite Hq.
      eapply IH; [|exact Hres]. unfold visitPath.
      destruct (decide (c ∈ visited st)) as [Hin | Hin].
      * assert (Hin' : c ∈ visited st') by (by apply Hv).
        rewrite !bool_decide_eq_true_2 by done. by split.
      * assert (Hin' : c ∉ visited st') by (by rewrite <- Hv).
        rewrite !bool_decide_eq_false_2 by done.
        apply scanRows_sameButDead; [by intros r [Hr _]%elem_of_queryHistory|].
        split; [done|]. split; [|by split]. simpl. intros c' Hc'.
        rewrite !elem_of_union. by rewrite Hv.
Qed.

(** Seeds that differ by dead paths only give the same history. *)
Lemma history_dead_seeds s seeds1 seeds2 p1 p2 :
  db s = Some rows →
  seedHistoryPaths p1 = seeds1 → seedHistoryPaths p2 = seeds2 →
  filter (λ c, c ∉ dead) seeds1 = filter (λ c, c ∉ dead) seeds2 →
  GetHistoryForPath s p1 = GetHistoryForPath s p2.
Proof.
  intros Hdb Hs1 Hs2 Hfilter.
  destruct (GetHistoryForPath_spec s rows p1 Hdb) as (st1 & Hst1 & _ & _ & -> & _).
  destruct (GetHistoryForPath_spec s rows p2 Hdb) as (st2 & Hst2 & _ & _ & -> & _).
  rewrite Hs1 in Hst1. rewrite Hs2 in Hst2.
  set (f1 := historyFuel rows seeds1) in *. set (f2 := historyFuel rows seeds2) in *.
  set (live := mkWalk ∅ (filter (λ c, c ∉ dead) seeds1) ∅ []).
  assert (Hsim1 : sameButDead dead (mkWalk ∅ seeds1 ∅ []) live) by done.
  assert (Hsim2 : sameButDead dead (mkWalk ∅ seeds2 ∅ []) live).
  { unfold live. rewrite Hfilter. done. }
  destruct (historyLoop_sameButDead _ _ _ _ Hsim1 Hst1) as (r1 & Hr1 & (_ & _ & _ & He1)).
  destruct (historyLoop_sameButDead _ _ _ _ Hsim2 Hst2) as (r2 & Hr2 & (_ & _ & _ & He2)).
  apply (historyLoop_mono rows f1 (f1 + f2)) in Hr1; [|lia].
  apply (historyLoop_mono rows f2 (f1 + f2)) in Hr2; [|lia].
  rewrite Hr1 in Hr2. injection Hr2 as <-. by rewrite He1, He2.
Qed.
End dead.

Lemma append_cons a s1 s2 : String a s1 +:+ s2 = String a (s1 +:+ s2).
Proof. done. Qed.

Lemma bytes_append s1 s2 : bytes (s1 +:+ s2) = bytes s1 ++ bytes s2.
Proof.
  induction s1 as [|a s1 IH]; [done|].
  rewrite append_cons. unfold bytes in *. simpl. by rewrite IH.
Qed.

Lemma append_md_nonempty n : n +:+ ".md" ≠ "".
Proof. by destruct n. Qed.

Lemma append_md_ne n : n +:+ ".md" ≠ n.
Proof.
  induction n as [|a n IH]; [done|].
  rewrite append_cons. intros [= H]. by apply IH.
Qed.

(** A path that ends in ".md" has the extension ".md". *)
Lemma Ext_append_md n : Filepath.Ext (n +:+ ".md") = ".md".
Proof.
  unfold Filepath.Ext. rewrite bytes_append, rev_app_distr. done.
Qed.

Lemma seedHistoryPaths_route p :
  normalizeHistoryPath p ≠ "" →
  Filepath.Ext (normalizeHistoryPath p) = "" →
  seedHistoryPaths p
  = uniquePaths ∅ [normalizeHistoryPath p; normalizeHistoryPath p +:+ ".md";
                   Filepath.ToSlash (Filepath.Join [normalizeHistoryPath p; "index.md"])].
Proof.
  intros Hn Hext. unfold seedHistoryPaths. cbn zeta.
  by rewrite bool_decide_eq_false_2, bool_decide_eq_true_2.
Qed.

Lemma seedHistoryPaths_md p n :
  normalizeHistoryPath p = n +:+ ".md" → seedHistoryPaths p = [n +:+ ".md"].
Proof.
  intros Hp. unfold seedHistoryPaths. cbn zeta. rewrite Hp.
  rewrite bool_decide_eq_false_2 by apply append_md_nonempty.
  rewrite Ext_append_md. rewrite bool_decide_eq_false_2 by done.
  simpl. rewrite bool_decide_eq_false_2 by apply append_md_nonempty.
  by rewrite bool_decide_eq_false_2 by apply not_elem_of_empty.
Qed.

Lemma uniquePaths_route (n m i : string) :
  n ≠ "" → m ≠ "" → m ≠ n →
  uniquePaths ∅ [n; m; i]
  = n :: m :: (if bool_decide (i = "") || bool_decide (i ∈ ({[m]} ∪ ({[n]} ∪ ∅) : gset string))
               then [] else [i]).
Proof.
  intros Hn Hm Hne. simpl.
  rewrite (bool_decide_eq_false_2 (n = "")) by done.
  rewrite (bool_decide_eq_false_2 (n ∈ (∅ : gset string))) by apply not_elem_of_empty.
  simpl. rewrite (bool_decide_eq_false_2 (m = "")) by done.
  rewrite (bool_decide_eq_false_2 (m ∈ ({[n]} ∪ ∅ : gset string))).
  - simpl. by case_match.
  - intros [Hin | Hin]%elem_of_union.
    + by apply elem_of_singleton in Hin.
    + by apply not_elem_of_empty in Hin.
Qed.

(** With distinct ids, the entry of every row at a visited path, or moved
    from one, is collected. *)
Lemma visited_rows_collected rows seeds st c r :
  NoDup (id <$> rows) → loopInv rows seeds st →
  c ∈ visited st → r ∈ rows → path r = c ∨ previous_path r = Some c →
  entryOfRow r ∈ entries st.
Proof.
  intros Hids [Hsound _ Hseen Hcomp _ _] Hc Hr Hmatch.
  pose proof (Hcomp c r Hc Hr Hmatch) as Hid. rewrite Hseen in Hid.
  apply elem_of_list_to_set, list_elem_of_fmap in Hid as (e & Hid & He).
  destruct (Hsound e He) as (r' & Hr' & ->). simpl in Hid.
  by rewrite (rows_same_id rows r r' Hids Hr Hr' Hid).
Qed.

(** C5. A query in route form, whose normal form [n] (the query without
    surrounding white space and leading slashes) is not empty and has no
    extension, seeds the search with [n], [n].md and [n]/index.md; a query
    whose normal form is [n].md seeds it with [n].md alone. When [n] and
    [n]/index.md occur in no row of the table, as path or as previous path,
    both queries return the same list of entries; when the ids are
    distinct, that list holds the entry of every row at [n].md. *)
Theorem C5_route_form_same_history s rows p p' :
  db s = Some rows →
  normalizeHistoryPath p ≠ "" →
  Filepath.Ext (normalizeHistoryPath p) = "" →
  normalizeHistoryPath p' = normalizeHistoryPath p +:+ ".md" →
  deadPaths rows {[normalizeHistoryPath p;
                   Filepath.ToSlash (Filepath.Join [normalizeHistoryPath p; "index.md"])]} →
  seedHistoryPaths p
  = uniquePaths ∅ [normalizeHistoryPath p; normalizeHistoryPath p +:+ ".md";
                   Filepath.ToSlash (Filepath.Join [normalizeHistoryPath p; "index.md"])]
  ∧ seedHistoryPaths p' = [normalizeHistoryPath p +:+ ".md"]
  ∧ GetHistoryForPath s p = GetHistoryForPath s p'
  ∧ ∃ es, GetHistoryForPath s p' = inr es
      ∧ (NoDup (id <$> rows) →
         ∀ r, r ∈ rows → path r = normalizeHistoryPath p +:+ ".md" → entryOfRow r ∈ es).
Proof.
  intros Hdb Hn Hext Hp' Hdead.
  set (n := normalizeHistoryPath p) in *.
  set (idx := Filepath.ToSlash (Filepath.Join [n; "index.md"])) in *.
  pose proof (seedHistoryPaths_route p Hn Hext) as Hseeds. fold n idx in Hseeds.
  pose proof (seedHistoryPaths_md p' n Hp') as Hseeds'.
  split; [done|]. split; [done|]. split; last first.
  { destruct (GetHistoryForPath_spec s rows p' Hdb) as (st & _ & Hinv & Hq & Hget & _).
    exists (sortSlice entryLess (entries st)). split; [done|]. intros Hids r Hr Hpath.
    rewrite (sortSlice_Permutation entryLess (entries st)).
    apply (visited_rows_collected rows _ st (n +:+ ".md") r Hids Hinv); [|done|by left].
    destruct (inv_seeds _ _ _ Hinv (n +:+ ".md")) as [Hv | Hqueue]; [|done|].
    - rewrite Hseeds'. by apply list_elem_of_singleton.
    - rewrite Hq in Hqueue. by apply elem_of_nil in Hqueue. }
  apply (history_dead_seeds rows {[n; idx]} Hdead s _ _ p p' Hdb Hseeds Hseeds').
  assert (Hn' : n ∈ ({[n; idx]} : gset string))
    by (apply elem_of_union; left; by apply elem_of_singleton).
  assert (Hidx : idx ∈ ({[n; idx]} : gset string))
    by (apply elem_of_union; right; by apply elem_of_singleton).
  rewrite (uniquePaths_route n (n +:+ ".md") idx Hn (append_md_nonempty n) (append_md_ne n)).
  rewrite filter_cons_False by (by intros ?).
  assert (Hrest : filter (λ c, c ∉ ({[n; idx]} : gset string))
                    (if bool_decide (idx = "")
                        || bool_decide (idx ∈ ({[n +:+ ".md"]} ∪ ({[n]} ∪ ∅) : gset string))
                     then [] else [idx]) = []).
  { case_match; [done|]. by rewrite filter_cons_False by (by intros ?). }
  destruct (decide (n +:+ ".md" ∈ ({[n; idx]} : gset string))) as [Hin | Hin].
  - by rewrite !filter_cons_False, Hrest by (by intros ?).
  - by rewrite !filter_cons_True, Hrest by done.
Qed.

Lemma C5_route_form_same_history_witness :
  (db (mkIndex (Some (rowsDeleted exampleClock))) = Some (rowsDeleted exampleClock)
   ∧ normalizeHistoryPath "/b/a" = "b/a"
   ∧ normalizeHistoryPath "b/a" = "b/a"
   ∧ normalizeHistoryPath "b/a.md" = "b/a.md"
   ∧ Filepath.Ext "b/a" = ""
   ∧ Filepath.Join ["b/a"; "index.md"] = "b/a/index.md"
   ∧ deadPaths (rowsDeleted exampleClock) {["b/a"; "b/a/index.md"]})
  ∧ GetHistoryForPath (mkIndex (Some (rowsDeleted exampleClock))) "/b/a"
    = GetHistoryForPath (mkIndex (Some (rowsDeleted exampleClock))) "b/a.md"
  ∧ GetHistoryForPath (mkIndex (Some (rowsDeleted exampleClock))) "b/a"
    = GetHistoryForPath (mkIndex (Some (rowsDeleted exampleClock))) "b/a.md"
  ∧ ∃ es, GetHistoryForPath (mkIndex (Some (rowsDeleted exampleClock))) "b/a.md" = inr es
      ∧ entryOfRow (rowMoved exampleClock) ∈ es
      ∧ entryOfRow (rowDeleted exampleClock) ∈ es.
Proof.
  assert (Hdead : deadPaths (rowsDeleted exampleClock) {["b/a"; "b/a/index.md"]}).
  { intros r Hr.
    repeat (apply elem_of_cons in Hr as [-> | Hr];
            [split; [compute_done | intros q [= <-] || intros q [=]; compute_done]|]).
    by apply elem_of_nil in Hr. }
  assert (H1 : normalizeHistoryPath "/b/a" = "b/a") by (vm_compute; reflexivity).
  assert (H2 : normalizeHistoryPath "b/a" = "b/a") by (vm_compute; reflexivity).
  assert (H3 : normalizeHistoryPath "b/a.md" = "b/a.md") by (vm_compute; reflexivity).
  assert (H4 : Filepath.Ext "b/a" = "") by (vm_compute; reflexivity).
  assert (H5 : Filepath.Join ["b/a"; "index.md"] = "b/a/index.md")
    by (vm_compute; reflexivity).
  split; [repeat (split; [done || assumption|]); assumption|].
  split.
  - apply (C5_route_form_same_history (mkIndex (Some (rowsDeleted exampleClock)))
             (rowsDeleted exampleClock) "/b/a" "b/a.md" eq_refl).
    + by rewrite H1.
    + by rewrite H1.
    + by rewrite H1, H3.
    + unfold Filepath.ToSlash. by rewrite H1, H5.
  - assert (Hall : _) by
      (refine (C5_route_form_same_history (mkIndex (Some (rowsDeleted exampleClock)))
                 (rowsDeleted exampleClock) "b/a" "b/a.md" eq_refl _ _ _ _);
       [by rewrite H2 | by rewrite H2 | by rewrite H2, H3
       | unfold Filepath.ToSlash; by rewrite H2, H5]).
    destruct Hall as (_ & _ & Heq & es & Hes & Hin). split; [exact Heq|].
    exists es. split; [exact Hes|].
    assert (Hnd : NoDup (id <$> rowsDeleted exampleClock)) by compute_done.
    split; apply (Hin Hnd); [compute_done | by rewrite H2 | compute_done | by rewrite H2].
Defined.

(** C5 fails as stated. The page b/a.md becomes the folder page
    b/a/index.md: the pass records the new path as created and the old one
    as deleted, since their base names differ. The history of the page
    lives at b/a.md, in the rows 1 and 3, and the query b/a.md returns those
    two; the queries b/a and /b/a also find the row of b/a/index.md and
    return three entries. *)
Lemma C5_counterexample :
  scanMarkdownFiles fsPage = (curPage, None)
  ∧ passOrders pageOrders curPage []
  ∧ CaptureFileHistory exampleClock pageOrders (mkIndex (Some [])) fsPage
    = inr (mkIndex (Some (rowsPage exampleClock)))
  ∧ scanMarkdownFiles fsFolder = (curFolder, None)
  ∧ passOrders folderOrders curFolder (rowsPage exampleClock)
  ∧ CaptureFileHistory exampleClock folderOrders (mkIndex (Some (rowsPage exampleClock)))
      fsFolder
    = inr (mkIndex (Some (rowsFolder exampleClock)))
  ∧ path <$> rowsFolder exampleClock = ["b/a.md"; "b/a/index.md"; "b/a.md"]
  ∧ GetHistoryForPath (mkIndex (Some (rowsFolder exampleClock))) "b/a.md"
    = inr [entryOfRow (rowPageDeleted exampleClock); entryOfRow (rowPage exampleClock)]
  ∧ GetHistoryForPath (mkIndex (Some (rowsFolder exampleClock))) "b/a"
    = inr [entryOfRow (rowPageDeleted exampleClock); entryOfRow (rowFolder exampleClock);
           entryOfRow (rowPage exampleClock)]
  ∧ GetHistoryForPath (mkIndex (Some (rowsFolder exampleClock))) "/b/a"
    = GetHistoryForPath (mkIndex (Some (rowsFolder exampleClock))) "b/a"
  ∧ GetHistoryForPath (mkIndex (Some (rowsFolder exampleClock))) "b/a"
    ≠ GetHistoryForPath (mkIndex (Some (rowsFolder exampleClock))) "b/a.md".
Proof.
  assert (H1 : GetHistoryForPath (mkIndex (Some (rowsFolder exampleClock))) "b/a.md"
               = inr [entryOfRow (rowPageDeleted exampleClock);
                      entryOfRow (rowPage exampleClock)])
    by (vm_compute; reflexivity).
  assert (H2 : GetHistoryForPath (mkIndex (Some (rowsFolder exampleClock))) "b/a"
               = inr [entryOfRow (rowPageDeleted exampleClock);
                      entryOfRow (rowFolder exampleClock);
                      entryOfRow (rowPage exampleClock)])
    by (vm_compute; reflexivity).
  split; [vm_compute; reflexivity|]. split; [compute_done|].
  split; [vm_compute; reflexivity|]. split; [vm_compute; reflexivity|].
  split; [compute_done|]. split; [vm_compute; reflexivity|].
  split; [reflexivity|]. split; [exact H1|]. split; [exact H2|].
  split; [vm_compute; reflexivity|].
  rewrite H1, H2. intros Heq.
  apply (f_equal (λ res : error + list FileHistoryEntry,
                    match res with inr l => length l | inl _ => 0 end)) in Heq.
  cbn [length] in Heq. discriminate Heq.
Qed.

(** White space around the query and slashes before it are dropped. *)
Example normalizeHistoryPath_strips :
  normalizeHistoryPath "  //b/a " = "b/a"
  ∧ normalizeHistoryPath "/b/a.md" = "b/a.md"
  ∧ seedHistoryPaths " /b/a" = ["b/a"; "b/a.md"; "b/a/index.md"]
  ∧ seedHistoryPaths "/b/a.md" = ["b/a.md"].
Proof. vm_compute. repeat split; reflexivity. Qed.

(** ** Stored timestamps *)

Section timestamps.
Import Time.
Local Open Scope Z_scope.

Lemma str_bytes l : bytes (str l) = l.
Proof. apply list_ascii_of_string_of_list_ascii. Qed.

Lemma byteZ_byteOf z : 0 ≤ z < 256 → byteZ (byteOf z) = z.
Proof.
  intros Hz. unfold byteZ, byteOf. rewrite N_ascii_embedding; lia.
Qed.

Lemma digitChar_digit d :
  0 ≤ d ≤ 9 → isDigitB (digitChar d) = true ∧ digitVal (digitChar d) = d.
Proof.
  intros Hd. unfold isDigitB, digitVal, digitChar. rewrite byteZ_byteOf by lia.
  split; [|lia]. apply andb_true_iff. split; apply Z.leb_le; lia.
Qed.

Lemma isDigitB_not_sign c :
  isDigitB c = true →
  bool_decide (c = "-"%char) = false ∧ bool_decide (c = "+"%char) = false
  ∧ bool_decide (c = " "%char) = false ∧ commaOrPeriod c = false
  ∧ bool_decide (c = "Z"%char) = false.
Proof.
  unfold isDigitB, commaOrPeriod. intros [H1 H2]%andb_true_iff.
  apply Z.leb_le in H1. apply Z.leb_le in H2.
  repeat split; try apply orb_false_iff; repeat split;
    apply bool_decide_eq_false_2; intros ->; vm_compute in H1, H2; congruence.
Qed.

Lemma isDigitB_digitVal c : isDigitB c = true → 0 ≤ digitVal c ≤ 9.
Proof.
  unfold isDigitB, digitVal. intros [H1 H2]%andb_true_iff.
  apply Z.leb_le in H1. apply Z.leb_le in H2. lia.
Qed.

Lemma digitsValue_snoc acc l c :
  digitsValue acc (l ++ [c]) = digitsValue acc l * 10 + digitVal c.
Proof. unfold digitsValue. by rewrite foldl_app. Qed.

Lemma digitsValue_app acc l1 l2 :
  digitsValue acc (l1 ++ l2) = digitsValue (digitsValue acc l1) l2.
Proof. unfold digitsValue. by rewrite foldl_app. Qed.

Lemma digitsValue_ge acc l :
  Forall (λ c, isDigitB c = true) l → 0 ≤ acc → acc ≤ digitsValue acc l.
Proof.
  intros Hl. revert acc. induction Hl as [|c l Hc Hl IH]; intros acc Hacc; simpl; [lia|].
  apply isDigitB_digitVal in Hc. etrans; [|apply IH]; lia.
Qed.

Lemma digitsValue_zeros acc j :
  digitsValue acc (replicate j "0"%char) = acc * 10 ^ Z.of_nat j.
Proof.
  revert acc. induction j as [|j IH]; intros acc; [simpl; lia|].
  cbn [replicate]. unfold digitsValue in *. cbn [foldl]. rewrite IH.
  change (digitVal "0") with 0. rewrite Nat2Z.inj_succ, Z.pow_succ_r by lia. lia.
Qed.

(** [leadingInt] reads a run of digits to its end when the number stays
    far from overflow. *)
Lemma leadingInt_digits l acc :
  Forall (λ c, isDigitB c = true) l → 0 ≤ acc → digitsValue acc l < 10 ^ 10 →
  leadingInt acc l = Some (digitsValue acc l, []).
Proof.
  intros Hl. revert acc. induction Hl as [|c l Hc Hl IH]; intros acc Hacc Hv; [done|].
  cbn [leadingInt]. rewrite Hc. pose proof (isDigitB_digitVal c Hc) as Hd.
  cbn [digitsValue foldl] in Hv. fold (digitsValue (acc * 10 + digitVal c) l) in Hv.
  pose proof (digitsValue_ge (acc * 10 + digitVal c) l Hl ltac:(lia)) as Hge.
  assert (H1 : (2 ^ 63 / 10 <? acc) = false).
  { apply Z.ltb_ge. change (2 ^ 63 / 10) with 922337203685477580. lia. }
  assert (H2 : (2 ^ 63 <? acc * 10 + digitVal c) = false) by (apply Z.ltb_ge; lia).
  rewrite H1, H2. by apply IH; [lia|].
Qed.

(** [atoi] of a run of digits that is not empty. *)
Lemma atoi_digits l :
  l ≠ [] → Forall (λ c, isDigitB c = true) l → digitsValue 0 l < 10 ^ 10 →
  atoi l = Some (digitsValue 0 l).
Proof.
  intros Hne Hl Hv. unfold atoi. destruct l as [|c l]; [done|].
  pose proof (Forall_inv Hl) as Hc. destruct (isDigitB_not_sign c Hc) as (-> & -> & _).
  by rewrite leadingInt_digits.
Qed.

(** The decimal digits of [x], least significant first. *)
Lemma decimalRev_spec fuel x k :
  0 ≤ x < 10 ^ Z.of_nat k → (1 ≤ k ≤ fuel)%nat →
  (1 ≤ length (decimalRev fuel x) ≤ k)%nat
  ∧ Forall (λ c, isDigitB c = true) (decimalRev fuel x)
  ∧ digitsValue 0 (rev (decimalRev fuel x)) = x.
Proof.
  revert x k. induction fuel as [|fuel IH]; intros x k Hx Hk; [lia|].
  cbn [decimalRev].
  assert (Hd : 0 ≤ x mod 10 ≤ 9) by (pose proof (Z.mod_pos_bound x 10); lia).
  destruct (digitChar_digit (x mod 10) Hd) as [Hdig Hval].
  destruct (Z.ltb_spec x 10) as [Hlt | Hge].
  - simpl. split; [lia|]. split; [by repeat constructor|].
    rewrite Hval. rewrite Z.mod_small; lia.
  - destruct k as [|[|k]]; [lia | simpl in Hx; lia |].
    destruct (IH (x / 10) (S k)) as (Hlen & Hall & Hv).
    + split; [apply Z.div_pos; lia|]. apply Z.div_lt_upper_bound; [lia|].
      rewrite (Nat2Z.inj_succ (S k)), Z.pow_succ_r in Hx by lia. lia.
    + lia.
    + cbn [length rev]. split; [lia|]. split; [by constructor|].
      rewrite digitsValue_snoc, Hv, Hval. pose proof (Z.div_mod x 10). lia.
Qed.

(** [appendInt] writes [x] on [k] digits. *)
Lemma appendInt_spec x k :
  0 ≤ x < 10 ^ Z.of_nat k → (1 ≤ k ≤ 20)%nat →
  length (appendInt x k) = k
  ∧ Forall (λ c, isDigitB c = true) (appendInt x k)
  ∧ digitsValue 0 (appendInt x k) = x.
Proof.
  intros Hx Hk. destruct (decimalRev_spec 20 x k Hx Hk) as (Hlen & Hall & Hv).
  unfold appendInt. cbn zeta. rewrite length_app, length_replicate, length_rev.
  split; [lia|]. split.
  - apply Forall_app. split; [by apply Forall_replicate|].
    apply Forall_forall. intros c Hc. apply list_elem_of_In, in_rev in Hc.
    apply (proj1 (Forall_forall _ _) Hall). by apply list_elem_of_In.
  - by rewrite digitsValue_app, digitsValue_zeros.
Qed.

Lemma two_digits x :
  0 ≤ x < 100 →
  ∃ c0 c1, appendInt x 2 = [c0; c1] ∧ isDigitB c0 = true ∧ isDigitB c1 = true
           ∧ digitVal c0 * 10 + digitVal c1 = x.
Proof.
  intros Hx. destruct (appendInt_spec x 2) as (Hlen & Hall & Hv); [simpl; lia | lia |].
  destruct (appendInt x 2) as [|c0 [|c1 [|??]]]; try done.
  exists c0, c1. split; [done|].
  apply Forall_cons in Hall as [H0 Hall]. apply Forall_cons in Hall as [H1 _].
  split; [done|]. split; [done|]. cbn in Hv. lia.
Qed.

Lemma getnum_appendInt x v fixed :
  0 ≤ x < 100 → getnum (appendInt x 2 ++ v) fixed = Some (x, v).
Proof.
  intros Hx. destruct (two_digits x Hx) as (c0 & c1 & -> & H0 & H1 & <-).
  simpl. by rewrite H0, H1.
Qed.


Lemma appendInt_head x k v :
  0 ≤ x < 10 ^ Z.of_nat k → (1 ≤ k ≤ 20)%nat →
  ∃ c l, appendInt x k ++ v = c :: l ∧ isDigitB c = true.
Proof.
  intros Hx Hk. destruct (appendInt_spec x k Hx Hk) as (Hlen & Hall & _).
  destruct (appendInt x k) as [|c l]; [simpl in Hlen; lia|].
  exists c, (l ++ v). split; [done|]. by apply Forall_cons in Hall as [? _].
Qed.

Lemma parseStd_year rest f y v :
  0 ≤ y < 10000 →
  parseStd stdLongYear rest f (appendInt y 4 ++ v) = Some (setYear y f, v).
Proof.
  intros Hy. destruct (appendInt_spec y 4) as (Hlen & Hall & Hv); [simpl; lia | lia |].
  destruct (appendInt y 4) as [|c0 [|c1 [|c2 [|c3 [|??]]]]] eqn:Hds; try done.
  pose proof (Forall_inv Hall) as H0.
  cbn [parseStd app length Nat.leb take drop]. rewrite H0. cbn [andb].
  rewrite take_0, drop_0, atoi_digits; [by rewrite Hv | done | done | lia].
Qed.

Lemma parseStd_month rest f m v :
  1 ≤ m ≤ 12 →
  parseStd stdZeroMonth rest f (appendInt m 2 ++ v) = Some (setMonth m f, v).
Proof.
  intros Hm. cbn [parseStd]. rewrite getnum_appendInt by lia. simpl.
  unfold inRange. by rewrite (proj2 (Z.leb_le 1 m)), (proj2 (Z.ltb_lt m 13)) by lia.
Qed.

Lemma parseStd_day rest f d v :
  0 ≤ d < 100 →
  parseStd stdZeroDay rest f (appendInt d 2 ++ v) = Some (setDay d f, v).
Proof. intros Hd. cbn [parseStd]. by rewrite getnum_appendInt by lia. Qed.

Lemma parseStd_hour rest f h v :
  0 ≤ h < 24 →
  parseStd stdHour rest f (appendInt h 2 ++ v) = Some (setHour h f, v).
Proof.
  intros Hh. cbn [parseStd]. rewrite getnum_appendInt by lia. simpl.
  unfold inRange. by rewrite (proj2 (Z.leb_le 0 h)), (proj2 (Z.ltb_lt h 24)) by lia.
Qed.

Lemma parseStd_minute rest f m v :
  0 ≤ m < 60 →
  parseStd stdZeroMinute rest f (appendInt m 2 ++ v) = Some (setMin m f, v).
Proof.
  intros Hm. cbn [parseStd]. rewrite getnum_appendInt by lia. simpl.
  unfold inRange. by rewrite (proj2 (Z.leb_le 0 m)), (proj2 (Z.ltb_lt m 60)) by lia.
Qed.

(** The seconds, when a fraction follows in the layout or none follows in
    the value. *)
Lemma parseStd_second rest f s v :
  0 ≤ s < 60 →
  nextStd rest = Some stdFracSecond9 ∨ startsFraction v = false →
  parseStd stdZeroSecond rest f (appendInt s 2 ++ v) = Some (setSec s f, v).
Proof.
  intros Hs Hnext. cbn [parseStd]. rewrite getnum_appendInt by lia. simpl.
  unfold inRange. rewrite (proj2 (Z.leb_le 0 s)), (proj2 (Z.ltb_lt s 60)) by lia.
  simpl. destruct Hnext as [-> | ->]; [by destruct (startsFraction v) | done].
Qed.

Lemma trimLeftByte_snoc b l c :
  c ≠ b → Strings.trimLeftByte b (l ++ [c]) = Strings.trimLeftByte b l ++ [c].
Proof.
  intros Hc. induction l as [|a l IH]; simpl.
  - by rewrite bool_decide_eq_false_2.
  - by case_bool_decide.
Qed.

Lemma trimLeftByte_replicate b l :
  ∃ j, l = replicate j b ++ Strings.trimLeftByte b l.
Proof.
  induction l as [|a l [j IH]]; [by exists 0%nat|]. simpl.
  case_bool_decide as Ha; [|by exists 0%nat].
  exists (S j). simpl. by rewrite Ha, <- IH.
Qed.

(** The fraction [appendNano] writes: the point and the nine digits of the
    nanoseconds without their trailing zeros. *)
Lemma appendNano_spec ns :
  0 < ns < 10 ^ 9 →
  ∃ ds j, appendNano ns = "."%char :: ds
    ∧ ds ≠ [] ∧ (length ds + j = 9)%nat
    ∧ Forall (λ c, isDigitB c = true) ds
    ∧ digitsValue 0 ds * 10 ^ Z.of_nat j = ns.
Proof.
  intros Hns. destruct (appendInt_spec ns 9) as (Hlen & Hall & Hv); [simpl; lia | lia |].
  unfold appendNano, trimZerosRight. rewrite (proj2 (Z.eqb_neq ns 0)) by lia.
  cbn [rev]. rewrite trimLeftByte_snoc by done. rewrite rev_app_distr. cbn [rev app].
  destruct (trimLeftByte_replicate "0"%char (rev (appendInt ns 9))) as [j Hj].
  set (ds := rev (Strings.trimLeftByte "0"%char (rev (appendInt ns 9)))) in *.
  assert (Hds : appendInt ns 9 = ds ++ replicate j "0"%char).
  { rewrite <- (rev_involutive (appendInt ns 9)), Hj, rev_app_distr.
    unfold ds. f_equal. clear. induction j as [|j IH]; [done|].
    cbn [replicate rev]. rewrite IH. clear.
    induction j as [|j IH]; [done|]. cbn [replicate app]. by rewrite IH. }
  exists ds, j. rewrite Hds in Hlen, Hall, Hv.
  rewrite length_app, length_replicate in Hlen.
  apply Forall_app in Hall as [Hall _].
  rewrite digitsValue_app, digitsValue_zeros in Hv.
  split; [done|]. split; [|done].
  intros ->. simpl in Hv. lia.
Qed.

Lemma digitRun_app l v :
  Forall (λ c, isDigitB c = true) l → noDigitAhead v → digitRun (l ++ v) = length l.
Proof.
  intros Hl Hv. induction Hl as [|c l Hc Hl IH]; simpl.
  - destruct v as [|c v]; [done|]. simpl in *. by rewrite Hv.
  - by rewrite Hc, IH.
Qed.

(** The fraction of the layout, read back. *)
Lemma parseStd_fraction rest f ns v :
  0 ≤ ns < 10 ^ 9 → pnsec f = 0 → noDigitAhead v → startsFraction v = false →
  parseStd stdFracSecond9 rest f (appendNano ns ++ v) = Some (setNsec ns f, v).
Proof.
  intros Hns Hf Hv Hfrac. destruct (decide (ns = 0)) as [-> | Hne].
  - cbn [parseStd appendNano Z.eqb app]. rewrite Hfrac. destruct f; simpl in Hf; by subst.
  - destruct (appendNano_spec ns) as (ds & j & -> & Hds & Hlen & Hall & Hval); [lia|].
    destruct ds as [|d ds]; [done|]. pose proof (Forall_inv Hall) as Hd.
    cbn [parseStd app startsFraction]. rewrite Hd.
    change (commaOrPeriod ".") with true. cbn [andb].
    cbn [drop]. change (d :: ds ++ v) with ((d :: ds) ++ v).
    rewrite digitRun_app by done.
    assert (Hnano : parseNanoseconds ("."%char :: (d :: ds) ++ v) (S (length (d :: ds)))
                    = Some ns).
    { unfold parseNanoseconds. change (commaOrPeriod ".") with true. cbn iota.
      rewrite Nat.min_l by lia.
      cbn [take drop]. rewrite take_app_length. rewrite drop_0.
      rewrite atoi_digits; [|done|done|].
      - assert (Hpos : 0 ≤ digitsValue 0 (d :: ds)) by (by apply digitsValue_ge).
        rewrite (proj2 (Z.ltb_ge _ 0)) by lia. f_equal. rewrite <- Hval. do 2 f_equal. lia.
      - assert (0 < 10 ^ Z.of_nat j) by (apply Z.pow_pos_nonneg; lia). nia. }
    rewrite Hnano. cbn [mbind option_bind]. rewrite drop_app_length. done.
Qed.

(** The zone of the layout, read back at the end of the value. *)
Lemma parseStd_zone rest f t :
  -86400 < offset t < 86400 → offset t mod 60 = 0 →
  parseStd stdISO8601ColonTZ rest f (formatStd stdISO8601ColonTZ t)
  = Some (setZone (offset t) f, []).
Proof.
  intros Hoff Hmod. cbn [formatStd].
  destruct (Z.eqb_spec (offset t) 0) as [-> | Hne]; [done|].
  assert (Hk : offset t = offset t / 60 * 60)
    by (pose proof (Z.div_mod (offset t) 60 ltac:(lia)); lia).
  assert (Hq : Z.quot (offset t) 60 = offset t / 60).
  { rewrite Hk at 1. apply Z.quot_mul. lia. }
  rewrite Hq. set (z := offset t / 60) in *.
  assert (Hparse : ∀ sign zone,
            0 < zone < 1440 → (sign = "+"%char ∨ sign = "-"%char) →
            parseStd stdISO8601ColonTZ rest f
              (sign :: appendInt (Z.quot zone 60) 2 ++ ":"%char :: appendInt (Z.rem zone 60) 2)
            = Some (setZone (if bool_decide (sign = "+"%char) then zone * 60
                             else - (zone * 60)) f, [])).
  { intros sign zone Hzone Hsign.
    rewrite Z.quot_div_nonneg, Z.rem_mod_nonneg by lia.
    assert (Hh : 0 ≤ zone / 60 < 24).
    { split; [apply Z.div_pos; lia | apply Z.div_lt_upper_bound; lia]. }
    assert (Hm : 0 ≤ zone mod 60 < 60) by (apply Z.mod_pos_bound; lia).
    destruct (two_digits (zone / 60)) as (h0 & h1 & -> & Hh0 & Hh1 & Hhv); [lia|].
    destruct (two_digits (zone mod 60)) as (m0 & m1 & -> & Hm0 & Hm1 & Hmv); [lia|].
    cbn [parseStd app].
    assert (HZ : bool_decide (sign = "Z"%char) = false)
      by (destruct Hsign as [-> | ->]; done).
    rewrite HZ. cbn [length Nat.ltb Nat.leb negb lookup list_lookup].
    rewrite (bool_decide_eq_true_2 (Some ":"%char = Some ":"%char)) by done.
    cbn [negb take drop getnum]. rewrite Hh0, Hh1, Hm0, Hm1.
    cbn [mbind option_bind]. rewrite Hhv, Hmv.
    rewrite (proj2 (Z.ltb_ge 24 (zone / 60))), (proj2 (Z.ltb_ge 60 (zone mod 60))) by lia.
    cbn [orb]. pose proof (Z.div_mod zone 60 ltac:(lia)) as Hdm.
    replace ((zone / 60 * 60 + zone mod 60) * 60) with (zone * 60) by lia.
    destruct Hsign as [-> | ->]; done. }
  destruct (Z.ltb_spec z 0) as [Hneg | Hpos].
  - rewrite (Hparse "-"%char (- z)); [|lia | by right].
    rewrite bool_decide_eq_false_2 by done. do 3 f_equal. lia.
  - rewrite (Hparse "+"%char z); [|lia | by left].
    rewrite bool_decide_eq_true_2 by done. do 3 f_equal. lia.
Qed.

Lemma Format_bytes t layout :
  bytes (Format t layout) = concat (map (λ c, formatStd c t) layout).
Proof. apply str_bytes. Qed.


Lemma skip_separator sep x v :
  sep = "T" ∨ sep = " " → 0 ≤ x < 100 →
  skip false (bytes sep) (bytes sep ++ appendInt x 2 ++ v) = Some (appendInt x 2 ++ v).
Proof.
  intros [-> | ->] Hx; [done|].
  destruct (two_digits x Hx) as (c0 & c1 & -> & H0 & _).
  destruct (isDigitB_not_sign c0 H0) as (_ & _ & Hsp & _).
  cbn. unfold cutspace. cbn. by rewrite Hsp.
Qed.

Lemma skip_literal (c : ascii) v :
  c ≠ " "%char → skip false (bytes (String c "")) (c :: v) = Some v.
Proof.
  intros Hc. cbn. unfold isSpaceB. rewrite bool_decide_eq_false_2 by done.
  by rewrite bool_decide_eq_true_2.
Qed.

Lemma validTime_day t : validTime t → 0 ≤ day t < 100.
Proof.
  intros (_ & Hmo & Hd & _). split; [lia|].
  assert (daysIn (month t) (year t) ≤ 31); [|lia].
  unfold daysIn. case_match; [lia|]. generalize (month t) Hmo. clear. intros m Hm.
  assert (Hc : m = 1 ∨ m = 2 ∨ m = 3 ∨ m = 4 ∨ m = 5 ∨ m = 6 ∨ m = 7 ∨ m = 8
               ∨ m = 9 ∨ m = 10 ∨ m = 11 ∨ m = 12) by lia.
  repeat destruct Hc as [Hc | Hc]; subst m; by vm_compute.
Qed.

(** The date and the time of day of a layout, read back. *)
Lemma parseLoop_date sep rest t v :
  validTime t → sep = "T" ∨ sep = " " →
  nextStd rest = Some stdFracSecond9 ∨ startsFraction v = false →
  parseLoop (dateChunks sep ++ rest) fields0
    (concat (map (λ c, formatStd c t) (dateChunks sep)) ++ v)
  = parseLoop rest (fieldsOf t 0 None) v.
Proof.
  intros Hvalid Hsep Hnext. pose proof (validTime_day t Hvalid) as Hd'.
  destruct Hvalid as (Hy & Hmo & Hd & Hh & Hmi & Hs & _).
  unfold dateChunks.
  cbn [concat map formatStd app]. rewrite <- !app_assoc. cbn [app].
  change (bytes "-") with ["-"%char]. change (bytes ":") with [":"%char]. cbn [app].
  cbn [parseLoop]. rewrite parseStd_year by done. cbn [mbind option_bind].
  rewrite (skip_literal "-") by done. cbn [mbind option_bind].
  rewrite parseStd_month by done. cbn [mbind option_bind].
  rewrite (skip_literal "-") by done. cbn [mbind option_bind].
  rewrite parseStd_day by done. cbn [mbind option_bind].
  rewrite (skip_separator sep) by (done || lia). cbn [mbind option_bind].
  rewrite parseStd_hour by done. cbn [mbind option_bind].
  rewrite (skip_literal ":") by done. cbn [mbind option_bind].
  rewrite parseStd_minute by done. cbn [mbind option_bind].
  rewrite (skip_literal ":") by done. cbn [mbind option_bind].
  rewrite (parseStd_second _ _ _ _ Hs) by (by destruct Hnext; [left | right]).
  done.
Qed.

(** A value written with a space after the date does not parse in a layout
    with "T" there. *)
Lemma parseLoop_date_mismatch rest t v :
  validTime t →
  parseLoop (dateChunks "T" ++ rest) fields0
    (concat (map (λ c, formatStd c t) (dateChunks " ")) ++ v) = None.
Proof.
  intros Hvalid. pose proof (validTime_day t Hvalid) as Hd'.
  destruct Hvalid as (Hy & Hmo & Hd & _).
  unfold dateChunks.
  cbn [concat map formatStd app]. rewrite <- !app_assoc. cbn [app].
  change (bytes "-") with ["-"%char]. change (bytes " ") with [" "%char]. cbn [app].
  cbn [parseLoop]. rewrite parseStd_year by done. cbn [mbind option_bind].
  rewrite (skip_literal "-") by done. cbn [mbind option_bind].
  rewrite parseStd_month by done. cbn [mbind option_bind].
  rewrite (skip_literal "-") by done. cbn [mbind option_bind].
  rewrite parseStd_day by done. cbn [mbind option_bind].
  done.
Qed.

(** What [Format] writes for the zone starts with "Z" or a sign. *)
Lemma zone_head t v :
  noDigitAhead (formatStd stdISO8601ColonTZ t ++ v)
  ∧ startsFraction (formatStd stdISO8601ColonTZ t ++ v) = false.
Proof.
  assert (Hfrac : ∀ c l, commaOrPeriod c = false → startsFraction (c :: l) = false).
  { intros c [|c' l] Hc; [done|]. cbn [startsFraction]. by rewrite Hc. }
  cbn [formatStd]. destruct (offset t =? 0).
  - split; [done|]. by apply Hfrac.
  - destruct (offset t ÷ 60 <? 0); (split; [done|]); by apply Hfrac.
Qed.

Lemma Format_date_nonempty t sep rest :
  Format t (dateChunks sep ++ rest) ≠ "".
Proof.
  intros Heq. apply (f_equal bytes) in Heq. rewrite Format_bytes in Heq.
  apply (f_equal length) in Heq. revert Heq.
  unfold dateChunks. cbn [concat map formatStd app]. rewrite !length_app.
  change (bytes "-") with ["-"%char]. change (bytes "") with (@nil ascii).
  cbn [length]. lia.
Qed.

Lemma Parse_day_valid t f :
  validTime t → pyear f = year t → pmonth f = month t → pday f = day t →
  (pday f <? 1) || (daysIn (pmonth f) (pyear f) <? pday f) = false.
Proof.
  intros (_ & _ & Hd & _) -> -> ->. apply orb_false_iff.
  split; apply Z.ltb_ge; lia.
Qed.

(** The layout with fraction and zone reads back the whole time. *)
Lemma Parse_RFC3339Nano t :
  validTime t → Parse RFC3339Nano (Format t RFC3339Nano) = Some t.
Proof.
  intros Hvalid. unfold Parse, RFC3339Nano. rewrite Format_bytes, map_app, concat_app.
  rewrite parseLoop_date; [|exact Hvalid | by left | by left].
  cbn [map concat app]. rewrite app_nil_r.
  destruct (zone_head t []) as [Hno Hfrac]. rewrite app_nil_r in Hno, Hfrac.
  destruct Hvalid as (Hy & Hmo & Hd & Hh & Hmi & Hs & Hns & Hoff & Hmod).
  change (formatStd stdFracSecond9 t) with (appendNano (nsec t)).
  cbn [parseLoop]. rewrite parseStd_fraction by done. cbn [mbind option_bind].
  rewrite parseStd_zone by done. cbn [mbind option_bind].
  cbn [setZone setNsec fieldsOf pyear pmonth pday phour pmin psec pnsec pzone default].
  replace ((day t <? 1) || (daysIn (month t) (year t) <? day t)) with false
    by (symmetry; apply orb_false_iff; split; apply Z.ltb_ge; lia).
  by destruct t.
Qed.

(** The layout with a space and the zone reads back all but the
    nanoseconds. *)
Lemma Parse_layoutSpaceZone t :
  validTime t →
  Parse layoutSpaceZone (Format t layoutSpaceZone) = Some (withoutNsec t).
Proof.
  intros Hvalid. unfold Parse, layoutSpaceZone. rewrite Format_bytes, map_app, concat_app.
  cbn [map concat]. rewrite app_nil_r.
  destruct (zone_head t []) as [Hno Hfrac]. rewrite app_nil_r in Hno, Hfrac.
  rewrite parseLoop_date; [|exact Hvalid | by right | right; exact Hfrac].
  destruct Hvalid as (Hy & Hmo & Hd & Hh & Hmi & Hs & Hns & Hoff & Hmod).
  cbn [parseLoop]. rewrite parseStd_zone by done. cbn [mbind option_bind].
  cbn [setZone fieldsOf pyear pmonth pday phour pmin psec pnsec pzone default].
  replace ((day t <? 1) || (daysIn (month t) (year t) <? day t)) with false
    by (symmetry; apply orb_false_iff; split; apply Z.ltb_ge; lia).
  done.
Qed.

(** The layout without zone reads back the civil time, in UTC. *)
Lemma Parse_layoutSpace t :
  validTime t → Parse layoutSpace (Format t layoutSpace) = Some (withoutZone t).
Proof.
  intros Hvalid. unfold Parse, layoutSpace. rewrite Format_bytes.
  rewrite <- (app_nil_r (dateChunks " ")) at 1.
  rewrite <- (app_nil_r (concat _)).
  rewrite parseLoop_date; [|exact Hvalid | by right | by right].
  destruct Hvalid as (Hy & Hmo & Hd & Hh & Hmi & Hs & Hns & Hoff & Hmod).
  cbn [parseLoop mbind option_bind].
  cbn [fieldsOf pyear pmonth pday phour pmin psec pnsec pzone default].
  replace ((day t <? 1) || (daysIn (month t) (year t) <? day t)) with false
    by (symmetry; apply orb_false_iff; split; apply Z.ltb_ge; lia).
  done.
Qed.

(** The layouts tried before the one a value was written in reject it. *)
Lemma Parse_RFC3339Nano_space t rest :
  validTime t → Parse RFC3339Nano (Format t (dateChunks " " ++ rest)) = None.
Proof.
  intros Hvalid. unfold Parse, RFC3339Nano. rewrite Format_bytes, map_app, concat_app.
  by rewrite parseLoop_date_mismatch.
Qed.

Lemma Parse_layoutSpaceZone_bare t :
  validTime t → Parse layoutSpaceZone (Format t layoutSpace) = None.
Proof.
  intros Hvalid. unfold Parse, layoutSpaceZone, layoutSpace. rewrite Format_bytes.
  rewrite <- (app_nil_r (concat _)).
  by rewrite parseLoop_date; [|exact Hvalid | by right | by right].
Qed.

(** C9. [parseSQLiteTimestamp] reads a stored timestamp written in any of
    its three layouts: the text [Time.Format] writes for a time [t] in the
    layout with fraction and zone parses, and gives [t]; the text in the
    layout with a space and the zone parses in that layout (the first one
    rejects it), and gives [t] without its nanoseconds, which the text does
    not carry; the text in the layout with neither parses in the last
    layout only, and gives the civil time of [t] in UTC. *)
Theorem C9_parseSQLiteTimestamp_reads_three_layouts t :
  validTime t →
  (Parse RFC3339Nano (Format t RFC3339Nano) = Some t
   ∧ parseSQLiteTimestamp (Format t RFC3339Nano) = t)
  ∧ (Parse RFC3339Nano (Format t layoutSpaceZone) = None
     ∧ Parse layoutSpaceZone (Format t layoutSpaceZone) = Some (withoutNsec t)
     ∧ parseSQLiteTimestamp (Format t layoutSpaceZone) = withoutNsec t)
  ∧ (Parse RFC3339Nano (Format t layoutSpace) = None
     ∧ Parse layoutSpaceZone (Format t layoutSpace) = None
     ∧ Parse layoutSpace (Format t layoutSpace) = Some (withoutZone t)
     ∧ parseSQLiteTimestamp (Format t layoutSpace) = withoutZone t).
Proof.
  intros Hvalid.
  pose proof (Parse_RFC3339Nano t Hvalid) as H1.
  pose proof (Parse_RFC3339Nano_space t [stdISO8601ColonTZ] Hvalid) as H2.
  pose proof (Parse_layoutSpaceZone t Hvalid) as H3.
  pose proof (Parse_RFC3339Nano_space t [] Hvalid) as H4.
  rewrite app_nil_r in H4.
  pose proof (Parse_layoutSpaceZone_bare t Hvalid) as H5.
  pose proof (Parse_layoutSpace t Hvalid) as H6.
  change (dateChunks " " ++ [stdISO8601ColonTZ]) with layoutSpaceZone in H2.
  change (dateChunks " ") with layoutSpace in H4.
  unfold parseSQLiteTimestamp, timestampLayouts.
  rewrite !bool_decide_eq_false_2.
  - cbn [firstParse]. rewrite H1, H2, H3, H4, H5, H6. done.
  - rewrite <- (app_nil_r layoutSpace). apply Format_date_nonempty.
  - apply Format_date_nonempty.
  - apply Format_date_nonempty.
Qed.

Lemma C9_parseSQLiteTimestamp_reads_three_layouts_witness :
  validTime exampleTime
  ∧ (Parse RFC3339Nano (Format exampleTime RFC3339Nano) = Some exampleTime
     ∧ parseSQLiteTimestamp (Format exampleTime RFC3339Nano) = exampleTime)
  ∧ (Parse RFC3339Nano (Format exampleTime layoutSpaceZone) = None
     ∧ Parse layoutSpaceZone (Format exampleTime layoutSpaceZone)
       = Some (withoutNsec exampleTime)
     ∧ parseSQLiteTimestamp (Format exampleTime layoutSpaceZone)
       = withoutNsec exampleTime)
  ∧ (Parse RFC3339Nano (Format exampleTime layoutSpace) = None
     ∧ Parse layoutSpaceZone (Format exampleTime layoutSpace) = None
     ∧ Parse layoutSpace (Format exampleTime layoutSpace)
       = Some (withoutZone exampleTime)
     ∧ parseSQLiteTimestamp (Format exampleTime layoutSpace)
       = withoutZone exampleTime).
Proof.
  assert (Hvalid : validTime exampleTime) by (vm_compute; repeat split; discriminate).
  split; [exact Hvalid|].
  apply (C9_parseSQLiteTimestamp_reads_three_layouts exampleTime Hvalid).
Defined.

(** The three texts of [exampleTime], and what is read from them. *)
Example exampleTime_texts :
  Format exampleTime RFC3339Nano = "2025-03-09T14:05:07.12+02:00"
  ∧ Format exampleTime layoutSpaceZone = "2025-03-09 14:05:07+02:00"
  ∧ Format exampleTime layoutSpace = "2025-03-09 14:05:07"
  ∧ parseSQLiteTimestamp "2025-03-09T14:05:07.12+02:00" = exampleTime
  ∧ parseSQLiteTimestamp "2025-03-09 14:05:07+02:00"
    = mkTime 2025 3 9 14 5 7 0 7200
  ∧ parseSQLiteTimestamp "2025-03-09 14:05:07" = mkTime 2025 3 9 14 5 7 0 0
  ∧ parseSQLiteTimestamp "2025-03-09T14:05:07Z" = mkTime 2025 3 9 14 5 7 0 0.
Proof. vm_compute. repeat split; reflexivity. Qed.

End timestamps.

(** * Further properties of the code *)

(** ** Hashes and movement keys *)

Lemma bytes_length s : length (bytes s) = String.length s.
Proof. induction s as [|c s IH]; simpl; [done|]. by rewrite IH. Qed.

Lemma bytes_inj s t : bytes s = bytes t → s = t.
Proof.
  intros H. rewrite <- (string_of_list_ascii_of_string s), <- (string_of_list_ascii_of_string t).
  unfold bytes in H. by rewrite H.
Qed.

Lemma Sum256_bytes data :
  length (Sha256.Sum256 data) = 32%nat
  ∧ Forall (λ b, 0 ≤ b < 256)%Z (Sha256.Sum256 data).
Proof.
  unfold Sha256.Sum256.
  generalize (Sha256.blocks (length (Sha256.pad data) `div` 64) Sha256.H0 (Sha256.pad data)).
  intros [[[[[[[a b] c] d] e] f] g] h].
  cbn [map concat Sha256.bigEndian app]. split; [done|].
  repeat (apply Forall_cons; split; [apply Z.mod_pos_bound; lia|]).
  apply Forall_nil_2.
Qed.

Lemma hexDigit_lower d : (0 ≤ d < 16)%Z → isLowerHex (Sha256.hexDigit d) = true.
Proof.
  intros Hd. unfold Sha256.hexDigit, isLowerHex.
  destruct (Z.ltb_spec d 10); rewrite byteZ_byteOf by lia.
  - apply orb_true_iff. left. apply andb_true_iff. split; apply Z.leb_le; lia.
  - apply orb_true_iff. right. apply andb_true_iff. split; apply Z.leb_le; lia.
Qed.

Lemma EncodeToString_bytes bs :
  Forall (λ b, 0 ≤ b < 256)%Z bs →
  length (bytes (Sha256.EncodeToString bs)) = (2 * length bs)%nat
  ∧ Forall (λ c, isLowerHex c = true) (bytes (Sha256.EncodeToString bs)).
Proof.
  unfold Sha256.EncodeToString. rewrite str_bytes.
  induction 1 as [|b bs Hb _ [IH1 IH2]]; [done|].
  cbn [map concat app length]. split; [lia|].
  assert (0 ≤ b / 16 < 16)%Z
    by (split; [apply Z.div_pos; lia | apply Z.div_lt_upper_bound; lia]).
  assert (0 ≤ b mod 16 < 16)%Z by (apply Z.mod_pos_bound; lia).
  repeat (apply Forall_cons; split; [by apply hexDigit_lower|]). done.
Qed.

(** X1. The hash of a content is always a text of sixty-four lower-case
    hexadecimal digits, whatever the content; [HashString] gives the same
    text as [hashBytes]. *)
Theorem X1_hashBytes_is_64_hex_digits (data : string) :
  String.length (hashBytes data) = 64%nat
  ∧ Forall (λ c, isLowerHex c = true) (bytes (hashBytes data))
  ∧ HashString data = hashBytes data.
Proof.
  destruct (Sum256_bytes (map byteZ (bytes data))) as [Hlen Hall].
  destruct (EncodeToString_bytes _ Hall) as [Hl Hhex].
  unfold hashBytes. rewrite <- bytes_length, Hl, Hlen. done.
Qed.

Lemma append_inj_length s1 s2 t1 t2 :
  String.length s1 = String.length s2 → s1 +:+ t1 = s2 +:+ t2 → s1 = s2 ∧ t1 = t2.
Proof.
  revert s2. induction s1 as [|c s1 IH]; intros [|c2 s2]; simpl; try done.
  intros [= Hlen] [= -> Heq]. destruct (IH s2 Hlen Heq) as [-> ->]. done.
Qed.

Lemma hashBytes_length data : String.length (hashBytes data) = 64%nat.
Proof.
  destruct (Sum256_bytes (map byteZ (bytes data))) as [Hlen Hall].
  destruct (EncodeToString_bytes _ Hall) as [Hl _].
  unfold hashBytes. by rewrite <- bytes_length, Hl, Hlen.
Qed.

(** X2. The movement keys of two files are equal exactly when their hashes
    are equal and their base names are: the separator between hash and base
    name cannot be confused with a byte of either, the hashes having one
    length. *)
Theorem X2_movementKey_determines_hash_and_base (c1 c2 p1 p2 : string) :
  movementKey (hashBytes c1) p1 = movementKey (hashBytes c2) p2
  ↔ hashBytes c1 = hashBytes c2 ∧ Filepath.Base p1 = Filepath.Base p2.
Proof.
  unfold movementKey. split.
  - intros Heq. apply append_inj_length in Heq as [Hh Hb];
      [|by rewrite !hashBytes_length].
    split; [done|]. by injection Hb.
  - by intros [-> ->].
Qed.

Lemma elem_of_rev {A : Type} (x : A) (l : list A) : x ∈ rev l ↔ x ∈ l.
Proof. rewrite !list_elem_of_In. symmetry. apply in_rev. Qed.

Lemma lastElem_app l1 l2 acc :
  Filepath.Separator ∉ l1 →
  Filepath.lastElem (l1 ++ Filepath.Separator :: l2) acc = rev l1 ++ acc.
Proof.
  revert acc. induction l1 as [|c l1 IH]; intros acc Hl1; cbn [Filepath.lastElem app rev].
  - unfold Filepath.IsPathSeparator. by rewrite bool_decide_eq_true_2.
  - unfold Filepath.IsPathSeparator. rewrite bool_decide_eq_false_2.
    + rewrite IH; [by rewrite <- app_assoc|]. intros Hin. apply Hl1. by right.
    + intros ->. apply Hl1. by left.
Qed.

Lemma lastElem_all l acc :
  Filepath.Separator ∉ l → Filepath.lastElem l acc = rev l ++ acc.
Proof.
  revert acc. induction l as [|c l IH]; intros acc Hl; cbn [Filepath.lastElem app rev]; [done|].
  unfold Filepath.IsPathSeparator. rewrite bool_decide_eq_false_2.
  - rewrite IH; [by rewrite <- app_assoc|]. intros Hin. apply Hl. by right.
  - intros ->. apply Hl. by left.
Qed.

Lemma Base_nonempty path :
  path ≠ "" →
  Filepath.Base path =
  match Filepath.lastElem
          (Strings.trimLeftByte Filepath.Separator (rev (bytes path))) [] with
  | [] => "/"
  | l => str l
  end.
Proof. by destruct path. Qed.

Lemma Base_last (l1 l2 : list ascii) :
  l1 ≠ [] → Filepath.Separator ∉ l1 →
  match Filepath.lastElem
          (Strings.trimLeftByte Filepath.Separator (rev l1 ++ l2)) [] with
  | [] => "/"
  | l => str l
  end = str l1
  ∨ ∃ c l2', l2 = c :: l2' ∧ c ≠ Filepath.Separator.
Proof.
  intros Hne Hsep.
  assert (Hrev : Filepath.Separator ∉ rev l1) by (by rewrite elem_of_rev).
  destruct (rev l1) as [|c' l'] eqn:Hr.
  { apply (f_equal (@rev ascii)) in Hr. rewrite rev_involutive in Hr. done. }
  cbn [app Strings.trimLeftByte]. rewrite bool_decide_eq_false_2
    by (intros ->; apply Hrev; by left).
  destruct l2 as [|c l2].
  - left. rewrite app_nil_r, lastElem_all, app_nil_r, <- Hr, rev_involutive by done.
    by destruct l1.
  - destruct (decide (c = Filepath.Separator)) as [-> | Hc]; [|right; eauto].
    left. change (c' :: l' ++ Filepath.Separator :: l2)
            with ((c' :: l') ++ Filepath.Separator :: l2).
    rewrite lastElem_app, app_nil_r, <- Hr, rev_involutive by done.
    by destruct l1.
Qed.

Lemma Base_entry name : entryName name → Filepath.Base name = name.
Proof.
  intros [Hne Hsep]. rewrite Base_nonempty by done.
  assert (Hb : bytes name ≠ []) by (by destruct name).
  destruct (Base_last (bytes name) [] Hb Hsep) as [H | (c & l & [=] & _)].
  rewrite app_nil_r in H. rewrite H. apply string_of_list_ascii_of_string.
Qed.

Lemma Base_under dir name :
  entryName name → Filepath.Base (dir +:+ "/" +:+ name) = name.
Proof.
  intros [Hne Hsep].
  assert (Hb : bytes name ≠ []) by (by destruct name).
  rewrite Base_nonempty.
  - rewrite !bytes_append, !rev_app_distr, <- app_assoc.
    destruct (Base_last (bytes name) (rev (bytes "/") ++ rev (bytes dir)) Hb Hsep)
      as [H | (c & l & [= <- _] & Hc)]; [|done].
    rewrite H. apply string_of_list_ascii_of_string.
  - intros Hs. apply (f_equal bytes) in Hs. rewrite !bytes_append in Hs.
    by destruct (bytes dir).
Qed.

(** X3. The movement key of a file does not depend on its directory: under
    every directory, a file of name [name] and hash [h] has the key of the
    file [name] at the root. *)
Theorem X3_movementKey_ignores_directory (h dir name : string) :
  entryName name →
  movementKey h (dir +:+ "/" +:+ name) = h +:+ "|" +:+ name
  ∧ movementKey h name = h +:+ "|" +:+ name.
Proof.
  intros Hname. unfold movementKey. by rewrite Base_under, Base_entry.
Qed.

Lemma X3_movementKey_ignores_directory_witness :
  entryName "note.md"
  ∧ movementKey "ab" ("docs/2025" +:+ "/" +:+ "note.md") = "ab" +:+ "|" +:+ "note.md"
  ∧ movementKey "ab" "note.md" = "ab" +:+ "|" +:+ "note.md".
Proof.
  assert (H : entryName "note.md") by (split; [done | compute_done]).
  split; [exact H|]. apply (X3_movementKey_ignores_directory "ab" "docs/2025" "note.md" H).
Defined.

(** ** The scanner, file by file *)

Lemma walkDir_scan n : ∀ rel name st,
  walkDir scanEntry rel name n st
  = (foldl recordFile st (markdownFiles rel name n), None).
Proof.
  induction n as [data | entries readErr IH] using node_induction;
    intros rel name st.
  - cbn [walkDir scanEntry markdownFiles]. case_bool_decide as Hext.
    + rewrite bool_decide_eq_false_2 by (by intros ?). by destruct data.
    + rewrite bool_decide_eq_true_2 by done. by destruct data.
  - cbn [walkDir markdownFiles].
    change (scanEntry rel (Some (name, Dir entries readErr)) false st) with (st, @None walkResult).
    cbn iota beta.
    assert (H2 : (if readErr then scanEntry rel (Some (name, Dir entries readErr)) true st
                  else (st, None)) = (st, None)) by (by destruct readErr).
    rewrite H2. clear H2. revert st.
    induction IH as [|[name1 n1] es Hn1 _ IHes]; intros st; [done|].
    cbn [snd] in Hn1. rewrite Hn1, foldl_app. apply IHes.
Qed.

Lemma scanMarkdownFiles_present name n :
  scanMarkdownFiles (Present name n)
  = (foldl recordFile ∅ (markdownFiles [] name n), None).
Proof. unfold scanMarkdownFiles, WalkDir. by rewrite walkDir_scan. Qed.

Lemma elem_of_markdownFiles n : ∀ rel name r data,
  (r, data) ∈ markdownFiles rel name n ↔
  ∃ elems nm, fileAt name n elems nm data ∧ Filepath.Ext nm = ".md" ∧ r = rel ++ elems.
Proof.
  induction n as [data' | entries readErr IH] using node_induction;
    intros rel name r data.
  - cbn [markdownFiles]. split.
    + destruct data' as [data'|]; [|by intros ?%elem_of_nil].
      case_bool_decide as Hext; [|by intros ?%elem_of_nil].
      intros [= -> ->]%list_elem_of_singleton.
      exists [], name. rewrite app_nil_r. split; [constructor | done].
    + intros (elems & nm & Hat & Hext & ->). inversion Hat; subst.
      rewrite bool_decide_eq_true_2 by done. rewrite app_nil_r. by left.
  - cbn [markdownFiles].
    assert (Hch : ∀ es, Forall (λ e, ∀ rel name r data,
                (r, data) ∈ markdownFiles rel name e.2 ↔
                ∃ elems nm, fileAt name e.2 elems nm data
                            ∧ Filepath.Ext nm = ".md" ∧ r = rel ++ elems) es →
            (r, data) ∈ (fix children (es : list (string * node)) :=
                match es with
                | [] => []
                | (name1, n1) :: es' =>
                    markdownFiles (rel ++ [name1]) name1 n1 ++ children es'
                end) es ↔
            ∃ name1 n1 elems nm, (name1, n1) ∈ es ∧ fileAt name1 n1 elems nm data
                                 ∧ Filepath.Ext nm = ".md" ∧ r = rel ++ name1 :: elems).
    { induction 1 as [|[name1 n1] es Hn1 _ IHes].
      - split; [by intros ?%elem_of_nil|]. by intros (? & ? & ? & ? & ?%elem_of_nil & _).
      - rewrite elem_of_app, IHes, Hn1. cbn [snd]. split.
        + intros [(elems & nm & Hat & Hext & ->) | (name2 & n2 & elems & nm & Hin & Hat & Hext & ->)].
          * exists name1, n1, elems, nm. rewrite <- app_assoc. split; [by left | done].
          * exists name2, n2, elems, nm. split; [by right | done].
        + intros (name2 & n2 & elems & nm & Hin & Hat & Hext & ->).
          apply elem_of_cons in Hin as [[= -> ->] | Hin].
          * left. exists elems, nm. by rewrite <- app_assoc.
          * right. by exists name2, n2, elems, nm. }
    rewrite (Hch entries IH). split.
    + intros (name1 & n1 & elems & nm & Hin & Hat & Hext & ->).
      exists (name1 :: elems), nm. split; [by econstructor | done].
    + intros (elems & nm & Hat & Hext & ->). inversion Hat; subst.
      by eexists _, _, _, _.
Qed.

Lemma recordFile_lookup l : ∀ st,
  (∀ p f, foldl recordFile st l !! p = Some f →
     st !! p = Some f
     ∨ ∃ r data, (r, data) ∈ l ∧ p = relPathOf r
                 ∧ f = mkFileRecord (hashBytes data) data)
  ∧ (∀ p, is_Some (st !! p) → is_Some (foldl recordFile st l !! p))
  ∧ (∀ r data, (r, data) ∈ l → is_Some (foldl recordFile st l !! relPathOf r)).
Proof.
  induction l as [|[r0 d0] l IH]; intros st.
  - split; [by left|]. split; [done|]. by intros ? ? ?%elem_of_nil.
  - cbn [foldl]. destruct (IH (recordFile st (r0, d0))) as (IH1 & IH2 & IH3).
    split; [|split].
    + intros p f Hpf. apply IH1 in Hpf as [Hst | (r & data & Hin & -> & ->)].
      * unfold recordFile in Hst. cbn [fst snd] in Hst.
        destruct (decide (relPathOf r0 = p)) as [<- | Hne].
        -- rewrite lookup_insert_eq in Hst. injection Hst as <-.
           right. exists r0, d0. split; [by left | done].
        -- rewrite lookup_insert_ne in Hst by done. by left.
      * right. exists r, data. split; [by right | done].
    + intros p Hp. apply IH2. unfold recordFile. cbn [fst snd].
      destruct (decide (relPathOf r0 = p)) as [<- | Hne].
      * rewrite lookup_insert_eq. by eexists.
      * by rewrite lookup_insert_ne.
    + intros r data [[= -> ->] | Hin]%elem_of_cons.
      * apply IH2. unfold recordFile. cbn [fst snd]. rewrite lookup_insert_eq. by eexists.
      * by apply (IH3 r data).
Qed.

Lemma extScan_app l1 l2 acc :
  Filepath.extScan l1 acc ≠ [] →
  Filepath.extScan (l1 ++ l2) acc = Filepath.extScan l1 acc.
Proof.
  revert acc. induction l1 as [|c l1 IH]; intros acc; cbn [Filepath.extScan app]; [done|].
  destruct (Filepath.IsPathSeparator c); [done|].
  case_bool_decide; [done|]. apply IH.
Qed.

Lemma Ext_suffix pre nm :
  Filepath.Ext nm ≠ "" → Filepath.Ext (pre +:+ nm) = Filepath.Ext nm.
Proof.
  unfold Filepath.Ext. intros Hext. rewrite bytes_append, rev_app_distr.
  rewrite extScan_app; [done|]. intros Hnil. by rewrite Hnil in Hext.
Qed.

Lemma Join_suffix elems nm :
  last elems = Some nm → ∃ pre, Strings.Join elems "/" = pre +:+ nm.
Proof.
  induction elems as [|e elems IH]; [done|]. destruct elems as [|e' elems].
  - intros [= ->]. by exists "".
  - intros Hlast. destruct (IH Hlast) as [pre Hpre].
    exists (e +:+ "/" +:+ pre). cbn [Strings.Join] in *. rewrite Hpre.
    apply bytes_inj. rewrite !bytes_append. by rewrite <- !app_assoc.
Qed.

Lemma fileAt_last name n elems nm data :
  fileAt name n elems nm data → last (name :: elems) = Some nm.
Proof.
  induction 1 as [|name entries readErr name1 n1 elems nm data _ _ IH]; [done|].
  by rewrite last_cons_cons.
Qed.

(** X4. What the scanner records under a root that exists: every record is
    the content of a readable file that lies below the root and whose name
    has the extension .md, under the file's path relative to the root, with
    the hash of that content; and every such file has a record under its
    relative path. Entries that cannot be read, directories and other
    files leave no record; under a root that is a directory every recorded
    path has the extension .md. *)
Theorem X4_scan_records_readable_markdown_files (name : string) (n : node) :
  (∀ p f, (scanMarkdownFiles (Present name n)).1 !! p = Some f →
     ∃ elems nm data,
       fileAt name n elems nm data ∧ Filepath.Ext nm = ".md"
       ∧ p = relPathOf elems
       ∧ f = mkFileRecord (hashBytes data) data)
  ∧ (∀ elems nm data,
       fileAt name n elems nm data → Filepath.Ext nm = ".md" →
       is_Some ((scanMarkdownFiles (Present name n)).1 !! relPathOf elems))
  ∧ (∀ entries readErr p,
       n = Dir entries readErr →
       is_Some ((scanMarkdownFiles (Present name n)).1 !! p) →
       Filepath.Ext p = ".md").
Proof.
  rewrite scanMarkdownFiles_present. cbn [fst].
  destruct (recordFile_lookup (markdownFiles [] name n) ∅) as (H1 & _ & H3).
  assert (Hsound : ∀ p f,
            foldl recordFile ∅ (markdownFiles [] name n) !! p = Some f →
            ∃ elems nm data,
              fileAt name n elems nm data ∧ Filepath.Ext nm = ".md"
              ∧ p = relPathOf elems ∧ f = mkFileRecord (hashBytes data) data).
  { intros p f Hpf. apply H1 in Hpf as [Hst | (r & data & Hin & -> & ->)];
      [by rewrite lookup_empty in Hst|].
    apply elem_of_markdownFiles in Hin as (elems & nm & Hat & Hext & ->).
    by exists elems, nm, data. }
  split; [exact Hsound|]. split.
  - intros elems nm data Hat Hext.
    apply (H3 elems data), elem_of_markdownFiles. by exists elems, nm.
  - intros entries readErr p -> [f Hpf].
    apply Hsound in Hpf as (elems & nm & data & Hat & Hext & -> & _).
    pose proof (fileAt_last _ _ _ _ _ Hat) as Hlast.
    destruct elems as [|e elems]; [by inversion Hat|].
    rewrite last_cons_cons in Hlast.
    destruct (Join_suffix _ _ Hlast) as [pre Hpre].
    unfold relPathOf, Filepath.ToSlash. rewrite Hpre, Ext_suffix; [done|].
    by rewrite Hext.
Qed.

(** X5. The scanner reports no error, whatever the file system: the errors
    of the walk and of reading are passed over. A root that cannot be
    inspected, whatever the error, gives the empty snapshot; a root that is
    itself a Markdown file is recorded under the path "." when it can be
    read. *)
Theorem X5_scan_reports_no_error dataDir :
  (scanMarkdownFiles dataDir).2 = None
  ∧ (∀ e, scanMarkdownFiles (Missing e) = (∅, None))
  ∧ (∀ name data,
       scanMarkdownFiles (Present name (File data))
       = (match data with
          | Some content =>
              if bool_decide (Filepath.Ext name = ".md")
              then {["." := mkFileRecord (hashBytes content) content]}
              else ∅
          | None => ∅
          end, None)).
Proof.
  split; [apply scanMarkdownFiles_no_error|]. split; [done|].
  intros name data. unfold scanMarkdownFiles, WalkDir.
  cbn [walkDir scanEntry relPathOf].
  destruct (decide (Filepath.Ext name = ".md")) as [Hext | Hext].
  - rewrite (bool_decide_eq_false_2 (Filepath.Ext name ≠ ".md")) by (by intros ?).
    rewrite (bool_decide_eq_true_2 _ Hext). by destruct data.
  - rewrite (bool_decide_eq_true_2 (Filepath.Ext name ≠ ".md")) by done.
    rewrite (bool_decide_eq_false_2 _ Hext). by destruct data.
Qed.

(** ** Queries and their normal form *)

Lemma normalizeHistoryPath_bytes p :
  bytes (normalizeHistoryPath p)
  = Strings.trimLeftByte "/"%char
      (Strings.trimRightSpace (Strings.trimLeftSpace (bytes p))).
Proof.
  unfold normalizeHistoryPath, Filepath.ToSlash, Strings.TrimLeft, Strings.TrimSpace.
  by rewrite !str_bytes.
Qed.

Lemma trimLeftByte_suffix b l : ∃ pre, l = pre ++ Strings.trimLeftByte b l.
Proof.
  induction l as [|c l [pre IH]]; [by exists []|]. cbn [Strings.trimLeftByte].
  case_bool_decide; [|by exists []]. exists (c :: pre). simpl. by rewrite <- IH.
Qed.

Lemma trimLeftByte_head b l c l' : Strings.trimLeftByte b l = c :: l' → c ≠ b.
Proof.
  induction l as [|c0 l IH]; [done|]. cbn [Strings.trimLeftByte].
  case_bool_decide as Hc; [done|]. by intros [= <- _].
Qed.

Lemma trimLeftSpace_suffix l : ∃ pre, l = pre ++ Strings.trimLeftSpace l.
Proof.
  remember (length l) as n eqn:Hn. revert l Hn.
  induction n as [n IH] using lt_wf_ind. intros l ->.
  destruct l as [|c1 l1]; [by exists []|]. cbn [Strings.trimLeftSpace].
  destruct (Strings.asciiSpace c1).
  { destruct (IH (length l1) ltac:(simpl; lia) l1 eq_refl) as [pre Hpre].
    exists (c1 :: pre). simpl. by rewrite <- Hpre. }
  destruct l1 as [|c2 l2]; [by exists []|].
  destruct (Strings.space2 c1 c2).
  { destruct (IH (length l2) ltac:(simpl; lia) l2 eq_refl) as [pre Hpre].
    exists (c1 :: c2 :: pre). simpl. by rewrite <- Hpre. }
  destruct l2 as [|c3 l3]; [by exists []|].
  destruct (Strings.space3 c1 c2 c3); [|by exists []].
  destruct (IH (length l3) ltac:(simpl; lia) l3 eq_refl) as [pre Hpre].
  exists (c1 :: c2 :: c3 :: pre). simpl. by rewrite <- Hpre.
Qed.

Lemma trimLeftSpaceRev_suffix l : ∃ pre, l = pre ++ Strings.trimLeftSpaceRev l.
Proof.
  remember (length l) as n eqn:Hn. revert l Hn.
  induction n as [n IH] using lt_wf_ind. intros l ->.
  destruct l as [|c1 l1]; [by exists []|]. cbn [Strings.trimLeftSpaceRev].
  destruct (Strings.asciiSpace c1).
  { destruct (IH (length l1) ltac:(simpl; lia) l1 eq_refl) as [pre Hpre].
    exists (c1 :: pre). simpl. by rewrite <- Hpre. }
  destruct l1 as [|c2 l2]; [by exists []|].
  destruct (Strings.space2 c2 c1).
  { destruct (IH (length l2) ltac:(simpl; lia) l2 eq_refl) as [pre Hpre].
    exists (c1 :: c2 :: pre). simpl. by rewrite <- Hpre. }
  destruct l2 as [|c3 l3]; [by exists []|].
  destruct (Strings.space3 c3 c2 c1); [|by exists []].
  destruct (IH (length l3) ltac:(simpl; lia) l3 eq_refl) as [pre Hpre].
  exists (c1 :: c2 :: c3 :: pre). simpl. by rewrite <- Hpre.
Qed.

Lemma trimRightSpace_prefix l : ∃ post, l = Strings.trimRightSpace l ++ post.
Proof.
  unfold Strings.trimRightSpace.
  destruct (trimLeftSpaceRev_suffix (rev l)) as [pre Hpre].
  exists (rev pre). rewrite <- rev_app_distr, <- Hpre. by rewrite rev_involutive.
Qed.

(** X6. The normal form of a query never starts with a slash, and it is a
    piece of the query: normalising removes bytes from both ends of the
    query and changes nothing between them. *)
Theorem X6_normalizeHistoryPath_strips_the_ends (p : string) :
  (∀ s, normalizeHistoryPath p ≠ String "/" s)
  ∧ ∃ pre post, p = pre +:+ normalizeHistoryPath p +:+ post.
Proof.
  split.
  - intros s Hs. apply (f_equal bytes) in Hs.
    rewrite normalizeHistoryPath_bytes in Hs. simpl in Hs.
    by apply trimLeftByte_head in Hs.
  - destruct (trimLeftSpace_suffix (bytes p)) as [pre1 H1].
    destruct (trimRightSpace_prefix (Strings.trimLeftSpace (bytes p))) as [post H2].
    destruct (trimLeftByte_suffix "/"%char
                (Strings.trimRightSpace (Strings.trimLeftSpace (bytes p)))) as [pre2 H3].
    exists (str (pre1 ++ pre2)), (str post). apply bytes_inj.
    rewrite !bytes_append, !str_bytes, normalizeHistoryPath_bytes.
    rewrite H1 at 1. rewrite H2 at 1. rewrite H3 at 1. by rewrite <- !app_assoc.
Qed.

Lemma plainByte_not_space c :
  plainByte c = true →
  Strings.asciiSpace c = false
  ∧ (∀ z, (127 ≤ z)%Z → isByte z c = false)
  ∧ ((128 <=? byteZ c)%Z = false).
Proof.
  unfold plainByte, Strings.asciiSpace, isByte.
  intros [H1 H2]%andb_true_iff. apply Z.ltb_lt in H1. apply Z.ltb_lt in H2.
  split; [|split].
  - apply orb_false_iff. split; [apply andb_false_iff; right; apply Z.leb_gt; lia|].
    apply Z.eqb_neq. lia.
  - intros z Hz. apply Z.eqb_neq. lia.
  - apply Z.leb_gt. lia.
Qed.

Lemma trimLeftSpace_plain c l :
  plainByte c = true → Strings.trimLeftSpace (c :: l) = c :: l.
Proof.
  intros (Hsp & Hb & _)%plainByte_not_space. cbn [Strings.trimLeftSpace]. rewrite Hsp.
  destruct l as [|c2 l2]; [done|].
  unfold Strings.space2. rewrite (Hb 0xC2%Z) by lia. cbn [andb].
  destruct l2 as [|c3 l3]; [done|].
  unfold Strings.space3.
  by rewrite (Hb 0xE1%Z), (Hb 0xE2%Z), (Hb 0xE3%Z) by lia.
Qed.

Lemma trimLeftSpaceRev_plain c l :
  plainByte c = true → Strings.trimLeftSpaceRev (c :: l) = c :: l.
Proof.
  intros (Hsp & Hb & Hhi)%plainByte_not_space. cbn [Strings.trimLeftSpaceRev].
  rewrite Hsp. destruct l as [|c2 l2]; [done|].
  unfold Strings.space2. rewrite (Hb 0x85%Z), (Hb 0xA0%Z) by lia.
  rewrite andb_false_r.
  destruct l2 as [|c3 l3]; [done|].
  unfold Strings.space3.
  rewrite (Hb 0x80%Z), (Hb 0xA8%Z), (Hb 0xA9%Z), (Hb 0xAF%Z), (Hb 0x9F%Z) by lia.
  rewrite Hhi. cbn [andb orb]. by rewrite !andb_false_r.
Qed.

(** X7. A query that starts with a printable ASCII byte other than the
    space and the slash, and ends with a printable ASCII byte other than
    the space, is its own normal form. *)
Theorem X7_normalizeHistoryPath_keeps_plain_paths (p : string) (c1 cn : ascii) :
  head (bytes p) = Some c1 → last (bytes p) = Some cn →
  plainByte c1 = true → c1 ≠ "/"%char → plainByte cn = true →
  normalizeHistoryPath p = p.
Proof.
  intros Hhead Hlast H1 Hslash Hn. apply bytes_inj.
  rewrite normalizeHistoryPath_bytes.
  destruct (bytes p) as [|c l] eqn:Hp; [done|]. injection Hhead as ->.
  rewrite trimLeftSpace_plain by done.
  assert (Hrev : ∃ l', rev (c1 :: l) = cn :: l').
  { destruct (rev (c1 :: l)) as [|c' l'] eqn:Hr.
    - apply (f_equal (@rev ascii)) in Hr. by rewrite rev_involutive in Hr.
    - exists l'. f_equal. apply (f_equal (@rev ascii)) in Hr.
      rewrite rev_involutive in Hr. rewrite Hr in Hlast. simpl in Hlast.
      rewrite last_snoc in Hlast. by injection Hlast. }
  destruct Hrev as [l' Hr]. unfold Strings.trimRightSpace.
  rewrite Hr, trimLeftSpaceRev_plain, <- Hr, rev_involutive by done.
  cbn [Strings.trimLeftByte]. by rewrite bool_decide_eq_false_2.
Qed.

Lemma X7_normalizeHistoryPath_keeps_plain_paths_witness :
  head (bytes "docs/my note.md") = Some "d"%char
  ∧ last (bytes "docs/my note.md") = Some "d"%char
  ∧ normalizeHistoryPath "docs/my note.md" = "docs/my note.md".
Proof.
  split; [reflexivity|]. split; [reflexivity|].
  apply (X7_normalizeHistoryPath_keeps_plain_paths "docs/my note.md" "d" "d");
    [reflexivity | reflexivity | reflexivity | discriminate | reflexivity].
Defined.

Lemma uniquePaths_spec paths : ∀ seen,
  NoDup (uniquePaths seen paths)
  ∧ (∀ c, c ∈ uniquePaths seen paths ↔ c ∈ paths ∧ c ≠ "" ∧ (c ∉ seen))
  ∧ length (uniquePaths seen paths) ≤ length paths.
Proof.
  induction paths as [|c0 paths IH]; intros seen; cbn [uniquePaths].
  - split; [constructor|]. split; [|done]. intros c. split; [by intros ?%elem_of_nil|].
    by intros [?%elem_of_nil _].
  - destruct (bool_decide (c0 = "") || bool_decide (c0 ∈ seen)) eqn:Hskip.
    + destruct (IH seen) as (H1 & H2 & H3). split; [done|]. split; [|simpl; lia].
      intros c. rewrite H2, elem_of_cons. split; [tauto|].
      intros ([-> | Hin] & Hne & Hseen); [|done].
      apply orb_true_iff in Hskip as [?%bool_decide_eq_true | ?%bool_decide_eq_true]; done.
    + apply orb_false_iff in Hskip as [Hne%bool_decide_eq_false Hseen%bool_decide_eq_false].
      destruct (IH ({[c0]} ∪ seen)) as (H1 & H2 & H3). split; [|split; [|simpl; lia]].
      * apply NoDup_cons. split; [|done]. rewrite H2. intros (_ & _ & Hn).
        apply Hn, elem_of_union. left. by apply elem_of_singleton.
      * intros c. rewrite !elem_of_cons, H2, not_elem_of_union, not_elem_of_singleton.
        split.
        -- intros [-> | (Hin & Hc & Hc0 & Hs)]; [by split; [left|] | by split; [right|]].
        -- intros ([-> | Hin] & Hc & Hs); [by left|].
           destruct (decide (c = c0)) as [-> | Hc0]; [by left | by right].
Qed.

(** X8. The seeds of a query: at most three paths, all different, none
    empty, the normal form of the query first; there is none exactly when
    the normal form is empty. Every seed is the normal form, the normal
    form with .md, or the index.md file under it. *)
Theorem X8_seedHistoryPaths_are_distinct_candidates (p : string) :
  NoDup (seedHistoryPaths p)
  ∧ ("" ∉ seedHistoryPaths p)
  ∧ length (seedHistoryPaths p) ≤ 3
  ∧ (seedHistoryPaths p = [] ↔ normalizeHistoryPath p = "")
  ∧ (normalizeHistoryPath p ≠ "" → head (seedHistoryPaths p) = Some (normalizeHistoryPath p))
  ∧ (∀ c, c ∈ seedHistoryPaths p →
       c = normalizeHistoryPath p ∨ c = normalizeHistoryPath p +:+ ".md"
       ∨ c = Filepath.ToSlash (Filepath.Join [normalizeHistoryPath p; "index.md"])).
Proof.
  unfold seedHistoryPaths. cbn zeta. set (n := normalizeHistoryPath p).
  case_bool_decide as Hn.
  { split; [constructor|]. split; [by intros ?%elem_of_nil|]. split; [simpl; lia|].
    split; [done|]. split; [done|]. by intros c ?%elem_of_nil. }
  set (paths := if bool_decide (Filepath.Ext n = "") then _ else _).
  destruct (uniquePaths_spec paths ∅) as (H1 & H2 & H3).
  assert (Hlen : length paths ≤ 3) by (unfold paths; case_bool_decide; simpl; lia).
  assert (Hhead : ∃ rest, paths = n :: rest)
    by (unfold paths; case_bool_decide; eauto).
  destruct Hhead as [rest Hrest].
  assert (Hu : ∃ rest', uniquePaths ∅ paths = n :: rest').
  { rewrite Hrest. cbn [uniquePaths]. rewrite bool_decide_eq_false_2 by done.
    rewrite bool_decide_eq_false_2 by apply not_elem_of_empty. eauto. }
  destruct Hu as [rest' Hu].
  split; [done|]. split; [by intros (_ & ? & _)%H2|]. split; [lia|].
  split; [by rewrite Hu|]. split; [by rewrite Hu|].
  intros c (Hin & _)%H2. unfold paths in Hin. case_bool_decide.
  - apply elem_of_cons in Hin as [-> | Hin]; [by left|].
    apply elem_of_cons in Hin as [-> | Hin]; [by right; left|].
    apply list_elem_of_singleton in Hin as ->. by right; right.
  - apply list_elem_of_singleton in Hin as ->. by left.
Qed.

(** ** What the resolver collects *)

Lemma loopLinked_init rows seeds : loopLinked rows seeds (mkWalk ∅ seeds ∅ []).
Proof.
  split; simpl.
  - intros c [Hc | Hc]; [by apply not_elem_of_empty in Hc | by constructor].
  - by intros e ?%elem_of_nil.
Qed.

Lemma visitPath_linked rows seeds st current queue' :
  loopInv rows seeds st → loopLinked rows seeds st → queue st = current :: queue' →
  loopLinked rows seeds (visitPath rows st current queue').
Proof.
  intros [_ Hnd Hseen _ _ _] [Hlink Hent] Hq. unfold visitPath. rewrite Hq in Hlink.
  case_bool_decide as Hv.
  - split; simpl; [|done].
    intros c [Hc | Hc]; apply Hlink; [by left | right; by right].
  - set (st1 := mkWalk ({[current]} ∪ visited st) queue' (seenIDs st) (entries st)).
    destruct (scanRows_queue st1 (queryHistory rows current))
      as (added & Hqueue & _ & Hin & _).
    destruct (scanRows_entries st1 (queryHistory rows current) Hseen Hnd)
      as (_ & _ & _ & _ & es & Hes & Hes').
    assert (Hcur : linked rows seeds current) by (apply Hlink; right; by left).
    split.
    + intros c. rewrite scanRows_visited, Hqueue. simpl.
      intros [[->%elem_of_singleton | Hc]%elem_of_union | [Hc | Hc]%elem_of_app].
      * done.
      * apply Hlink. by left.
      * apply Hlink. right. by right.
      * destruct (Hin c Hc) as (_ & r & [Hr Hmatch]%elem_of_queryHistory & Hp).
        destruct Hmatch as [Hpath | Hprev].
        -- by apply (linked_prev rows seeds current r c).
        -- rewrite Hp in Hprev. by injection Hprev as ->.
    + intros e. rewrite Hes, scanRows_visited. simpl.
      intros [He | He]%elem_of_app.
      * destruct (Hent e He) as (r & c & Hr & -> & Hc & Hmatch).
        exists r, c. split; [done|]. split; [done|]. split; [|done].
        apply elem_of_union. by right.
      * destruct (Hes' e He) as (r & [Hr Hmatch]%elem_of_queryHistory & ->).
        exists r, current. split; [done|]. split; [done|]. split; [|done].
        apply elem_of_union. left. by apply elem_of_singleton.
Qed.

Lemma historyLoop_linked rows seeds fuel : ∀ st st',
  loopInv rows seeds st → loopLinked rows seeds st →
  historyLoop fuel rows st = Some st' → loopLinked rows seeds st'.
Proof.
  induction fuel as [|fuel IH]; intros st st' Hinv Hlink; simpl;
    destruct (queue st) as [|current queue'] eqn:Hq; try done.
  - by intros [= <-].
  - by intros [= <-].
  - apply IH; [by apply visitPath_inv | by apply visitPath_linked].
Qed.

(** The entries collected when the loop ends, for a table with distinct
    ids: those of the rows at a linked path or moved from one. *)
Lemma collected_entries rows seeds st :
  NoDup (id <$> rows) →
  loopInv rows seeds st → loopLinked rows seeds st → queue st = [] →
  ∀ e, e ∈ entries st ↔
       ∃ r c, r ∈ rows ∧ e = entryOfRow r ∧ linked rows seeds c
              ∧ (path r = c ∨ previous_path r = Some c).
Proof.
  intros Hids [Hsound Hnd Hseen Hcomp Hchain Hseeds] [Hlink Hent] Hq.
  rewrite Hq in Hchain, Hseeds.
  assert (Hcollected : ∀ r, r ∈ rows → id r ∈ seenIDs st → entryOfRow r ∈ entries st).
  { intros r Hr Hid. rewrite Hseen in Hid.
    apply elem_of_list_to_set, list_elem_of_fmap in Hid as (e & Hid & He).
    destruct (Hsound e He) as (r' & Hr' & ->). simpl in Hid.
    by rewrite (rows_same_id rows r r' Hids Hr Hr' Hid). }
  assert (Hvisited : ∀ c, linked rows seeds c → c ∈ visited st).
  { induction 1 as [c Hc | c r q _ IH Hr Hpath Hprev].
    - destruct (Hseeds c Hc) as [? | ?%elem_of_nil]; done.
    - assert (He : entryOfRow r ∈ entries st).
      { apply Hcollected; [done|]. apply (Hcomp c r IH Hr). by left. }
      destruct (Hchain _ q He Hprev) as [? | ?%elem_of_nil]; done. }
  intros e. split.
  - intros (r & c & Hr & -> & Hc & Hmatch)%Hent.
    exists r, c. split; [done|]. split; [done|]. split; [|done]. apply Hlink. by left.
  - intros (r & c & Hr & -> & Hc & Hmatch). apply Hcollected; [done|].
    by apply (Hcomp c r (Hvisited c Hc) Hr).
Qed.

(** X9. What [GetHistoryForPath] returns on an open index whose rows have
    distinct ids: exactly the entries of the rows that lie at a path linked
    to the query, or were moved from one, each once. A path is linked to the
    query when it is one of its seeds or the previous path of a row at a
    linked path: the history follows moves back to every earlier path, and
    from an earlier path it holds the move away but not what happened at
    the new path afterwards. *)
Theorem X9_history_is_the_rows_at_linked_paths s rows p :
  db s = Some rows → NoDup (id <$> rows) →
  ∃ es, GetHistoryForPath s p = inr es
    ∧ NoDup (ID <$> es)
    ∧ ∀ e, e ∈ es ↔
           ∃ r c, r ∈ rows ∧ e = entryOfRow r
                  ∧ linked rows (seedHistoryPaths p) c
                  ∧ (path r = c ∨ previous_path r = Some c).
Proof.
  intros Hdb Hids.
  destruct (GetHistoryForPath_spec s rows p Hdb) as (st & Hst & Hinv & Hq & Hget & _).
  pose proof (historyLoop_linked rows _ _ _ st (loopInv_init rows _)
                (loopLinked_init rows _) Hst) as Hlink.
  exists (sortSlice entryLess (entries st)). split; [done|]. split.
  - rewrite (sortSlice_Permutation entryLess (entries st)). apply Hinv.
  - intros e. rewrite (sortSlice_Permutation entryLess (entries st)).
    by apply collected_entries.
Qed.

Lemma linked_Permutation rows rows' seeds c :
  rows ≡ₚ rows' → linked rows seeds c → linked rows' seeds c.
Proof.
  intros Hperm. induction 1 as [c Hc | c r q _ IH Hr Hpath Hprev].
  - by constructor.
  - apply (linked_prev rows' seeds c r q); [done | by rewrite <- Hperm | done..].
Qed.

(** X10. The history does not depend on the order of the rows in the
    table: two tables with the same rows, of distinct ids, give the same
    history for every query, in the same order. *)
Theorem X10_history_ignores_row_order rows rows' p :
  NoDup (id <$> rows) → rows ≡ₚ rows' →
  GetHistoryForPath (mkIndex (Some rows)) p = GetHistoryForPath (mkIndex (Some rows')) p.
Proof.
  intros Hids Hperm.
  assert (Hids' : NoDup (id <$> rows')) by (by rewrite <- Hperm).
  destruct (GetHistoryForPath_spec (mkIndex (Some rows)) rows p eq_refl)
    as (st & Hst & Hinv & Hq & -> & Hsorted).
  destruct (GetHistoryForPath_spec (mkIndex (Some rows')) rows' p eq_refl)
    as (st' & Hst' & Hinv' & Hq' & -> & Hsorted').
  pose proof (historyLoop_linked rows _ _ _ st (loopInv_init rows _)
                (loopLinked_init rows _) Hst) as Hlink.
  pose proof (historyLoop_linked rows' _ _ _ st' (loopInv_init rows' _)
                (loopLinked_init rows' _) Hst') as Hlink'.
  f_equal. apply (sorted_permutation_unique entryLess entryLess_asym); [done| |done].
  rewrite (sortSlice_Permutation entryLess (entries st')).
  apply NoDup_Permutation.
  - apply (NoDup_fmap_1 ID), Hinv'.
  - apply (NoDup_fmap_1 ID), Hinv.
  - intros e.
    rewrite (collected_entries rows' _ st' Hids' Hinv' Hlink' Hq' e).
    rewrite (collected_entries rows _ st Hids Hinv Hlink Hq e).
    split; intros (r & c & Hr & He & Hc & Hmatch); exists r, c.
    + split; [by rewrite Hperm|]. split; [done|]. split; [|done].
      by apply (linked_Permutation rows' rows); [symmetry|].
    + split; [by rewrite <- Hperm|]. split; [done|]. split; [|done].
      by apply (linked_Permutation rows rows').
Qed.

Lemma seedHistoryPaths_length p : length (seedHistoryPaths p) ≤ 3.
Proof.
  unfold seedHistoryPaths. cbn zeta. case_bool_decide; [simpl; lia|].
  set (paths := if bool_decide (_ = "") then _ else _).
  destruct (uniquePaths_spec paths ∅) as (_ & _ & Hlen).
  assert (length paths ≤ 3) by (unfold paths; case_bool_decide; simpl; lia). lia.
Qed.

Lemma linked_seed_or_previous rows seeds c :
  linked rows seeds c → c ∈ (list_to_set seeds ∪ prevPaths rows : gset string).
Proof.
  intros [c' Hc | c' r q _ Hr _ Hprev]; apply elem_of_union.
  - left. by apply elem_of_list_to_set.
  - right. by apply (elem_of_prevPaths rows r).
Qed.

Lemma size_prevPaths rows : size (prevPaths rows) ≤ length rows.
Proof.
  assert (Hlen : length (omap previous_path rows) ≤ length rows).
  { induction rows as [|r rows IH]; [done|].
    unfold omap in *. simpl. destruct (previous_path r); simpl; lia. }
  unfold prevPaths. pose proof (size_list_to_set_le (omap previous_path rows)). lia.
Qed.

(** X11. The loop of [GetHistoryForPath] (lines 199-244) ends on every
    table, however the recorded moves chain or cycle: within the iterations
    of [historyFuel] its queue is empty. The paths it has looked up by then
    are seeds of the query or previous paths of rows, so there are at most
    three more of them than rows. A query whose normal form is empty looks
    nothing up: on an open index it gets the empty history. *)
Theorem X11_history_loop_ends_on_every_table rows p :
  (∃ st, historyLoop (historyFuel rows (seedHistoryPaths p)) rows
           (mkWalk ∅ (seedHistoryPaths p) ∅ []) = Some st
     ∧ queue st = []
     ∧ visited st ⊆ list_to_set (seedHistoryPaths p) ∪ prevPaths rows
     ∧ size (visited st) ≤ 3 + length rows)
  ∧ (normalizeHistoryPath p = "" →
     historyLoop (historyFuel rows (seedHistoryPaths p)) rows
       (mkWalk ∅ (seedHistoryPaths p) ∅ []) = Some (mkWalk ∅ [] ∅ [])
     ∧ ∀ s, db s = Some rows → GetHistoryForPath s p = inr []).
Proof.
  split.
  - destruct (historyLoop_terminates rows (historyFuel rows (seedHistoryPaths p))
                (mkWalk ∅ (seedHistoryPaths p) ∅ [])) as [st Hst];
      [apply historyFuel_enough|].
    destruct (historyLoop_inv rows (seedHistoryPaths p) _ _ st
                (loopInv_init rows (seedHistoryPaths p)) Hst) as [Hinv Hq].
    destruct (historyLoop_linked rows _ _ _ st (loopInv_init rows _)
                (loopLinked_init rows _) Hst) as [Hlink _].
    assert (Hsub : visited st ⊆ list_to_set (seedHistoryPaths p) ∪ prevPaths rows).
    { intros c Hc. apply linked_seed_or_previous, Hlink. by left. }
    exists st. split; [done|]. split; [done|]. split; [done|].
    apply subseteq_size in Hsub. rewrite size_union_alt in Hsub.
    pose proof (size_list_to_set_le (seedHistoryPaths p)).
    pose proof (seedHistoryPaths_length p).
    assert (size (prevPaths rows ∖ (list_to_set (seedHistoryPaths p) : gset string))
            ≤ size (prevPaths rows)) by (apply subseteq_size; set_solver).
    pose proof (size_prevPaths rows). lia.
  - intros Hn.
    assert (Hseeds : seedHistoryPaths p = []).
    { unfold seedHistoryPaths. cbn zeta. by rewrite bool_decide_eq_true_2. }
    rewrite Hseeds. split; [done|]. intros s Hdb.
    unfold GetHistoryForPath. by rewrite Hdb, Hseeds.
Qed.

(** X12. The comparison of the final sort orders entries with distinct ids
    totally and strictly, so the sorted history is the only list that holds
    those entries in that order: it does not depend on how [sort.Slice]
    sorts. *)
Theorem X12_sorted_history_is_unique (l l' : list FileHistoryEntry) :
  NoDup (ID <$> l) → l' ≡ₚ l → StronglySorted entryBefore l' →
  sortSlice entryLess l = l'.
Proof.
  intros Hnd Hperm Hsorted.
  apply (sorted_permutation_unique entryLess entryLess_asym); [done | done |].
  apply sortSlice_sorted; [apply entryLess_trans|].
  intros i j x y Hi Hj Hne. apply entryLess_total. intros Hid. apply Hne.
  eapply (NoDup_lookup (ID <$> l)); [done | |].
  - rewrite list_lookup_fmap, Hi. done.
  - rewrite list_lookup_fmap, Hj. simpl. by rewrite Hid.
Qed.

(** ** The rows of a pass, path by path *)

Global Instance consumed_dec latest aliasPaths currentFiles ordL ordC p :
  Decision (consumed latest aliasPaths currentFiles ordL ordC p).
Proof. unfold consumed. destruct (candidateKey _ _ _ _); apply _. Defined.

Section passRows.
Variable clock : Z → string.
Variable currentFiles : gmap string fileRecord.
Variable rows0 : list Row.

#[local] Abbreviation latest0 := (latestFileSnapshots rows0).
#[local] Abbreviation alias0 := (aliasPathsOf (latestFileSnapshots rows0)).
#[local] Abbreviation candKey0 := (candidateKey latest0 alias0 currentFiles).
#[local] Abbreviation cands ordL key := (candidatesOf latest0 alias0 currentFiles ordL key).
#[local] Abbreviation arrs ordC key := (arrivalsOf latest0 currentFiles ordC key).
#[local] Abbreviation third ord st :=
  (rangeMap ord currentFiles (classifyCurrent clock latest0) st).

Lemma candidate_latest ordL key i p :
  cands ordL key !! i = Some p →
  candKey0 p = Some key
  ∧ ∃ snap, latest0 !! p = Some snap ∧ Path snap = p.
Proof.
  intros Hi. apply list_elem_of_lookup_2, list_elem_of_filter in Hi as [Hkey _].
  split; [done|].
  destruct (candidateKey_Some currentFiles rows0 p key Hkey) as (snap & Hsnap & _).
  exists snap. split; [done|]. by apply (latest_Path rows0).
Qed.

Lemma consumed_alt ordL ordC p :
  consumed latest0 alias0 currentFiles ordL ordC p ↔
  ∃ key i, cands ordL key !! i = Some p ∧ i < length (arrs ordC key).
Proof.
  unfold consumed. split.
  - destruct (candKey0 p) as [key|]; [|done].
    intros (i & Hi)%list_elem_of_lookup_1. apply lookup_take_Some in Hi as [Hi Hlt].
    by exists key, i.
  - intros (key & i & Hi & Hlt).
    assert (Hkey : candKey0 p = Some key).
    { by destruct (candidate_latest ordL key i p Hi) as [? _]. }
    rewrite Hkey. apply list_elem_of_lookup. exists i. by apply lookup_take_Some.
Qed.

Lemma arrivalsOf_snoc ord q key :
  arrs (ord ++ [q]) key
  = arrs ord key ++ (if bool_decide (arrivalKey latest0 currentFiles q = Some key)
                     then [q] else []).
Proof.
  unfold arrivalsOf. rewrite filter_app. f_equal.
  case_bool_decide; [by rewrite filter_cons_True | by rewrite filter_cons_False].
Qed.

(** The candidates left under a key when the third loop has visited
    [ord]. *)
Lemma candidates_left ordL ord key :
  head (default [] (moveCandidates (third ord (afterCollect ordL currentFiles rows0))
                    !! key))
  = cands ordL key !! length (arrs ord key) ≫= (λ p, latest0 !! p).
Proof.
  rewrite classifyLoop_candidates.
  destruct (afterCollect_spec currentFiles rows0 ordL) as (_ & _ & Hc).
  rewrite Hc. apply head_candidates.
Qed.

Lemma head_Some_cons {A : Type} (l : list A) (x : A) :
  head l = Some x → ∃ l', l = x :: l'.
Proof. destruct l; [done|]. intros [= ->]. eauto. Qed.

(** What the third loop leaves in [missing]: what the second loop put
    there, without the candidates consumed by new paths. *)
Lemma missing_after_third ordL ord p snap :
  missing (third ord (afterCollect ordL currentFiles rows0)) !! p = Some snap ↔
  missing (afterCollect ordL currentFiles rows0) !! p = Some snap
  ∧ ¬ consumed latest0 alias0 currentFiles ordL ord p.
Proof.
  rewrite consumed_alt.
  induction ord as [|q ord IH] using rev_ind.
  - rewrite rangeMap_nil. split; [|by intros [? _]].
    intros H. split; [done|]. intros (key & i & _ & Hi).
    unfold arrivalsOf in Hi. rewrite filter_nil in Hi. simpl in Hi. lia.
  - rewrite rangeMap_snoc.
    assert (Hsame : arrivalKey latest0 currentFiles q = None →
              (∃ key i, cands ordL key !! i = Some p ∧ i < length (arrs (ord ++ [q]) key))
              ↔ (∃ key i, cands ordL key !! i = Some p ∧ i < length (arrs ord key))).
    { intros Hnone. unfold consumed.
      split; intros (key & i & Hc & Hi); exists key, i; (split; [done|]);
        rewrite arrivalsOf_snoc, Hnone, bool_decide_eq_false_2, app_nil_r in *; done. }
    destruct (currentFiles !! q) as [file|] eqn:Hcur.
    2:{ rewrite IH, Hsame; [done|]. unfold arrivalKey. by rewrite Hcur. }
    destruct (latest0 !! q) as [snapq|] eqn:Hlat.
    { rewrite (classifyCurrent_known clock rows0 q file _ snapq Hlat). cbn [missing].
      rewrite IH, Hsame; [done|]. unfold arrivalKey. by rewrite Hcur, Hlat. }
    set (key0 := movementKey (FileHash file) q).
    assert (Harr : arrivalKey latest0 currentFiles q = Some key0)
      by (unfold arrivalKey; by rewrite Hcur, Hlat).
    destruct (classifyCurrent_new clock rows0 q file
                (third ord (afterCollect ordL currentFiles rows0)) Hlat)
      as (_ & Hmiss & _).
    fold key0 in Hmiss. rewrite Hmiss. clear Hmiss.
    pose proof (candidates_left ordL ord key0) as Hhead.
    set (n := length (arrs ord key0)) in *.
    assert (Hgrow : ∀ key i, i < length (arrs (ord ++ [q]) key) ↔
              i < length (arrs ord key) ∨ (key = key0 ∧ i = n)).
    { intros key i. rewrite arrivalsOf_snoc, Harr, length_app.
      case_bool_decide as Hk.
      - injection Hk as <-. cbn [length]. unfold n. split.
        + intros Hi. destruct (decide (i = length (arrs ord key0))); [by right | left; lia].
        + intros [? | [_ ->]]; lia.
      - cbn [length]. split; [lia|]. intros [? | [-> _]]; [lia | done]. }
    destruct (cands ordL key0 !! n) as [p'|] eqn:Hn.
    + destruct (candidate_latest ordL key0 n p' Hn) as (_ & prev & Hprev & Hpath).
      cbn [mbind option_bind] in Hhead. rewrite Hprev in Hhead.
      apply head_Some_cons in Hhead as [l' ->]. rewrite Hpath.
      rewrite lookup_delete_Some, IH.
      assert (Hcons : (∃ key i, cands ordL key !! i = Some p ∧ i < length (arrs (ord ++ [q]) key))
                ↔ (∃ key i, cands ordL key !! i = Some p ∧ i < length (arrs ord key)) ∨ p = p').
      { split.
        - intros (key & i & Hc & [Hi | [-> ->]]%Hgrow); [left; eauto|].
          right. rewrite Hn in Hc. by injection Hc.
        - intros [(key & i & Hc & Hi) | ->].
          + exists key, i. split; [done|]. apply Hgrow. by left.
          + exists key0, n. split; [done|]. apply Hgrow. by right. }
      rewrite Hcons. split.
      * intros (Hne & Hm & Hnot). split; [done|]. intros [? | ->]; done.
      * intros (Hm & Hnot). split; [|split; [done|]]; intros ?; apply Hnot; auto.
    + cbn [mbind option_bind] in Hhead.
      destruct (default [] _) as [|x l'] eqn:Hd; [|done].
      rewrite IH.
      assert (Hcons : (∃ key i, cands ordL key !! i = Some p ∧ i < length (arrs (ord ++ [q]) key))
                ↔ (∃ key i, cands ordL key !! i = Some p ∧ i < length (arrs ord key))).
      { split.
        - intros (key & i & Hc & [Hi | [-> ->]]%Hgrow); [eauto|]. by rewrite Hn in Hc.
        - intros (key & i & Hc & Hi). exists key, i. split; [done|].
          apply Hgrow. by left. }
      by rewrite Hcons.
Qed.

(** The rows of the fourth loop, path by path, for a map whose snapshots
    lie under their own paths. *)
Lemma recordLoop_exact ord (mi : gmap string FileHistorySnapshot) rs :
  NoDup ord → (∀ p snap, mi !! p = Some snap → Path snap = p) →
  ∃ added, rangeMap ord mi (recordDeleted clock) rs = rs ++ added
    ∧ (∀ r, r ∈ added →
         status r = FileStatusDeleted ∧ previous_path r = None
         ∧ ∃ snap, mi !! path r = Some snap ∧ Status snap ≠ FileStatusDeleted
                   ∧ hash r = Hash snap ∧ content r = Content snap)
    ∧ ∀ p, snapshotOfRow <$> filter (λ r, path r = p) added
           = match mi !! p with
             | Some snap =>
                 if bool_decide (p ∈ ord ∧ Status snap ≠ FileStatusDeleted)
                 then [mkSnapshot p (Hash snap) (Content snap) FileStatusDeleted None]
                 else []
             | None => []
             end.
Proof.
  intros Hnd Hpath. induction ord as [|k ord IH] using rev_ind.
  - exists []. rewrite rangeMap_nil, app_nil_r. split; [done|].
    split; [by intros r ?%elem_of_nil|]. intros p. simpl.
    by destruct (mi !! p).
  - apply NoDup_app in Hnd as (Hnd & Hk & _).
    destruct (IH Hnd) as (added & Hrows & Hall & Hfilter). clear IH.
    assert (Hk' : k ∉ ord) by (intros Hin; apply (Hk k Hin); by left).
    rewrite rangeMap_snoc, Hrows.
    assert (Hext : ∀ p snap, p ≠ k ∨ Status snap = FileStatusDeleted ∨ mi !! k = None →
              mi !! p = Some snap →
              bool_decide (p ∈ ord ++ [k] ∧ Status snap ≠ FileStatusDeleted)
              = bool_decide (p ∈ ord ∧ Status snap ≠ FileStatusDeleted)).
    { intros p snap Hor Hp. apply bool_decide_ext.
      rewrite elem_of_app, list_elem_of_singleton. split; [|tauto].
      intros [[? | ->] ?]; [done|]. destruct Hor as [? | [? | Hnone]]; [done..|].
      by rewrite Hnone in Hp. }
    destruct (mi !! k) as [snapk|] eqn:Hmk.
    2:{ exists added. split; [done|]. split; [done|]. intros p. rewrite Hfilter.
        destruct (mi !! p) as [snap|] eqn:Hp; [|done]. rewrite Hext; auto. }
    unfold recordDeleted. case_bool_decide as Hdel.
    { exists added. split; [done|]. split; [done|]. intros p. rewrite Hfilter.
      destruct (mi !! p) as [snap|] eqn:Hp; [|done].
      destruct (decide (p = k)) as [-> | Hne]; [|rewrite Hext; auto].
      rewrite Hmk in Hp. injection Hp as <-. by rewrite (Hext k snapk) by auto. }
    rewrite insertHistoryEntry_eq, <- app_assoc.
    eexists. split; [done|]. rewrite (Hpath k snapk Hmk). split.
    + intros r [Hr | ->%list_elem_of_singleton]%elem_of_app; [by apply Hall|].
      cbn. split; [done|]. split; [done|]. exists snapk. by rewrite Hmk.
    + intros p. rewrite filter_app, fmap_app, Hfilter.
      destruct (decide (p = k)) as [-> | Hne].
      * rewrite Hmk, filter_cons_True by done.
        rewrite bool_decide_eq_false_2 by (by intros [? _]).
        rewrite bool_decide_eq_true_2; [done|].
        split; [|done]. apply elem_of_app. right. by left.
      * rewrite filter_cons_False by (cbn; congruence). cbn [filter fmap list_fmap].
        rewrite app_nil_r. destruct (mi !! p) as [snap|] eqn:Hp; [|done].
        rewrite Hext; auto.
Qed.

(** The rows of the third loop are justified, and none is a deletion. *)
Lemma third_rows ordL ord :
  ∃ added, rows (third ord (afterCollect ordL currentFiles rows0)) = rows0 ++ added
    ∧ ∀ r, r ∈ added →
        justified currentFiles rows0 r ∧ status r ≠ FileStatusDeleted
        ∧ is_Some (currentFiles !! path r).
Proof.
  induction ord as [|q ord (added & Hrows & Hall)] using rev_ind.
  - exists []. rewrite rangeMap_nil, app_nil_r.
    destruct (afterCollect_spec currentFiles rows0 ordL) as (Hr & _). split; [done|].
    by intros r ?%elem_of_nil.
  - rewrite rangeMap_snoc. destruct (currentFiles !! q) as [file|] eqn:Hcur; [|eauto].
    set (st := third ord (afterCollect ordL currentFiles rows0)) in *.
    destruct (latest0 !! q) as [snapq|] eqn:Hlat.
    + rewrite (classifyCurrent_known clock rows0 q file st snapq Hlat). cbn [rows].
      rewrite Hrows, <- app_assoc. eexists. split; [done|].
      intros r [Hr | Hr]%elem_of_app; [by apply Hall|].
      case_bool_decide as Hdel.
      * apply list_elem_of_singleton in Hr as ->. unfold justified. cbn.
        rewrite Hcur. split; [|split; [done | by eexists]].
        exists file. split; [done|]. split; [done|]. split; [done|]. split; [done|].
        right. by exists snapq.
      * case_bool_decide as Hhash; [|by apply elem_of_nil in Hr].
        apply list_elem_of_singleton in Hr as ->. unfold justified. cbn.
        rewrite Hcur. split; [|split; [done | by eexists]].
        exists file. split; [done|]. split; [done|]. split; [done|]. split; [done|].
        by exists snapq.
    + destruct (classifyCurrent_new clock rows0 q file st Hlat) as (_ & _ & Hnew).
      rewrite Hnew, Hrows, <- app_assoc. clear Hnew. eexists. split; [done|].
      intros r [Hr | ->%list_elem_of_singleton]%elem_of_app; [by apply Hall|].
      pose proof (candidates_left ordL ord (movementKey (FileHash file) q)) as Hhead.
      fold st in Hhead.
      destruct (cands ordL (movementKey (FileHash file) q)
                  !! length (arrs ord (movementKey (FileHash file) q)))
        as [p'|] eqn:Hn.
      * destruct (candidate_latest ordL _ _ p' Hn) as (Hkey & prev & Hprev & Hpath).
        cbn [mbind option_bind] in Hhead. rewrite Hprev in Hhead.
        apply head_Some_cons in Hhead as [l' ->]. unfold justified. cbn.
        rewrite Hcur, Hpath. split; [|split; [done | by eexists]].
        exists file. split; [done|]. split; [done|]. split; [done|]. split; [done|].
        by exists p'.
      * cbn [mbind option_bind] in Hhead.
        destruct (default [] _) as [|x l'] eqn:Hd; [|done]. unfold justified. cbn.
        rewrite Hcur. split; [|split; [done | by eexists]].
        exists file. split; [done|]. split; [done|]. split; [done|]. split; [done|].
        by left.
Qed.

(** What the second loop puts in [missing], for an order that visits every
    key of the latest-state index. *)
Lemma missing_after_second ordL p snap :
  rangeOrder ordL latest0 →
  missing (afterCollect ordL currentFiles rows0) !! p = Some snap ↔
  latest0 !! p = Some snap ∧ (p ∉ alias0) ∧ currentFiles !! p = None.
Proof.
  intros [_ Hcov]. destruct (afterCollect_spec currentFiles rows0 ordL) as (_ & Hm & _).
  rewrite Hm. case_bool_decide as Hc.
  - destruct Hc as (_ & ? & ?). tauto.
  - split; [done|]. intros (Hl & Ha & Hcur). destruct Hc.
    split; [apply Hcov; by eexists | done].
Qed.

(** The rows of a pass: those of the third loop, for paths of the
    snapshot, then those of the fourth, deletions of paths absent from it;
    all are justified. For a path absent from the snapshot the pass appends
    the deletion of its latest entry when it is a deletion candidate that no
    new path consumes, and nothing otherwise. *)
Lemma pass_rows ord :
  passOrders ord currentFiles rows0 →
  ∃ present absent,
    reconcile clock ord currentFiles rows0 = rows0 ++ present ++ absent
    ∧ (∀ r, r ∈ present →
         justified currentFiles rows0 r ∧ status r ≠ FileStatusDeleted
         ∧ is_Some (currentFiles !! path r))
    ∧ (∀ r, r ∈ absent →
         justified currentFiles rows0 r ∧ status r = FileStatusDeleted
         ∧ currentFiles !! path r = None)
    ∧ ∀ p, snapshotOfRow <$> filter (λ r, path r = p) absent
           = match latest0 !! p with
             | Some snap =>
                 if bool_decide
                      (Status snap ≠ FileStatusDeleted ∧ (p ∉ alias0)
                       ∧ currentFiles !! p = None
                       ∧ ¬ consumed latest0 alias0 currentFiles
                             (ordLatest ord) (ordCurrent ord) p)
                 then [mkSnapshot p (Hash snap) (Content snap) FileStatusDeleted None]
                 else []
             | None => []
             end.
Proof.
  intros (HordL & HordC & [HndM HcovM]).
  rewrite reconcile_eq. cbn zeta. unfold afterClassify.
  set (st2 := third (ordCurrent ord) (afterCollect (ordLatest ord) currentFiles rows0)).
  destruct (third_rows (ordLatest ord) (ordCurrent ord)) as (present & Hrows & Hpresent).
  fold st2 in Hrows.
  assert (Hmiss : ∀ p snap, missing st2 !! p = Some snap ↔
            latest0 !! p = Some snap ∧ (p ∉ alias0) ∧ currentFiles !! p = None
            ∧ ¬ consumed latest0 alias0 currentFiles (ordLatest ord) (ordCurrent ord) p).
  { intros p snap. unfold st2. rewrite missing_after_third, missing_after_second by done.
    tauto. }
  destruct (recordLoop_exact (ordMissing ord) (missing st2) (rows st2) HndM)
    as (absent & Hrec & Habsent & Hfilter).
  { intros p snap (Hl & _)%Hmiss. by apply (latest_Path rows0). }
  exists present, absent. rewrite Hrec, Hrows, <- app_assoc.
  split; [done|]. split; [done|]. split.
  - intros r Hr. destruct (Habsent r Hr) as (Hst & Hprev & snap & Hm & Hnd & Hh & Hc).
    apply Hmiss in Hm as (Hl & Ha & Hcur & _).
    split; [|done]. unfold justified. rewrite Hst. cbn zeta. split; [done|]. split.
    + rewrite Hh. by apply candidateKey_intro.
    + by exists snap.
  - intros p. rewrite Hfilter. destruct (latest0 !! p) as [snap|] eqn:Hl.
    + destruct (missing st2 !! p) as [snap'|] eqn:Hm.
      * apply Hmiss in Hm as (Hl' & Ha & Hcur & Hcons).
        rewrite Hl in Hl'. injection Hl' as <-.
        assert (Hin : p ∈ ordMissing ord) by (apply HcovM; by eexists).
        destruct (decide (Status snap = FileStatusDeleted)) as [Hd | Hd].
        -- rewrite !bool_decide_eq_false_2; [done | by intros [? _] | by intros [_ ?]].
        -- by rewrite !bool_decide_eq_true_2.
      * rewrite bool_decide_eq_false_2; [done|]. intros (Hd & Ha & Hcur & Hcons).
        assert (missing st2 !! p = Some snap) as Hm' by (by apply Hmiss).
        by rewrite Hm in Hm'.
    + destruct (missing st2 !! p) as [snap'|] eqn:Hm; [|done].
      apply Hmiss in Hm as (Hl' & _). by rewrite Hl in Hl'.
Qed.

End passRows.

(** X13. Every row a pass appends is justified by the snapshot and the
    latest-state index: a creation, modification or move carries the hash
    and the content of a file of the snapshot, a deletion those of the
    latest entry of a deletion candidate; a move links a new path to a
    deletion candidate with its movement key. The pass appends nothing
    else, and it leaves the rows of the table as they are. *)
Theorem X13_appended_rows_are_justified clock ord rows0 dataDir currentFiles :
  scanMarkdownFiles dataDir = (currentFiles, None) →
  passOrders ord currentFiles rows0 →
  ∃ added, appends clock ord rows0 dataDir added
    ∧ Forall (justified currentFiles rows0) added.
Proof.
  intros Hscan Hord.
  destruct (pass_rows clock currentFiles rows0 ord Hord)
    as (present & absent & Hrec & Hp & Ha & _).
  exists (present ++ absent). split; [by eapply appends_reconcile|].
  apply Forall_app. split; apply Forall_forall; intros r Hr.
  - by apply Hp.
  - by apply Ha.
Qed.

(** X14. For a path absent from the snapshot that has a latest entry, a
    pass appends exactly one row, the deletion of that entry with its hash
    and content, when the entry is no deletion, the path is no alias path
    and no new path consumes it as the source of a move; otherwise it
    appends no row for the path. *)
Theorem X14_absent_path_is_deleted_once clock ord rows0 dataDir currentFiles p snap :
  scanMarkdownFiles dataDir = (currentFiles, None) →
  passOrders ord currentFiles rows0 →
  currentFiles !! p = None →
  latestFileSnapshots rows0 !! p = Some snap →
  ∃ added, appends clock ord rows0 dataDir added
    ∧ entriesFor p added
      = if bool_decide
             (Status snap ≠ FileStatusDeleted
              ∧ (p ∉ aliasPathsOf (latestFileSnapshots rows0))
              ∧ ¬ consumed (latestFileSnapshots rows0)
                    (aliasPathsOf (latestFileSnapshots rows0)) currentFiles
                    (ordLatest ord) (ordCurrent ord) p)
        then [mkSnapshot p (Hash snap) (Content snap) FileStatusDeleted None]
        else [].
Proof.
  intros Hscan Hord Hcur Hlat.
  destruct (pass_rows clock currentFiles rows0 ord Hord)
    as (present & absent & Hrec & Hp & _ & Hfilter).
  exists (present ++ absent). split; [by eapply appends_reconcile|].
  unfold entriesFor. rewrite filter_app, fmap_app, Hfilter, Hlat.
  rewrite (filter_none (λ r, path r = p) present).
  - cbn [fmap list_fmap app]. apply (f_equal (λ b : bool, if b then _ else _)).
    apply bool_decide_ext. tauto.
  - intros r Hr Hpath. destruct (Hp r Hr) as (_ & _ & [file Hfile]).
    by rewrite Hpath, Hcur in Hfile.
Qed.

(** X15. For a path of the snapshot whose latest entry is no deletion,
    alias path or not, a pass appends nothing when the hash of the file is
    the hash of that entry, and exactly one row, a modification with the
    hash and the content of the file, when it is not. *)
Theorem X15_known_path_is_modified_or_untouched
    clock ord rows0 dataDir currentFiles q file snap :
  scanMarkdownFiles dataDir = (currentFiles, None) →
  passOrders ord currentFiles rows0 →
  currentFiles !! q = Some file →
  latestFileSnapshots rows0 !! q = Some snap →
  Status snap ≠ FileStatusDeleted →
  ∃ added, appends clock ord rows0 dataDir added
    ∧ entriesFor q added
      = if bool_decide (Hash snap = FileHash file) then []
        else [mkSnapshot q (FileHash file) (FileContent file) FileStatusModified None].
Proof.
  intros Hscan Hord Hcur Hlat Hst.
  destruct (pass_known clock currentFiles rows0 ord q file snap Hord Hcur Hlat)
    as (added & Hrec & Hq).
  exists added. split; [by eapply appends_reconcile|].
  unfold entriesFor. rewrite Hq, bool_decide_eq_false_2 by done.
  by repeat case_bool_decide.
Qed.

Lemma pass_no_arrival (currentFiles : gmap string fileRecord) (rows0 : list Row) :
  (∀ q file, currentFiles !! q = Some file → is_Some (latestFileSnapshots rows0 !! q)) →
  ∀ ordL ordC p,
    ¬ consumed (latestFileSnapshots rows0) (aliasPathsOf (latestFileSnapshots rows0))
        currentFiles ordL ordC p.
Proof.
  intros Hknown ordL ordC p (key & i & _ & Hi)%consumed_alt.
  assert (Hnil : arrivalsOf (latestFileSnapshots rows0) currentFiles ordC key = []).
  { apply filter_none. intros q _ (file & Hcur & Hlat & _)%arrivalKey_Some.
    destruct (Hknown q file Hcur) as [? Hsome]. by rewrite Hlat in Hsome. }
  rewrite Hnil in Hi. simpl in Hi. lia.
Qed.

(** X16. A pass appends nothing exactly when the table agrees with the
    snapshot: every file of the snapshot has a latest entry that is no
    deletion and carries its hash, and every path with a latest entry that
    is absent from the snapshot is an alias path or already has its
    deletion recorded. *)
Theorem X16_pass_appends_nothing_iff_synced clock ord rows0 dataDir currentFiles :
  scanMarkdownFiles dataDir = (currentFiles, None) →
  passOrders ord currentFiles rows0 →
  appends clock ord rows0 dataDir [] ↔ synced currentFiles rows0.
Proof.
  intros Hscan Hord.
  assert (Happ : appends clock ord rows0 dataDir []
                 ↔ reconcile clock ord currentFiles rows0 = rows0).
  { unfold appends. rewrite CaptureFileHistory_reconcile, Hscan, app_nil_r. cbn [fst].
    split; [by intros [= ->] | by intros ->]. }
  rewrite Happ. clear Happ. split.
  - intros Hnil.
    assert (Hnone : ∀ added, reconcile clock ord currentFiles rows0 = rows0 ++ added →
              added = []).
    { intros added Hadd. rewrite Hnil in Hadd.
      apply (app_inv_head rows0). by rewrite app_nil_r. }
    assert (Hknown : ∀ q file, currentFiles !! q = Some file →
              ∃ snap, latestFileSnapshots rows0 !! q = Some snap
                      ∧ Status snap ≠ FileStatusDeleted ∧ Hash snap = FileHash file).
    { intros q file Hcur.
      destruct (latestFileSnapshots rows0 !! q) as [snap|] eqn:Hlat.
      - destruct (pass_known clock currentFiles rows0 ord q file snap Hord Hcur Hlat)
          as (added & Hrec & Hq).
        rewrite (Hnone added Hrec) in Hq. exists snap. split; [done|].
        case_bool_decide as Hdel; [done|]. case_bool_decide as Hhash; [done|].
        split; [done|]. by destruct (decide (Hash snap = FileHash file)).
      - assert (Hin : q ∈ arrivalsOf (latestFileSnapshots rows0) currentFiles
                        (ordCurrent ord) (movementKey (FileHash file) q)).
        { apply list_elem_of_filter. split.
          - unfold arrivalKey. by rewrite Hcur, Hlat.
          - destruct Hord as (_ & [_ Hcov] & _). apply Hcov. by eexists. }
        apply list_elem_of_lookup_1 in Hin as [i Hi].
        destruct (pass_new clock currentFiles rows0 ord q file i Hord Hcur Hlat Hi)
          as (added & Hrec & Hq & _).
        by rewrite (Hnone added Hrec) in Hq. }
    split; [exact Hknown|]. intros p snap Hlat Hcur.
    destruct (pass_rows clock currentFiles rows0 ord Hord)
      as (present & absent & Hrec & _ & _ & Hfilter).
    apply Hnone, app_eq_nil in Hrec as [_ ->]. specialize (Hfilter p).
    rewrite Hlat in Hfilter. cbn in Hfilter.
    case_bool_decide as Hc; [done|].
    destruct (decide (p ∈ aliasPathsOf (latestFileSnapshots rows0))) as [? | Ha]; [by left|].
    destruct (decide (Status snap = FileStatusDeleted)) as [? | Hd]; [by right|].
    destruct Hc. split; [done|]. split; [done|]. split; [done|].
    apply pass_no_arrival. intros q file Hq.
    destruct (Hknown q file Hq) as (? & -> & _). by eexists.
  - intros [Hknown Habsent].
    destruct (pass_rows clock currentFiles rows0 ord Hord)
      as (present & absent & Hrec & Hp & Ha & Hfilter).
    rewrite Hrec.
    assert (present = []) as ->.
    { destruct present as [|r present]; [done|]. exfalso.
      destruct (Hp r) as (Hj & Hst & [file Hfile]); [by left|].
      destruct (Hknown _ _ Hfile) as (snap & Hlat & Hnd & Hhash).
      unfold justified in Hj. cbn zeta in Hj. rewrite Hfile, Hlat in Hj.
      destruct (status r); [| |done|].
      - destruct Hj as (? & [= <-] & _ & _ & _ & [? | (? & [= <-] & ?)]); done.
      - destruct Hj as (? & [= <-] & _ & _ & _ & ? & [= <-] & _ & ?); done.
      - destruct Hj as (? & _ & _ & _ & ? & _); done. }
    assert (absent = []) as ->; [|by rewrite app_nil_r].
    destruct absent as [|r absent]; [done|]. exfalso.
    destruct (Ha r) as (Hj & Hst & Hcur); [by left|].
    unfold justified in Hj. rewrite Hst in Hj. cbn zeta in Hj.
    destruct Hj as (_ & Hkey & _).
    apply candidateKey_Some in Hkey as (snap & Hlat & Hna & _ & Hnd & _).
    destruct (Habsent _ _ Hlat Hcur); done.
Qed.

(** ** The latest-state index after a pass *)

Lemma nextID_gt rows r : r ∈ rows → (id r < nextID rows)%Z.
Proof.
  intros Hr. unfold nextID.
  destruct (foldr_max_ge 0 (id <$> rows)) as [_ Hge].
  specialize (Hge (id r)). rewrite list_elem_of_fmap in Hge.
  assert (id r ≤ foldr Z.max 0 (id <$> rows))%Z by (apply Hge; eauto). lia.
Qed.

Lemma NoDup_ids_snoc rows r :
  NoDup (id <$> rows) → (∀ r', r' ∈ rows → (id r' < id r)%Z) →
  NoDup (id <$> rows ++ [r]).
Proof.
  intros Hnd Hlt. rewrite fmap_app. apply NoDup_app. split; [done|]. split.
  - intros i (r' & Hi & Hr')%list_elem_of_fmap Hi'%list_elem_of_singleton.
    specialize (Hlt r' Hr'). lia.
  - apply NoDup_singleton.
Qed.

(** The index of a table to which a row with a larger id than all its rows
    is appended. *)
Lemma latest_snoc rows r :
  NoDup (id <$> rows) → (∀ r', r' ∈ rows → (id r' < id r)%Z) →
  latestFileSnapshots (rows ++ [r])
  = <[path r := snapshotOfRow r]> (latestFileSnapshots rows).
Proof.
  intros Hnd Hlt. pose proof (NoDup_ids_snoc rows r Hnd Hlt) as Hnd'.
  apply map_eq. intros k. destruct (decide (k = path r)) as [-> | Hne].
  - rewrite lookup_insert_eq. apply latest_lookup_latestRow; [done|]. split.
    + apply elem_of_app. right. by left.
    + intros r' [Hr' | ->%list_elem_of_singleton]%elem_of_app _; [|lia].
      specialize (Hlt r' Hr'). lia.
  - rewrite lookup_insert_ne by done.
    assert (Hkeep : ∀ r1, latestRow rows r1 → path r1 = k → latestRow (rows ++ [r]) r1).
    { intros r1 [Hin Hmax] Hp. split; [apply elem_of_app; by left|].
      intros r' [Hr' | ->%list_elem_of_singleton]%elem_of_app Hp'; [by apply Hmax|].
      congruence. }
    destruct (latestFileSnapshots rows !! k) as [snap|] eqn:Hk.
    + destruct (latest_lookup_row rows k snap Hk) as (r0 & Hr0 & Hp0 & _).
      destruct (latest_exists rows r0 Hr0) as (r1 & Hr1 & Hp1).
      rewrite Hp0 in Hp1.
      pose proof (latest_lookup_latestRow rows r1 Hnd Hr1) as Hl1.
      rewrite Hp1, Hk in Hl1. rewrite Hl1, <- Hp1.
      apply latest_lookup_latestRow; [done|]. by apply Hkeep.
    + destruct (latestFileSnapshots (rows ++ [r]) !! k) as [snap|] eqn:Hk'; [|done].
      destruct (latest_lookup_row _ k snap Hk') as (r0 & Hr0 & Hp0 & _).
      apply elem_of_app in Hr0 as [Hr0 | ->%list_elem_of_singleton]; [|congruence].
      destruct (latest_exists rows r0 Hr0) as (r1 & Hr1 & Hp1).
      pose proof (latest_lookup_latestRow rows r1 Hnd Hr1) as Hl1.
      rewrite Hp1, Hp0, Hk in Hl1. done.
Qed.

(** X17. Inserting an entry and reading the latest-state index: in a table
    with distinct ids, the entry inserted for a path becomes the latest
    snapshot of that path, the snapshots of the other paths stay, and the
    ids stay distinct. *)
Theorem X17_inserted_entry_is_latest clock rows p h c s prev :
  NoDup (id <$> rows) →
  latestFileSnapshots (insertHistoryEntry clock rows p h c s prev)
  = <[p := mkSnapshot p h c s prev]> (latestFileSnapshots rows)
  ∧ NoDup (id <$> insertHistoryEntry clock rows p h c s prev).
Proof.
  intros Hnd. rewrite insertHistoryEntry_eq.
  set (r := mkRow (nextID rows) p h c s prev (clock (nextID rows))).
  assert (Hlt : ∀ r', r' ∈ rows → (id r' < id r)%Z) by (intros r'; apply nextID_gt).
  split; [apply (latest_snoc rows r Hnd Hlt) | by apply NoDup_ids_snoc].
Qed.

Lemma grown_refl rows0 : NoDup (id <$> rows0) → grown rows0 rows0.
Proof. intros Hnd. split; [done|]. exists []. by rewrite app_nil_r. Qed.

Lemma grown_insert clock rows0 rows1 p h c s prev :
  grown rows0 rows1 → grown rows0 (insertHistoryEntry clock rows1 p h c s prev).
Proof.
  intros (Hnd & added & -> & Hlat).
  rewrite insertHistoryEntry_eq.
  set (r := mkRow _ p h c s prev _).
  assert (Hlt : ∀ r', r' ∈ rows0 ++ added → (id r' < id r)%Z)
    by (intros r'; apply nextID_gt).
  split; [by apply NoDup_ids_snoc|]. exists (added ++ [r]).
  rewrite <- app_assoc. split; [done|]. rewrite app_assoc.
  rewrite (latest_snoc _ r Hnd Hlt), Hlat. unfold latestAfter. by rewrite foldl_app.
Qed.

Lemma reconcile_grown clock ord currentFiles rows0 :
  NoDup (id <$> rows0) → grown rows0 (reconcile clock ord currentFiles rows0).
Proof.
  intros Hnd. unfold reconcile. cbn zeta.
  apply (rangeMap_invariant (grown rows0)).
  - apply (rangeMap_invariant (λ st, grown rows0 (rows st))).
    + apply (rangeMap_invariant (λ st, grown rows0 (rows st))); [by apply grown_refl|].
      intros k v st _ _ Hst. unfold collectMissing.
      case_bool_decide; [done|]. destruct (currentFiles !! k); [done|].
      by case_bool_decide.
    + intros k v st _ _ Hst. unfold classifyCurrent.
      destruct (latestFileSnapshots rows0 !! k) as [snap|].
      * repeat case_bool_decide; cbn [rows]; try done; by apply grown_insert.
      * destruct (default [] _); cbn [rows]; by apply grown_insert.
  - intros k v rs _ _ Hrs. unfold recordDeleted. case_bool_decide; [done|].
    by apply grown_insert.
Qed.

Lemma latestAfter_lookup m added p :
  latestAfter m added !! p
  = match last (entriesFor p added) with
    | Some snap => Some snap
    | None => m !! p
    end.
Proof.
  unfold latestAfter, entriesFor. induction added as [|r added IH] using rev_ind; [done|].
  rewrite foldl_app, filter_app, fmap_app. cbn [foldl].
  destruct (decide (path r = p)) as [<- | Hne].
  - rewrite lookup_insert_eq, filter_cons_True, filter_nil by done.
    cbn [fmap list_fmap]. by rewrite last_snoc.
  - rewrite lookup_insert_ne, filter_cons_False, filter_nil by done.
    cbn [fmap list_fmap]. by rewrite app_nil_r.
Qed.

(** The index after a pass, path by path: the snapshot of the last row the
    pass appended for the path, or else what it was. *)
Lemma latest_after_pass clock ord currentFiles rows0 added p :
  NoDup (id <$> rows0) →
  reconcile clock ord currentFiles rows0 = rows0 ++ added →
  NoDup (id <$> rows0 ++ added)
  ∧ latestFileSnapshots (rows0 ++ added) !! p
    = match last (entriesFor p added) with
      | Some snap => Some snap
      | None => latestFileSnapshots rows0 !! p
      end.
Proof.
  intros Hnd Hrec.
  destruct (reconcile_grown clock ord currentFiles rows0 Hnd) as (Hnd' & added' & Heq & Hlat).
  rewrite Hrec in Hnd', Heq, Hlat. apply app_inv_head in Heq as <-.
  split; [done|]. by rewrite Hlat, latestAfter_lookup.
Qed.

Lemma elem_of_aliasPathsOf (m : gmap string FileHistorySnapshot) p :
  p ∈ aliasPathsOf m ↔ ∃ k snap, m !! k = Some snap ∧ PreviousPath snap = Some p.
Proof.
  unfold aliasPathsOf. rewrite elem_of_list_to_set, list_elem_of_omap. split.
  - intros ([k snap] & Hin%elem_of_map_to_list & Hp). eauto.
  - intros (k & snap & Hk & Hp). exists (k, snap).
    split; [by apply elem_of_map_to_list | done].
Qed.

Lemma appends_iff clock ord rows0 dataDir currentFiles added :
  scanMarkdownFiles dataDir = (currentFiles, None) →
  appends clock ord rows0 dataDir added
  ↔ reconcile clock ord currentFiles rows0 = rows0 ++ added.
Proof.
  intros Hscan. unfold appends. rewrite CaptureFileHistory_reconcile, Hscan. cbn [fst].
  split; [by intros [= ->] | by intros ->].
Qed.

(** The rows of a pass for a path of the snapshot: at most one, no
    deletion, with the hash of the file; none only when the latest entry of
    the path is no deletion and has that hash. *)
Lemma present_entries clock ord currentFiles rows0 added q file :
  passOrders ord currentFiles rows0 →
  reconcile clock ord currentFiles rows0 = rows0 ++ added →
  currentFiles !! q = Some file →
  (∃ snap, entriesFor q added = [snap] ∧ Status snap ≠ FileStatusDeleted
           ∧ Hash snap = FileHash file)
  ∨ (entriesFor q added = []
     ∧ ∃ snap, latestFileSnapshots rows0 !! q = Some snap
               ∧ Status snap ≠ FileStatusDeleted ∧ Hash snap = FileHash file).
Proof.
  intros Hord Hrec Hcur. unfold entriesFor.
  destruct (latestFileSnapshots rows0 !! q) as [snap|] eqn:Hlat.
  - destruct (pass_known clock currentFiles rows0 ord q file snap Hord Hcur Hlat)
      as (added' & Hrec' & Hq).
    rewrite Hrec in Hrec'. apply app_inv_head in Hrec' as <-. rewrite Hq.
    case_bool_decide as Hdel; [left; by eexists|].
    case_bool_decide as Hhash; [left; by eexists|].
    right. split; [done|]. exists snap. split; [done|]. split; [done|].
    by destruct (decide (Hash snap = FileHash file)).
  - assert (Hin : q ∈ arrivalsOf (latestFileSnapshots rows0) currentFiles
                    (ordCurrent ord) (movementKey (FileHash file) q)).
    { apply list_elem_of_filter. split.
      - unfold arrivalKey. by rewrite Hcur, Hlat.
      - destruct Hord as (_ & [_ Hcov] & _). apply Hcov. by eexists. }
    apply list_elem_of_lookup_1 in Hin as [i Hi].
    destruct (pass_new clock currentFiles rows0 ord q file i Hord Hcur Hlat Hi)
      as (added' & Hrec' & Hq & _).
    rewrite Hrec in Hrec'. apply app_inv_head in Hrec' as <-. rewrite Hq.
    left. eexists. split; [done|]. cbn. split; [by case_match | done].
Qed.

(** The rows of a pass for a path absent from the snapshot. *)
Lemma absent_entries clock ord currentFiles rows0 added p :
  passOrders ord currentFiles rows0 →
  reconcile clock ord currentFiles rows0 = rows0 ++ added →
  currentFiles !! p = None →
  entriesFor p added
  = match latestFileSnapshots rows0 !! p with
    | Some snap =>
        if bool_decide
             (Status snap ≠ FileStatusDeleted
              ∧ (p ∉ aliasPathsOf (latestFileSnapshots rows0))
              ∧ currentFiles !! p = None
              ∧ ¬ consumed (latestFileSnapshots rows0)
                    (aliasPathsOf (latestFileSnapshots rows0)) currentFiles
                    (ordLatest ord) (ordCurrent ord) p)
        then [mkSnapshot p (Hash snap) (Content snap) FileStatusDeleted None]
        else []
    | None => []
    end.
Proof.
  intros Hord Hrec Hcur.
  destruct (pass_rows clock currentFiles rows0 ord Hord)
    as (present & absent & Hrec' & Hp & _ & Hfilter).
  rewrite Hrec in Hrec'. apply app_inv_head in Hrec' as ->.
  unfold entriesFor. rewrite filter_app, fmap_app, Hfilter.
  rewrite (filter_none (λ r, path r = p) present); [done|].
  intros r Hr Hpath. destruct (Hp r Hr) as (_ & _ & [file Hfile]).
  by rewrite Hpath, Hcur in Hfile.
Qed.

(** A consumed candidate is the previous path of the row of a new path. *)
Lemma consumed_moved clock ord currentFiles rows0 added p :
  passOrders ord currentFiles rows0 →
  reconcile clock ord currentFiles rows0 = rows0 ++ added →
  consumed (latestFileSnapshots rows0) (aliasPathsOf (latestFileSnapshots rows0))
    currentFiles (ordLatest ord) (ordCurrent ord) p →
  ∃ q snap, entriesFor q added = [snap] ∧ PreviousPath snap = Some p.
Proof.
  intros Hord Hrec (key & i & Hc & Hi)%consumed_alt.
  apply lookup_lt_is_Some_2 in Hi as [q Hq].
  pose proof Hq as Hin. apply list_elem_of_lookup_2, list_elem_of_filter in Hin as [Hkey _].
  apply arrivalKey_Some in Hkey as (file & Hcur & Hlat & ->).
  destruct (pass_new clock currentFiles rows0 ord q file i Hord Hcur Hlat Hq)
    as (added' & Hrec' & Hrow & _).
  rewrite Hrec in Hrec'. apply app_inv_head in Hrec' as <-.
  exists q. eexists. unfold entriesFor. rewrite Hrow. split; [done|]. by rewrite Hc.
Qed.

(** The table after a pass, against the snapshot. *)
Lemma pass_sync clock ord rows0 dataDir currentFiles :
  scanMarkdownFiles dataDir = (currentFiles, None) →
  NoDup (id <$> rows0) →
  passOrders ord currentFiles rows0 →
  ∃ added, appends clock ord rows0 dataDir added
    ∧ NoDup (id <$> rows0 ++ added)
    ∧ (∀ q file, currentFiles !! q = Some file →
         ∃ snap, latestFileSnapshots (rows0 ++ added) !! q = Some snap
                 ∧ Status snap ≠ FileStatusDeleted ∧ Hash snap = FileHash file)
    ∧ (∀ p snap, latestFileSnapshots (rows0 ++ added) !! p = Some snap →
         currentFiles !! p = None →
         Status snap = FileStatusDeleted
         ∨ p ∈ aliasPathsOf (latestFileSnapshots (rows0 ++ added))
         ∨ (p ∈ aliasPathsOf (latestFileSnapshots rows0)
            ∧ latestFileSnapshots rows0 !! p = Some snap)).
Proof.
  intros Hscan Hnd Hord.
  destruct (pass_rows clock currentFiles rows0 ord Hord)
    as (present & absent & Hrec & _).
  set (added := present ++ absent) in *. exists added.
  split; [by apply (appends_iff _ _ _ _ currentFiles)|].
  split; [by apply (latest_after_pass clock ord currentFiles rows0 added "" Hnd Hrec)|].
  split.
  - intros q file Hcur.
    destruct (latest_after_pass clock ord currentFiles rows0 added q Hnd Hrec) as [_ ->].
    destruct (present_entries clock ord currentFiles rows0 added q file Hord Hrec Hcur)
      as [(snap & -> & Hst & Hh) | (-> & snap & Hlat & Hst & Hh)]; eauto.
  - intros p snap Hlat1 Hcur.
    destruct (latest_after_pass clock ord currentFiles rows0 added p Hnd Hrec) as [_ Hl].
    rewrite Hl, (absent_entries clock ord currentFiles rows0 added p Hord Hrec Hcur) in Hlat1.
    destruct (latestFileSnapshots rows0 !! p) as [snap0|] eqn:Hlat0; [|done].
    case_bool_decide as Hc.
    { injection Hlat1 as <-. by left. }
    injection Hlat1 as <-.
    destruct (decide (Status snap0 = FileStatusDeleted)) as [? | Hd]; [by left|].
    destruct (decide (p ∈ aliasPathsOf (latestFileSnapshots rows0))) as [? | Ha];
      [by right; right|].
    right. left.
    destruct (decide (consumed (latestFileSnapshots rows0)
                        (aliasPathsOf (latestFileSnapshots rows0)) currentFiles
                        (ordLatest ord) (ordCurrent ord) p)) as [Hcons | Hcons];
      [|by destruct Hc].
    destruct (consumed_moved clock ord currentFiles rows0 added p Hord Hrec Hcons)
      as (q & snapq & Hq & Hprev).
    apply elem_of_aliasPathsOf. exists q, snapq. split; [|done].
    destruct (latest_after_pass clock ord currentFiles rows0 added q Hnd Hrec) as [_ ->].
    by rewrite Hq.
Qed.

(** X18. After a pass on a table with distinct ids, the table agrees with
    the snapshot on every file of the snapshot: the latest entry of its path
    is no deletion and carries its hash. A path absent from the snapshot
    has its deletion recorded, or is an alias path, or was an alias path
    before the pass, in which case its latest entry is unchanged. *)
Theorem X18_pass_brings_the_table_in_sync clock ord rows0 dataDir currentFiles :
  scanMarkdownFiles dataDir = (currentFiles, None) →
  NoDup (id <$> rows0) →
  passOrders ord currentFiles rows0 →
  ∃ added, appends clock ord rows0 dataDir added
    ∧ NoDup (id <$> rows0 ++ added)
    ∧ (∀ q file, currentFiles !! q = Some file →
         ∃ snap, latestFileSnapshots (rows0 ++ added) !! q = Some snap
                 ∧ Status snap ≠ FileStatusDeleted ∧ Hash snap = FileHash file)
    ∧ (∀ p snap, latestFileSnapshots (rows0 ++ added) !! p = Some snap →
         currentFiles !! p = None →
         Status snap = FileStatusDeleted
         ∨ p ∈ aliasPathsOf (latestFileSnapshots (rows0 ++ added))
         ∨ (p ∈ aliasPathsOf (latestFileSnapshots rows0)
            ∧ latestFileSnapshots rows0 !! p = Some snap)).
Proof. apply pass_sync. Qed.

(** X19. A second pass on an unchanged snapshot, after a pass on a table
    with distinct ids, appends deletions only, each for a path absent from
    the snapshot that was an alias path before the first pass and whose
    latest entry was no deletion: the source of a move whose deletion the
    first pass held back. When there is no such path, the second pass
    appends nothing. *)
Theorem X19_second_pass_deletes_only_held_back_sources
    clock ord1 ord2 rows0 dataDir currentFiles added1 :
  scanMarkdownFiles dataDir = (currentFiles, None) →
  NoDup (id <$> rows0) →
  passOrders ord1 currentFiles rows0 →
  appends clock ord1 rows0 dataDir added1 →
  passOrders ord2 currentFiles (rows0 ++ added1) →
  ∃ added2, appends clock ord2 (rows0 ++ added1) dataDir added2
    ∧ Forall (λ r, status r = FileStatusDeleted
                   ∧ currentFiles !! path r = None
                   ∧ path r ∈ aliasPathsOf (latestFileSnapshots rows0)
                   ∧ ∃ snap, latestFileSnapshots rows0 !! path r = Some snap
                             ∧ Status snap ≠ FileStatusDeleted
                             ∧ hash r = Hash snap ∧ content r = Content snap) added2
    ∧ ((∀ p snap, p ∈ aliasPathsOf (latestFileSnapshots rows0) →
          latestFileSnapshots rows0 !! p = Some snap →
          currentFiles !! p = None → Status snap = FileStatusDeleted) →
       added2 = []).
Proof.
  intros Hscan Hnd Hord1 Happ1 Hord2.
  destruct (pass_sync clock ord1 rows0 dataDir currentFiles Hscan Hnd Hord1)
    as (added & Happ & Hnd1 & Hpresent & Habsent).
  apply (appends_iff _ _ _ _ currentFiles) in Happ, Happ1; [|done..].
  rewrite Happ1 in Happ. apply app_inv_head in Happ as <-.
  destruct (pass_rows clock currentFiles (rows0 ++ added1) ord2 Hord2)
    as (present & absent & Hrec & Hp & Ha & _).
  exists (present ++ absent). split; [by apply (appends_iff _ _ _ _ currentFiles)|].
  assert (present = []) as ->.
  { destruct present as [|r present]; [done|]. exfalso.
    destruct (Hp r) as (Hj & Hst & [file Hfile]); [by left|].
    destruct (Hpresent _ _ Hfile) as (snap & Hlat & Hnd' & Hhash).
    unfold justified in Hj. cbn zeta in Hj. rewrite Hfile, Hlat in Hj.
    destruct (status r); [| |done|].
    - destruct Hj as (? & [= <-] & _ & _ & _ & [? | (? & [= <-] & ?)]); done.
    - destruct Hj as (? & [= <-] & _ & _ & _ & ? & [= <-] & _ & ?); done.
    - destruct Hj as (? & _ & _ & _ & ? & _); done. }
  cbn [app].
  assert (Hall : Forall (λ r, status r = FileStatusDeleted
                   ∧ currentFiles !! path r = None
                   ∧ path r ∈ aliasPathsOf (latestFileSnapshots rows0)
                   ∧ ∃ snap, latestFileSnapshots rows0 !! path r = Some snap
                             ∧ Status snap ≠ FileStatusDeleted
                             ∧ hash r = Hash snap ∧ content r = Content snap) absent).
  { apply Forall_forall. intros r Hr. destruct (Ha r Hr) as (Hj & Hst & Hcur).
    split; [done|]. split; [done|].
    unfold justified in Hj. rewrite Hst in Hj. cbn zeta in Hj.
    destruct Hj as (_ & Hkey & snap & Hlat & Hh & Hc).
    apply candidateKey_Some in Hkey as (snap' & Hlat' & Hna & _ & Hnd' & _).
    rewrite Hlat in Hlat'. injection Hlat' as <-.
    destruct (Habsent _ _ Hlat Hcur) as [? | [? | [Halias Hlat0]]]; [done..|].
    split; [done|]. by exists snap. }
  split; [done|]. intros Hnone.
  destruct absent as [|r absent]; [done|]. exfalso.
  apply Forall_cons in Hall as [(_ & Hcur & Halias & snap & Hlat & Hnd' & _) _].
  by apply Hnd', (Hnone (path r) snap).
Qed.

(** X20. The first pass, on an empty table: every file of the snapshot gets
    exactly one row, a creation with its hash and content and no previous
    path, and no other row is appended. *)
Theorem X20_first_pass_records_every_file_as_created clock ord dataDir currentFiles :
  scanMarkdownFiles dataDir = (currentFiles, None) →
  passOrders ord currentFiles [] →
  ∃ added, appends clock ord [] dataDir added
    ∧ (∀ q file, currentFiles !! q = Some file →
         entriesFor q added
         = [mkSnapshot q (FileHash file) (FileContent file) FileStatusCreated None])
    ∧ Forall (λ r, is_Some (currentFiles !! path r)) added.
Proof.
  intros Hscan Hord.
  assert (Hempty : ∀ p, latestFileSnapshots [] !! p = None) by (intros p; apply lookup_empty).
  destruct (pass_rows clock currentFiles [] ord Hord)
    as (present & absent & Hrec & Hp & Ha & _).
  assert (absent = []) as ->.
  { destruct absent as [|r absent]; [done|]. exfalso.
    destruct (Ha r) as (Hj & Hst & _); [by left|].
    unfold justified in Hj. rewrite Hst in Hj. cbn zeta in Hj.
    destruct Hj as (_ & _ & snap & Hlat & _). by rewrite Hempty in Hlat. }
  rewrite app_nil_r in Hrec. exists present.
  split; [by apply (appends_iff _ _ _ _ currentFiles)|]. split.
  - intros q file Hcur.
    assert (Hin : q ∈ arrivalsOf (latestFileSnapshots []) currentFiles
                      (ordCurrent ord) (movementKey (FileHash file) q)).
    { apply list_elem_of_filter. split.
      - unfold arrivalKey. by rewrite Hcur, Hempty.
      - destruct Hord as (_ & [_ Hcov] & _). apply Hcov. by eexists. }
    apply list_elem_of_lookup_1 in Hin as [i Hi].
    destruct (pass_new clock currentFiles [] ord q file i Hord Hcur (Hempty q) Hi)
      as (added' & Hrec' & Hq & _).
    rewrite Hrec in Hrec'. apply app_inv_head in Hrec' as <-.
    unfold entriesFor. rewrite Hq.
    assert (Hnone : candidatesOf (latestFileSnapshots [])
                      (aliasPathsOf (latestFileSnapshots [])) currentFiles
                      (ordLatest ord) (movementKey (FileHash file) q) !! i = None).
    { destruct (candidatesOf _ _ _ _ _ !! i) as [p|] eqn:Hc; [|done].
      apply list_elem_of_lookup_2, list_elem_of_filter in Hc as [Hkey _].
      apply candidateKey_Some in Hkey as (snap & Hlat & _). by rewrite Hempty in Hlat. }
    by rewrite Hnone.
  - apply Forall_forall. intros r Hr. by apply Hp.
Qed.

(** ** More stored timestamps *)

Section storedForms.
Import Time.
Local Open Scope Z_scope.

Lemma parseLoop_no_year sep rest f value :
  startsWithYear value = false →
  parseLoop (dateChunks sep ++ rest) f (bytes value) = None.
Proof.
  unfold startsWithYear. intros Hy. unfold dateChunks. cbn [app parseLoop parseStd].
  destruct (bytes value) as [|c l]; [done|]. by rewrite Hy.
Qed.

(** X21. A stored text that cannot start with a year, for being shorter
    than four bytes or not starting with a digit, is read as the zero time:
    no layout accepts it, and no error is reported. The empty text is one
    of them. *)
Theorem X21_unreadable_timestamp_is_zero_time (value : string) :
  startsWithYear value = false → parseSQLiteTimestamp value = Time.zero.
Proof.
  intros Hy. unfold parseSQLiteTimestamp. case_bool_decide; [done|].
  unfold timestampLayouts, firstParse, Parse, RFC3339Nano, layoutSpaceZone, layoutSpace.
  rewrite !parseLoop_no_year by done.
  rewrite <- (app_nil_r (dateChunks " ")). by rewrite parseLoop_no_year.
Qed.

Lemma X21_unreadable_timestamp_is_zero_time_witness :
  startsWithYear "n/a" = false ∧ parseSQLiteTimestamp "n/a" = Time.zero.
Proof.
  split; [reflexivity|].
  apply (X21_unreadable_timestamp_is_zero_time "n/a"). reflexivity.
Defined.

(** The seconds of a layout without fraction, read back with the fraction
    that follows them in the value. *)
Lemma parseStd_second_fraction rest f s ns v :
  0 ≤ s < 60 → nextStd rest ≠ Some stdFracSecond9 →
  0 ≤ ns < 10 ^ 9 → pnsec f = 0 → noDigitAhead v → startsFraction v = false →
  parseStd stdZeroSecond rest f (appendInt s 2 ++ appendNano ns ++ v)
  = Some (setNsec ns (setSec s f), v).
Proof.
  intros Hs Hnext Hns Hf Hv Hfrac.
  pose proof (parseStd_fraction [] (setSec s f) ns v Hns Hf Hv Hfrac) as H.
  cbn [parseStd] in H |- *. rewrite getnum_appendInt by lia. cbn [mbind option_bind].
  unfold inRange. rewrite (proj2 (Z.leb_le 0 s)), (proj2 (Z.ltb_lt s 60)) by lia.
  cbn [andb]. cbv zeta.
  destruct (startsFraction (appendNano ns ++ v)); [|done].
  destruct (nextStd rest) as [[]|]; done.
Qed.

Lemma parseLoop_date_fraction rest t v :
  validTime t → nextStd rest ≠ Some stdFracSecond9 →
  noDigitAhead v → startsFraction v = false →
  parseLoop (dateChunks " " ++ rest) fields0
    (concat (map (λ c, formatStd c t) (dateChunks " ")) ++ appendNano (nsec t) ++ v)
  = parseLoop rest (fieldsOf t (nsec t) None) v.
Proof.
  intros Hvalid Hnext Hv Hfrac. pose proof (validTime_day t Hvalid) as Hd'.
  destruct Hvalid as (Hy & Hmo & Hd & Hh & Hmi & Hs & Hns & _).
  unfold dateChunks.
  cbn [concat map formatStd app]. rewrite <- !app_assoc. cbn [app].
  change (bytes "-") with ["-"%char]. change (bytes ":") with [":"%char]. cbn [app].
  cbn [parseLoop]. rewrite parseStd_year by done. cbn [mbind option_bind].
  rewrite (skip_literal "-") by done. cbn [mbind option_bind].
  rewrite parseStd_month by done. cbn [mbind option_bind].
  rewrite (skip_literal "-") by done. cbn [mbind option_bind].
  rewrite parseStd_day by done. cbn [mbind option_bind].
  rewrite (skip_separator " ") by (by right || lia). cbn [mbind option_bind].
  rewrite parseStd_hour by done. cbn [mbind option_bind].
  rewrite (skip_literal ":") by done. cbn [mbind option_bind].
  rewrite parseStd_minute by done. cbn [mbind option_bind].
  rewrite (skip_literal ":") by done. cbn [mbind option_bind].
  rewrite (parseStd_second_fraction _ _ _ _ _ Hs Hnext Hns) by done.
  done.
Qed.

(** X22. A stored text with a space after the date and a fraction after
    the seconds is read with its fraction, though no layout of
    [parseSQLiteTimestamp] names one: with a zone it gives the time it was
    written from, without a zone the same civil time in UTC. *)
Theorem X22_fraction_is_read_in_the_space_forms (t : Time) :
  validTime t →
  parseSQLiteTimestamp (Format t layoutSpaceFracZone) = t
  ∧ parseSQLiteTimestamp (Format t layoutSpaceFrac) = inUTC t.
Proof.
  intros Hvalid.
  destruct (zone_head t []) as [Hno Hfrac]. rewrite app_nil_r in Hno, Hfrac.
  assert (Hday : (day t <? 1) || (daysIn (month t) (year t) <? day t) = false).
  { destruct Hvalid as (_ & _ & Hd & _). apply orb_false_iff.
    split; apply Z.ltb_ge; lia. }
  unfold parseSQLiteTimestamp, timestampLayouts, layoutSpaceFracZone, layoutSpaceFrac.
  rewrite !bool_decide_eq_false_2 by apply Format_date_nonempty.
  cbn [firstParse]. rewrite !Parse_RFC3339Nano_space by done.
  unfold Parse, layoutSpaceZone, layoutSpace.
  rewrite !Format_bytes, !map_app, !concat_app. cbn [map concat]. rewrite !app_nil_r.
  change (formatStd stdFracSecond9 t) with (appendNano (nsec t)).
  split.
  - rewrite parseLoop_date_fraction by done.
    destruct Hvalid as (_ & _ & _ & _ & _ & _ & _ & Hoff & Hmod).
    cbn [parseLoop]. rewrite parseStd_zone by done. cbn [mbind option_bind].
    cbn [setZone fieldsOf pyear pmonth pday phour pmin psec pnsec pzone default].
    rewrite Hday. by destruct t.
  - rewrite <- (app_nil_r (appendNano (nsec t))).
    rewrite parseLoop_date_fraction by done.
    cbn [parseLoop parseStd mbind option_bind].
    rewrite <- (app_nil_r (dateChunks " ")) at 1.
    rewrite parseLoop_date_fraction by done.
    cbn [parseLoop mbind option_bind].
    cbn [fieldsOf pyear pmonth pday phour pmin psec pnsec pzone default].
    by rewrite Hday.
Qed.

Lemma X22_fraction_is_read_in_the_space_forms_witness :
  validTime exampleTime
  ∧ parseSQLiteTimestamp (Format exampleTime layoutSpaceFracZone) = exampleTime
  ∧ parseSQLiteTimestamp (Format exampleTime layoutSpaceFrac) = inUTC exampleTime.
Proof.
  assert (Hvalid : validTime exampleTime) by (vm_compute; repeat split; discriminate).
  split; [exact Hvalid|].
  apply (X22_fraction_is_read_in_the_space_forms exampleTime Hvalid).
Defined.

(** The two texts of [exampleTime] in the forms with a space and a
    fraction. *)
Example exampleTime_fraction_texts :
  Format exampleTime layoutSpaceFracZone = "2025-03-09 14:05:07.12+02:00"
  ∧ Format exampleTime layoutSpaceFrac = "2025-03-09 14:05:07.12".
Proof. vm_compute. split; reflexivity. Qed.

End storedForms.

(** ** The further properties at concrete inputs *)

Lemma X9_history_is_the_rows_at_linked_paths_witness :
  db (mkIndex (Some (rowsDeleted exampleClock))) = Some (rowsDeleted exampleClock)
  ∧ NoDup (id <$> rowsDeleted exampleClock)
  ∧ ∃ es, GetHistoryForPath (mkIndex (Some (rowsDeleted exampleClock))) "a.md" = inr es
      ∧ NoDup (ID <$> es)
      ∧ ∀ e, e ∈ es ↔
             ∃ r c, r ∈ rowsDeleted exampleClock ∧ e = entryOfRow r
                    ∧ linked (rowsDeleted exampleClock) (seedHistoryPaths "a.md") c
                    ∧ (path r = c ∨ previous_path r = Some c).
Proof.
  assert (Hnd : NoDup (id <$> rowsDeleted exampleClock)) by compute_done.
  split; [reflexivity|]. split; [exact Hnd|].
  exact (X9_history_is_the_rows_at_linked_paths
           (mkIndex (Some (rowsDeleted exampleClock))) (rowsDeleted exampleClock)
           "a.md" eq_refl Hnd).
Defined.

(** The history of a.md, the source of the move, in the table of the life
    of a page: the move away from it, but not the deletion at b/a.md. *)
Example history_of_move_source :
  GetHistoryForPath (mkIndex (Some (rowsDeleted exampleClock))) "a.md"
  = inr [entryOfRow (rowMoved exampleClock); entryOfRow (rowModified exampleClock);
         entryOfRow (rowCreated exampleClock)].
Proof. vm_compute. reflexivity. Qed.

Lemma X10_history_ignores_row_order_witness :
  NoDup (id <$> rowsDeleted exampleClock)
  ∧ rowsDeleted exampleClock ≡ₚ rev (rowsDeleted exampleClock)
  ∧ GetHistoryForPath (mkIndex (Some (rowsDeleted exampleClock))) "b/a.md"
    = GetHistoryForPath (mkIndex (Some (rev (rowsDeleted exampleClock)))) "b/a.md".
Proof.
  assert (Hnd : NoDup (id <$> rowsDeleted exampleClock)) by compute_done.
  assert (Hperm : rowsDeleted exampleClock ≡ₚ rev (rowsDeleted exampleClock))
    by apply Permutation_rev.
  split; [exact Hnd|]. split; [exact Hperm|].
  exact (X10_history_ignores_row_order (rowsDeleted exampleClock)
           (rev (rowsDeleted exampleClock)) "b/a.md" Hnd Hperm).
Defined.

Lemma X11_history_loop_ends_on_every_table_witness :
  normalizeHistoryPath "  //" = ""
  ∧ db (mkIndex (Some (rowsDeleted exampleClock))) = Some (rowsDeleted exampleClock)
  ∧ GetHistoryForPath (mkIndex (Some (rowsDeleted exampleClock))) "  //" = inr [].
Proof.
  assert (H1 : normalizeHistoryPath "  //" = "") by (vm_compute; reflexivity).
  split; [exact H1|]. split; [reflexivity|].
  exact (proj2 (proj2 (X11_history_loop_ends_on_every_table
                         (rowsDeleted exampleClock) "  //") H1)
           (mkIndex (Some (rowsDeleted exampleClock))) eq_refl).
Defined.

Lemma X12_sorted_history_is_unique_witness :
  NoDup (ID <$> [entryOfRow (rowCreated exampleClock); entryOfRow (rowDeleted exampleClock)])
  ∧ [entryOfRow (rowDeleted exampleClock); entryOfRow (rowCreated exampleClock)]
    ≡ₚ [entryOfRow (rowCreated exampleClock); entryOfRow (rowDeleted exampleClock)]
  ∧ StronglySorted entryBefore
      [entryOfRow (rowDeleted exampleClock); entryOfRow (rowCreated exampleClock)]
  ∧ sortSlice entryLess
      [entryOfRow (rowCreated exampleClock); entryOfRow (rowDeleted exampleClock)]
    = [entryOfRow (rowDeleted exampleClock); entryOfRow (rowCreated exampleClock)].
Proof.
  assert (H1 : NoDup (ID <$> [entryOfRow (rowCreated exampleClock);
                              entryOfRow (rowDeleted exampleClock)])) by compute_done.
  assert (H2 : [entryOfRow (rowDeleted exampleClock); entryOfRow (rowCreated exampleClock)]
               ≡ₚ [entryOfRow (rowCreated exampleClock); entryOfRow (rowDeleted exampleClock)])
    by apply perm_swap.
  assert (H3 : StronglySorted entryBefore
                 [entryOfRow (rowDeleted exampleClock); entryOfRow (rowCreated exampleClock)]).
  { apply SSorted_cons; [apply SSorted_cons; [apply SSorted_nil | apply Forall_nil_2]|].
    apply Forall_cons. split; [vm_compute; reflexivity | apply Forall_nil_2]. }
  split; [exact H1|]. split; [exact H2|]. split; [exact H3|].
  exact (X12_sorted_history_is_unique _ _ H1 H2 H3).
Defined.

Lemma X13_appended_rows_are_justified_witness :
  scanMarkdownFiles fsMoved = (curMoved, None)
  ∧ passOrders lifeOrders curMoved (rowsModified exampleClock)
  ∧ ∃ added, appends exampleClock lifeOrders (rowsModified exampleClock) fsMoved added
      ∧ Forall (justified curMoved (rowsModified exampleClock)) added.
Proof.
  assert (H1 : scanMarkdownFiles fsMoved = (curMoved, None)) by (vm_compute; reflexivity).
  assert (H2 : passOrders lifeOrders curMoved (rowsModified exampleClock)) by compute_done.
  split; [exact H1|]. split; [exact H2|].
  exact (X13_appended_rows_are_justified exampleClock lifeOrders
           (rowsModified exampleClock) fsMoved curMoved H1 H2).
Defined.

Lemma X14_absent_path_is_deleted_once_witness :
  scanMarkdownFiles fsDeleted = (∅, None)
  ∧ passOrders lifeOrders ∅ (rowsMoved exampleClock)
  ∧ (∅ : gmap string fileRecord) !! "b/a.md" = None
  ∧ latestFileSnapshots (rowsMoved exampleClock) !! "b/a.md"
    = Some (snapshotOfRow (rowMoved exampleClock))
  ∧ ∃ added, appends exampleClock lifeOrders (rowsMoved exampleClock) fsDeleted added
      ∧ entriesFor "b/a.md" added
        = if bool_decide
               (Status (snapshotOfRow (rowMoved exampleClock)) ≠ FileStatusDeleted
                ∧ ("b/a.md" ∉ aliasPathsOf (latestFileSnapshots (rowsMoved exampleClock)))
                ∧ ¬ consumed (latestFileSnapshots (rowsMoved exampleClock))
                      (aliasPathsOf (latestFileSnapshots (rowsMoved exampleClock))) ∅
                      (ordLatest lifeOrders) (ordCurrent lifeOrders) "b/a.md")
          then [mkSnapshot "b/a.md" (Hash (snapshotOfRow (rowMoved exampleClock)))
                  (Content (snapshotOfRow (rowMoved exampleClock))) FileStatusDeleted None]
          else [].
Proof.
  assert (H1 : scanMarkdownFiles fsDeleted = (∅, None)) by (vm_compute; reflexivity).
  assert (H2 : passOrders lifeOrders ∅ (rowsMoved exampleClock)) by compute_done.
  assert (H3 : (∅ : gmap string fileRecord) !! "b/a.md" = None) by reflexivity.
  assert (H4 : latestFileSnapshots (rowsMoved exampleClock) !! "b/a.md"
               = Some (snapshotOfRow (rowMoved exampleClock))) by (vm_compute; reflexivity).
  split; [exact H1|]. split; [exact H2|]. split; [exact H3|]. split; [exact H4|].
  exact (X14_absent_path_is_deleted_once exampleClock lifeOrders
           (rowsMoved exampleClock) fsDeleted ∅ "b/a.md" _ H1 H2 H3 H4).
Defined.

Lemma X15_known_path_is_modified_or_untouched_witness :
  scanMarkdownFiles fsModified = (curModified, None)
  ∧ passOrders lifeOrders curModified (rowsCreated exampleClock)
  ∧ curModified !! "a.md" = Some (fileOf note2)
  ∧ latestFileSnapshots (rowsCreated exampleClock) !! "a.md"
    = Some (snapshotOfRow (rowCreated exampleClock))
  ∧ Status (snapshotOfRow (rowCreated exampleClock)) ≠ FileStatusDeleted
  ∧ ∃ added, appends exampleClock lifeOrders (rowsCreated exampleClock) fsModified added
      ∧ entriesFor "a.md" added
        = if bool_decide (Hash (snapshotOfRow (rowCreated exampleClock))
                          = FileHash (fileOf note2)) then []
          else [mkSnapshot "a.md" (FileHash (fileOf note2)) (FileContent (fileOf note2))
                  FileStatusModified None].
Proof.
  assert (H1 : scanMarkdownFiles fsModified = (curModified, None))
    by (vm_compute; reflexivity).
  assert (H2 : passOrders lifeOrders curModified (rowsCreated exampleClock)) by compute_done.
  assert (H3 : curModified !! "a.md" = Some (fileOf note2)) by (vm_compute; reflexivity).
  assert (H4 : latestFileSnapshots (rowsCreated exampleClock) !! "a.md"
               = Some (snapshotOfRow (rowCreated exampleClock))) by (vm_compute; reflexivity).
  assert (H5 : Status (snapshotOfRow (rowCreated exampleClock)) ≠ FileStatusDeleted)
    by discriminate.
  split; [exact H1|]. split; [exact H2|]. split; [exact H3|]. split; [exact H4|].
  split; [exact H5|].
  exact (X15_known_path_is_modified_or_untouched exampleClock lifeOrders
           (rowsCreated exampleClock) fsModified curModified "a.md" _ _ H1 H2 H3 H4 H5).
Defined.

Lemma X16_pass_appends_nothing_iff_synced_witness :
  scanMarkdownFiles fsModified = (curModified, None)
  ∧ passOrders lifeOrders curModified (rowsModified exampleClock)
  ∧ (appends exampleClock lifeOrders (rowsModified exampleClock) fsModified []
     ↔ synced curModified (rowsModified exampleClock)).
Proof.
  assert (H1 : scanMarkdownFiles fsModified = (curModified, None))
    by (vm_compute; reflexivity).
  assert (H2 : passOrders lifeOrders curModified (rowsModified exampleClock)) by compute_done.
  split; [exact H1|]. split; [exact H2|].
  exact (X16_pass_appends_nothing_iff_synced exampleClock lifeOrders
           (rowsModified exampleClock) fsModified curModified H1 H2).
Defined.

Lemma X17_inserted_entry_is_latest_witness :
  NoDup (id <$> rowsCreated exampleClock)
  ∧ latestFileSnapshots
      (insertHistoryEntry exampleClock (rowsCreated exampleClock)
         "a.md" "h" "c" FileStatusModified None)
    = <["a.md" := mkSnapshot "a.md" "h" "c" FileStatusModified None]>
        (latestFileSnapshots (rowsCreated exampleClock))
  ∧ NoDup (id <$> insertHistoryEntry exampleClock (rowsCreated exampleClock)
                    "a.md" "h" "c" FileStatusModified None).
Proof.
  assert (H1 : NoDup (id <$> rowsCreated exampleClock)) by compute_done.
  split; [exact H1|].
  exact (X17_inserted_entry_is_latest exampleClock (rowsCreated exampleClock)
           "a.md" "h" "c" FileStatusModified None H1).
Defined.

Lemma X18_pass_brings_the_table_in_sync_witness :
  scanMarkdownFiles fsMoved = (curMoved, None)
  ∧ NoDup (id <$> rowsModified exampleClock)
  ∧ passOrders lifeOrders curMoved (rowsModified exampleClock)
  ∧ ∃ added, appends exampleClock lifeOrders (rowsModified exampleClock) fsMoved added
      ∧ NoDup (id <$> rowsModified exampleClock ++ added)
      ∧ (∀ q file, curMoved !! q = Some file →
           ∃ snap, latestFileSnapshots (rowsModified exampleClock ++ added) !! q = Some snap
                   ∧ Status snap ≠ FileStatusDeleted ∧ Hash snap = FileHash file)
      ∧ (∀ p snap,
           latestFileSnapshots (rowsModified exampleClock ++ added) !! p = Some snap →
           curMoved !! p = None →
           Status snap = FileStatusDeleted
           ∨ p ∈ aliasPathsOf (latestFileSnapshots (rowsModified exampleClock ++ added))
           ∨ (p ∈ aliasPathsOf (latestFileSnapshots (rowsModified exampleClock))
              ∧ latestFileSnapshots (rowsModified exampleClock) !! p = Some snap)).
Proof.
  assert (H1 : scanMarkdownFiles fsMoved = (curMoved, None)) by (vm_compute; reflexivity).
  assert (H2 : NoDup (id <$> rowsModified exampleClock)) by compute_done.
  assert (H3 : passOrders lifeOrders curMoved (rowsModified exampleClock)) by compute_done.
  split; [exact H1|]. split; [exact H2|]. split; [exact H3|].
  exact (X18_pass_brings_the_table_in_sync exampleClock lifeOrders
           (rowsModified exampleClock) fsMoved curMoved H1 H2 H3).
Defined.

Lemma X19_second_pass_deletes_only_held_back_sources_witness :
  scanMarkdownFiles fsDeleted = (∅, None)
  ∧ NoDup (id <$> rowsMoved exampleClock)
  ∧ passOrders lifeOrders ∅ (rowsMoved exampleClock)
  ∧ appends exampleClock lifeOrders (rowsMoved exampleClock) fsDeleted
      [rowDeleted exampleClock]
  ∧ passOrders lifeOrders ∅ (rowsMoved exampleClock ++ [rowDeleted exampleClock])
  ∧ ∃ added2,
      appends exampleClock lifeOrders (rowsMoved exampleClock ++ [rowDeleted exampleClock])
        fsDeleted added2
      ∧ Forall (λ r, status r = FileStatusDeleted
                     ∧ (∅ : gmap string fileRecord) !! path r = None
                     ∧ path r ∈ aliasPathsOf (latestFileSnapshots (rowsMoved exampleClock))
                     ∧ ∃ snap,
                         latestFileSnapshots (rowsMoved exampleClock) !! path r = Some snap
                         ∧ Status snap ≠ FileStatusDeleted
                         ∧ hash r = Hash snap ∧ content r = Content snap) added2
      ∧ ((∀ p snap, p ∈ aliasPathsOf (latestFileSnapshots (rowsMoved exampleClock)) →
            latestFileSnapshots (rowsMoved exampleClock) !! p = Some snap →
            (∅ : gmap string fileRecord) !! p = None →
            Status snap = FileStatusDeleted) →
         added2 = []).
Proof.
  assert (H1 : scanMarkdownFiles fsDeleted = (∅, None)) by (vm_compute; reflexivity).
  assert (H2 : NoDup (id <$> rowsMoved exampleClock)) by compute_done.
  assert (H3 : passOrders lifeOrders ∅ (rowsMoved exampleClock)) by compute_done.
  assert (H4 : appends exampleClock lifeOrders (rowsMoved exampleClock) fsDeleted
                 [rowDeleted exampleClock]) by (vm_compute; reflexivity).
  assert (H5 : passOrders lifeOrders ∅ (rowsMoved exampleClock ++ [rowDeleted exampleClock]))
    by compute_done.
  split; [exact H1|]. split; [exact H2|]. split; [exact H3|]. split; [exact H4|].
  split; [exact H5|].
  exact (X19_second_pass_deletes_only_held_back_sources exampleClock lifeOrders lifeOrders
           (rowsMoved exampleClock) fsDeleted ∅ [rowDeleted exampleClock]
           H1 H2 H3 H4 H5).
Defined.

Lemma X20_first_pass_records_every_file_as_created_witness :
  scanMarkdownFiles fsCreated = (curCreated, None)
  ∧ passOrders lifeOrders curCreated []
  ∧ ∃ added, appends exampleClock lifeOrders [] fsCreated added
      ∧ (∀ q file, curCreated !! q = Some file →
           entriesFor q added
           = [mkSnapshot q (FileHash file) (FileContent file) FileStatusCreated None])
      ∧ Forall (λ r, is_Some (curCreated !! path r)) added.
Proof.
  assert (H1 : scanMarkdownFiles fsCreated = (curCreated, None))
    by (vm_compute; reflexivity).
  assert (H2 : passOrders lifeOrders curCreated []) by compute_done.
  split; [exact H1|]. split; [exact H2|].
  exact (X20_first_pass_records_every_file_as_created exampleClock lifeOrders
           fsCreated curCreated H1 H2).
Defined.

(** ** The earlier version against the later one *)

Lemma hashRecord_lookup l : ∀ (st : gmap string fileRecord) (st' : gmap string string),
  st' = FileHash <$> st →
  foldl (λ m (f : list string * string), <[relPathOf f.1 := hashBytes f.2]> m) st' l
  = FileHash <$> foldl recordFile st l.
Proof.
  induction l as [|[r d] l IH]; intros st st' Hst; [done|].
  cbn [foldl]. apply IH. unfold recordFile. cbn [fst snd].
  by rewrite fmap_insert, Hst.
Qed.

Lemma walkDir_scanHash n : ∀ rel name st,
  walkDir Previous.scanHashEntry rel name n st
  = (foldl (λ m (f : list string * string), <[relPathOf f.1 := hashBytes f.2]> m) st
       (markdownFiles rel name n), None).
Proof.
  induction n as [data | entries readErr IH] using node_induction;
    intros rel name st.
  - cbn [walkDir Previous.scanHashEntry markdownFiles]. case_bool_decide as Hext.
    + rewrite bool_decide_eq_false_2 by (by intros ?). by destruct data.
    + rewrite bool_decide_eq_true_2 by done. by destruct data.
  - cbn [walkDir markdownFiles].
    change (Previous.scanHashEntry rel (Some (name, Dir entries readErr)) false st)
      with (st, @None walkResult).
    cbn iota beta.
    assert (H2 : (if readErr
                  then Previous.scanHashEntry rel (Some (name, Dir entries readErr)) true st
                  else (st, None)) = (st, None)) by (by destruct readErr).
    rewrite H2. clear H2. revert st.
    induction IH as [|[name1 n1] es Hn1 _ IHes]; intros st; [done|].
    cbn [snd] in Hn1. rewrite Hn1, foldl_app. apply IHes.
Qed.

Lemma scanMarkdownHashes_eq (dataDir : fsRoot) :
  Previous.scanMarkdownHashes dataDir
  = (FileHash <$> (scanMarkdownFiles dataDir).1, None).
Proof.
  destruct dataDir as [e | name n].
  - change (Previous.scanMarkdownHashes (Missing e)) with ((∅ : gmap string string), @None error).
    change (scanMarkdownFiles (Missing e)) with ((∅ : gmap string fileRecord), @None error).
    cbn [fst]. by rewrite fmap_empty.
  - rewrite scanMarkdownFiles_present. cbn [fst].
    unfold Previous.scanMarkdownHashes, WalkDir. rewrite walkDir_scanHash.
    rewrite (hashRecord_lookup _ ∅ ∅) by (by rewrite fmap_empty). done.
Qed.

(** X23. The scanner of the earlier version, which keeps hashes only, sees
    the files the later scanner sees: it returns, path by path, the hashes
    of the records [scanMarkdownFiles] returns, and no error either. *)
Theorem X23_scanMarkdownHashes_agrees_with_scanMarkdownFiles (dataDir : fsRoot) :
  Previous.scanMarkdownHashes dataDir
  = (FileHash <$> (scanMarkdownFiles dataDir).1, None).
Proof. apply scanMarkdownHashes_eq. Qed.

Lemma ids_withoutContent (rows : list Row) : Previous.id <$> (withoutContent <$> rows) = id <$> rows.
Proof. induction rows as [|r rows IH]; [done|]. cbn. by rewrite <- IH. Qed.

Lemma paths_withoutContent (rows : list Row) :
  Previous.path <$> (withoutContent <$> rows) = path <$> rows.
Proof. induction rows as [|r rows IH]; [done|]. cbn. by rewrite <- IH. Qed.

Lemma filter_withoutContent p (rows : list Row) :
  filter (λ r, Previous.path r = p) (withoutContent <$> rows)
  = withoutContent <$> filter (λ r, path r = p) rows.
Proof.
  induction rows as [|r rows IH]; [done|]. rewrite fmap_cons.
  destruct (decide (path r = p)) as [Hp | Hp].
  - rewrite !filter_cons_True by done. by rewrite fmap_cons, IH.
  - by rewrite !filter_cons_False by done.
Qed.

Lemma insert_withoutContent clock rows p h c s prev :
  Previous.insertHistoryEntry clock (withoutContent <$> rows) p h s prev
  = withoutContent <$> insertHistoryEntry clock rows p h c s prev.
Proof.
  unfold Previous.insertHistoryEntry, insertHistoryEntry, Previous.nextID, nextID.
  cbn zeta. by rewrite ids_withoutContent, fmap_app.
Qed.

Lemma maxIdPerPath_withoutContent rows :
  Previous.maxIdPerPath (withoutContent <$> rows) = maxIdPerPath rows.
Proof.
  unfold Previous.maxIdPerPath, maxIdPerPath. rewrite paths_withoutContent.
  apply list_fmap_ext. intros _ p _. cbn zeta.
  by rewrite filter_withoutContent, ids_withoutContent.
Qed.

Lemma joinLatest_withoutContent rows :
  Previous.joinLatest (withoutContent <$> rows) = withoutContent <$> joinLatest rows.
Proof.
  unfold Previous.joinLatest, joinLatest. rewrite maxIdPerPath_withoutContent.
  generalize (maxIdPerPath rows). intros ls.
  induction rows as [|r rows IH]; [done|].
  rewrite fmap_cons, !bind_cons, fmap_app, IH. f_equal.
  clear. induction ls as [|l ls IH]; [done|].
  rewrite !bind_cons, fmap_app, IH. f_equal.
  change (Previous.id (withoutContent r)) with (id r). by case_bool_decide.
Qed.

Lemma latest_withoutContent rows :
  Previous.latestFileSnapshots (withoutContent <$> rows)
  = snapshotWithoutContent <$> latestFileSnapshots rows.
Proof.
  unfold Previous.latestFileSnapshots, latestFileSnapshots.
  rewrite joinLatest_withoutContent.
  assert (H : ∀ (l : list Row) (m : gmap string FileHistorySnapshot),
            foldl (λ snapshots r, <[Previous.path r := Previous.snapshotOfRow r]> snapshots)
              (snapshotWithoutContent <$> m) (withoutContent <$> l)
            = snapshotWithoutContent <$>
                foldl (λ snapshots r, <[path r := snapshotOfRow r]> snapshots) m l).
  { induction l as [|r l IH]; intros m; [done|]. cbn [foldl fmap list_fmap].
    rewrite <- IH. f_equal. by rewrite fmap_insert. }
  rewrite <- H. by rewrite fmap_empty.
Qed.

Lemma rangeMap_related {V V' St St' : Type} (R : St → St' → Prop) ord
    (m : gmap string V) (f : V → V')
    (body : string → V → St → St) (body' : string → V' → St' → St') st st' :
  R st st' →
  (∀ k v s s', k ∈ ord → m !! k = Some v → R s s' →
     R (body k v s) (body' k (f v) s')) →
  R (rangeMap ord m body st) (rangeMap ord (f <$> m) body' st').
Proof.
  revert st st'. induction ord as [|k ord IH]; intros st st' HR Hstep; [done|].
  rewrite !rangeMap_cons, lookup_fmap. apply IH.
  - destruct (m !! k) as [v|] eqn:Hk; [|done]. apply Hstep; [by left | done..].
  - intros k' v s s' Hin. apply Hstep. by right.
Qed.

Lemma candidates_withoutContent (mc : gmap string (list FileHistorySnapshot)) key :
  default [] (((λ l : list FileHistorySnapshot, snapshotWithoutContent <$> l) <$> mc) !! key)
  = snapshotWithoutContent <$> default [] (mc !! key).
Proof. rewrite lookup_fmap. by destruct (mc !! key). Qed.

Lemma collectMissing_same aliasPaths currentFiles p snap st st' :
  (p ∈ aliasPaths → is_Some (currentFiles !! p)) →
  sameState st st' →
  sameState (collectMissing aliasPaths currentFiles p snap st)
    (Previous.collectMissing (FileHash <$> currentFiles) p
       (snapshotWithoutContent snap) st').
Proof.
  intros Halias (Hmc & Hmi & Hrows).
  unfold collectMissing, Previous.collectMissing. rewrite lookup_fmap.
  case_bool_decide as Ha.
  { destruct (Halias Ha) as [file ->]. done. }
  destruct (currentFiles !! p) as [file|]; [done|]. cbn [fmap option_fmap option_map].
  change (Previous.Status (snapshotWithoutContent snap)) with (Status snap).
  change (Previous.Hash (snapshotWithoutContent snap)) with (Hash snap).
  case_bool_decide; (split; [|split]); cbn.
  - by rewrite Hmc, fmap_insert, candidates_withoutContent, fmap_app.
  - by rewrite Hmi, fmap_insert.
  - done.
  - done.
  - by rewrite Hmi, fmap_insert.
  - done.
Qed.

Lemma classifyCurrent_same clock latest q file st st' :
  sameState st st' →
  sameState (classifyCurrent clock latest q file st)
    (Previous.classifyCurrent clock (snapshotWithoutContent <$> latest) q
       (FileHash file) st').
Proof.
  intros (Hmc & Hmi & Hrows).
  unfold classifyCurrent, Previous.classifyCurrent. cbn zeta. rewrite lookup_fmap.
  destruct (latest !! q) as [snap|]; cbn [fmap option_fmap option_map].
  - change (Previous.Status (snapshotWithoutContent snap)) with (Status snap).
    change (Previous.Hash (snapshotWithoutContent snap)) with (Hash snap).
    repeat case_bool_decide; try done;
      (split; [done|]; split; [done|]; cbn; by rewrite Hrows, (insert_withoutContent _ _ _ _ (FileContent file))).
  - rewrite Hmc, candidates_withoutContent.
    destruct (default [] (moveCandidates st !! movementKey (FileHash file) q))
      as [|prev snaps]; cbn [fmap list_fmap].
    + split; [done|]. split; [done|]. cbn. by rewrite Hrows, (insert_withoutContent _ _ _ _ (FileContent file)).
    + split; [|split]; cbn.
      * by rewrite fmap_insert.
      * by rewrite Hmi, fmap_delete.
      * by rewrite Hrows, (insert_withoutContent _ _ _ _ (FileContent file)).
Qed.

Lemma recordDeleted_same clock k snap rs :
  Previous.recordDeleted clock k (snapshotWithoutContent snap) (withoutContent <$> rs)
  = withoutContent <$> recordDeleted clock k snap rs.
Proof.
  unfold Previous.recordDeleted, recordDeleted.
  change (Previous.Status (snapshotWithoutContent snap)) with (Status snap).
  case_bool_decide; [done|]. by apply insert_withoutContent.
Qed.

Lemma reconcile_withoutContent clock ord currentFiles rows0 :
  noPendingAlias currentFiles rows0 →
  Previous.reconcile clock ord (FileHash <$> currentFiles) (withoutContent <$> rows0)
  = withoutContent <$> reconcile clock ord currentFiles rows0.
Proof.
  intros Hpending. unfold Previous.reconcile, reconcile. cbn zeta.
  rewrite latest_withoutContent.
  set (latest := latestFileSnapshots rows0) in *.
  set (st1 := rangeMap (ordLatest ord) latest _ _).
  set (st1' := rangeMap (ordLatest ord) (snapshotWithoutContent <$> latest) _ _).
  assert (H1 : sameState st1 st1').
  { apply (rangeMap_related sameState).
    - split; [|split]; cbn; by rewrite ?fmap_empty.
    - intros k v s s' _ Hk Hs. apply collectMissing_same; [|done].
      intros Ha. apply Hpending; [done | by eexists]. }
  set (st2 := rangeMap (ordCurrent ord) currentFiles _ st1).
  set (st2' := rangeMap (ordCurrent ord) (FileHash <$> currentFiles) _ st1').
  assert (H2 : sameState st2 st2').
  { apply (rangeMap_related sameState); [done|].
    intros k v s s' _ _ Hs. by apply classifyCurrent_same. }
  destruct H2 as (_ & Hmi & Hrows). rewrite Hmi, Hrows.
  apply (rangeMap_related (λ rs rs', rs' = withoutContent <$> rs)); [done|].
  intros k v rs rs' _ _ ->. apply recordDeleted_same.
Qed.

(** X24. The earlier version of the pass, which knew no alias paths, and
    the later one append the same rows, the content column apart, whenever
    no alias path is pending, that is whenever every alias path with a
    latest entry is in the snapshot: holding back the deletion of the
    sources of moves is all that separates the two. *)
Theorem X24_versions_agree_without_pending_alias clock ord rows0 dataDir currentFiles :
  scanMarkdownFiles dataDir = (currentFiles, None) →
  noPendingAlias currentFiles rows0 →
  CaptureFileHistory clock ord (mkIndex (Some rows0)) dataDir
  = inr (mkIndex (Some (reconcile clock ord currentFiles rows0)))
  ∧ Previous.CaptureFileHistory clock ord
      (Previous.mkIndex (Some (withoutContent <$> rows0))) dataDir
    = inr (Previous.mkIndex
             (Some (withoutContent <$> reconcile clock ord currentFiles rows0))).
Proof.
  intros Hscan Hpending. split.
  - by rewrite CaptureFileHistory_reconcile, Hscan.
  - unfold Previous.CaptureFileHistory. cbn [Previous.db].
    rewrite scanMarkdownHashes_eq.
    by rewrite Hscan, reconcile_withoutContent.
Qed.

Lemma X24_versions_agree_without_pending_alias_witness :
  scanMarkdownFiles fsMoved = (curMoved, None)
  ∧ noPendingAlias curMoved (rowsModified exampleClock)
  ∧ CaptureFileHistory exampleClock lifeOrders
      (mkIndex (Some (rowsModified exampleClock))) fsMoved
    = inr (mkIndex (Some (reconcile exampleClock lifeOrders curMoved
                            (rowsModified exampleClock))))
  ∧ Previous.CaptureFileHistory exampleClock lifeOrders
      (Previous.mkIndex (Some (withoutContent <$> rowsModified exampleClock))) fsMoved
    = inr (Previous.mkIndex
             (Some (withoutContent <$> reconcile exampleClock lifeOrders curMoved
                                         (rowsModified exampleClock)))).
Proof.
  assert (H1 : scanMarkdownFiles fsMoved = (curMoved, None)) by (vm_compute; reflexivity).
  assert (H2 : noPendingAlias curMoved (rowsModified exampleClock)).
  { intros p (k & snap & Hk & Hp)%elem_of_aliasPathsOf _. exfalso.
    apply latest_lookup_row in Hk as (r & Hr & _ & <-).
    repeat (apply elem_of_cons in Hr as [-> | Hr]; [discriminate Hp|]).
    by apply elem_of_nil in Hr. }
  split; [exact H1|]. split; [exact H2|].
  exact (X24_versions_agree_without_pending_alias exampleClock lifeOrders
           (rowsModified exampleClock) fsMoved curMoved H1 H2).
Defined.

(** With a pending alias path the versions part: on the table that records
    the move of a.md to b/a.md and the unchanged file system, the earlier
    version appends the deletion of a.md, the later one nothing. *)
Example versions_part_on_pending_alias :
  Previous.CaptureFileHistory exampleClock lifeOrders
    (Previous.mkIndex (Some (withoutContent <$> rowsMoved exampleClock))) fsMoved
  = inr (Previous.mkIndex
           (Some ((withoutContent <$> rowsMoved exampleClock)
                  ++ [Previous.mkRow 4 "a.md" (hashBytes note2) FileStatusDeleted None
                        (exampleClock 4%Z)])))
  ∧ CaptureFileHistory exampleClock lifeOrders
      (mkIndex (Some (rowsMoved exampleClock))) fsMoved
    = inr (mkIndex (Some (rowsMoved exampleClock))).
Proof. split; vm_compute; reflexivity. Qed.
